(** * Character identification and coreference unification

    A shallow embedding of [src/features/char_id/character_identification.py]
    (class [CharacterIdentification]) and [src/features/char_id/_gender_annotation.py]
    (class [GenderAnnotation]), with the properties the specification states
    about them.

    Python values are modelled as follows: a [str] is a [string]; an [int]
    token position is a [Z]; a [list] is a [list]; a [dict] is an
    insertion-ordered association list (module [Dict]); a [set] of strings is
    a [gset string]; code that can raise returns a [result]. *)

From Stdlib Require Import ZArith QArith Lia Ascii String.
From stdpp Require Import base list strings gmap.

Local Open Scope string_scope.
Local Open Scope list_scope.
Local Open Scope Z_scope.

(** ** Exceptions *)

Inductive exn : Type :=
| ValueError
| KeyError
| IndexError
| AttributeError
| TypeError.

Inductive result (A : Type) : Type :=
| Ok (a : A)
| Raise (e : exn).

Arguments Ok {A} a.
Arguments Raise {A} e.

Definition bind {A B : Type} (m : result A) (k : A -> result B) : result B :=
  match m with
  | Ok a => k a
  | Raise e => Raise e
  end.

Notation "x <- c1 ;; c2" := (bind c1 (fun x => c2))
  (at level 20, c1 at level 99, c2 at level 200, only parsing).

(** A [for] loop whose body can raise: the state is threaded through the
    elements from left to right and the first exception ends the loop. *)
Fixpoint for_each {A S : Type} (body : S -> A -> result S) (xs : list A) (s : S)
  : result S :=
  match xs with
  | [] => Ok s
  | x :: xs' => s' <- body s x ;; for_each body xs' s'
  end.

(** ** Python lists indexed by an [int] *)

(** [l[i]]: a negative index counts from the end, an index out of range
    raises [IndexError]. *)
Definition py_index {A : Type} (l : list A) (i : Z) : result A :=
  let n := Z.of_nat (length l) in
  let k := if i <? 0 then n + i else i in
  if (0 <=? k) && (k <? n) then
    match l !! Z.to_nat k with
    | Some x => Ok x
    | None => Raise IndexError
    end
  else Raise IndexError.

(** [l.count(x)] *)
Definition count {A : Type} `{EqDecision A} (x : A) (l : list A) : Z :=
  Z.of_nat (length (filter (fun y => y = x) l)).

(** ** Insertion-ordered dictionaries with string keys *)

Module Dict.

Abbreviation t V := (list (string * V)) (only parsing).

Definition keys {V : Type} (d : t V) : list string := map fst d.

Fixpoint find {V : Type} (d : t V) (k : string) : option V :=
  match d with
  | [] => None
  | (k', v) :: d' => if String.eqb k' k then Some v else find d' k
  end.

(** [k in d] *)
Definition mem {V : Type} (d : t V) (k : string) : bool :=
  match find d k with Some _ => true | None => false end.

(** [d[k]] *)
Definition get {V : Type} (d : t V) (k : string) : result V :=
  match find d k with
  | Some v => Ok v
  | None => Raise KeyError
  end.

(** [d[k] = v]: an existing key keeps its position, a new key goes last. *)
Fixpoint set {V : Type} (d : t V) (k : string) (v : V) : t V :=
  match d with
  | [] => [(k, v)]
  | (k', v') :: d' =>
      if String.eqb k' k then (k', v) :: d' else (k', v') :: set d' k v
  end.

(** In-place mutation of the object stored under [k]. *)
Definition modify {V : Type} (f : V -> V) (d : t V) (k : string) : t V :=
  map (fun e => if String.eqb (fst e) k then (fst e, f (snd e)) else e) d.

(** [d[k].method(...)]: the object under [k] is fetched, which raises
    [KeyError] for a missing key, and then mutated in place. *)
Definition update {V : Type} (f : V -> V) (d : t V) (k : string) : result (t V) :=
  match find d k with
  | Some _ => Ok (modify f d k)
  | None => Raise KeyError
  end.

(** [d.pop(k)] for a key that is present. *)
Definition pop {V : Type} (d : t V) (k : string) : t V :=
  filter (fun e => fst e <> k) d.

(** [d[k].append(v)] on a [defaultdict(list)]: a missing key is first
    bound to the empty list, at the end of the dictionary. *)
Definition append {V : Type} (d : t (list V)) (k : string) (v : V) : t (list V) :=
  if mem d k then modify (fun l => l ++ [v]) d k else d ++ [(k, [v])].

(** The list under [k], empty for a missing key. *)
Definition get_list {V : Type} (d : t (list V)) (k : string) : list V :=
  match find d k with Some l => l | None => [] end.

End Dict.

(** ** Genders *)

(** The three string literals ["MALE"], ["FEMALE"] and ["UNKNOWN"]. *)
Inductive Gender : Type := MALE | FEMALE | UNKNOWN.

#[global] Instance Gender_eq_dec : EqDecision Gender.
Proof. solve_decision. Defined.

(** ** Strings *)

(** [s.lower()] on the ASCII letters. *)
Definition lower_ascii (c : ascii) : ascii :=
  let n := Ascii.nat_of_ascii c in
  if (65 <=? n)%nat && (n <=? 90)%nat then Ascii.ascii_of_nat (n + 32) else c.

Fixpoint lower (s : string) : string :=
  match s with
  | EmptyString => EmptyString
  | String c s' => String (lower_ascii c) (lower s')
  end.

(** [s.replace(".", "")] *)
Fixpoint remove_periods (s : string) : string :=
  match s with
  | EmptyString => EmptyString
  | String c s' =>
      if Ascii.eqb c "."%char then remove_periods s' else String c (remove_periods s')
  end.

(** [x in l] for a list of strings. *)
Definition str_in (x : string) (l : list string) : bool :=
  existsb (String.eqb x) l.

(** ** Documents *)

(** A sentence is the list of its token texts. *)
Definition sentence : Type := list string.

(** A named-entity span: [ent.label_], [ent.text] and [ent.start]. *)
Module Span.
Record t : Type := mk { label_ : string; text : string; start : Z }.
End Span.

(** What the code reads of the parsed document: [doc[i].text], [doc.ents]
    and [doc.sents]. *)
Module Doc.
Record t : Type := mk {
  tokens : list string;
  ents : list Span.t;
  sents : list sentence
}.
End Doc.

(** ** Characters *)

(** The three components a name string is parsed into; each one is a string,
    empty when the name has no such part. *)
Module NameParsed.
Record t : Type := mk { title : string; first : string; last : string }.
End NameParsed.

(** Modelled from the spec: class [Character] of [src/tools/character_entity.py],
    whose source is not available. An entity carries its name string,
    the parsed name (derived once from the name string), the ordered token
    positions of its sightings, and a gender that is unset ([None]) until
    the annotation writes it. The name parser is a parameter of the
    constructor. *)
Module Character.

Record t : Type := mk {
  name : string;
  name_parsed : NameParsed.t;
  gender : option Gender;
  occurences : list Z
}.

(** [Character(name)] *)
Definition init (parse : string -> NameParsed.t) (name : string) : t :=
  {| name := name; name_parsed := parse name; gender := None; occurences := [] |}.

(** [c.append_occurences(start)] *)
Definition append_occurences (start : Z) (c : t) : t :=
  {| name := name c; name_parsed := name_parsed c; gender := gender c;
     occurences := occurences c ++ [start] |}.

(** [c.update_gender(g)] *)
Definition update_gender (g : Gender) (c : t) : t :=
  {| name := name c; name_parsed := name_parsed c; gender := Some g;
     occurences := occurences c |}.

End Character.

(** Modelled from the spec: class [CharacterGrouping] of
    [src/tools/character_grouping.py], whose source is not available.
    A disjoint-set structure over the name strings: one singleton group per
    name at construction, [unite] merges the groups of its two arguments, and
    [groups] returns the partition as a list of sets. A name outside the
    structure is an invariant violation. *)
Module CharacterGrouping.

Definition t : Type := list (gset string).

Definition init (names : list string) : t :=
  map (fun n => ({[ n ]} : gset string)) names.

Definition group_of (cg : t) (a : string) : option (gset string) :=
  List.find (fun g => bool_decide (a ∈ g)) cg.

Definition unite (cg : t) (a b : string) : result t :=
  match group_of cg a, group_of cg b with
  | Some ga, Some gb =>
      if decide (ga = gb) then Ok cg
      else Ok (map (fun g => if decide (g = ga) then ga ∪ gb else g)
                 (filter (fun g => g <> gb) cg))
  | _, _ => Raise KeyError
  end.

Definition groups (cg : t) : list (gset string) := cg.

End CharacterGrouping.

(** ** Class [GenderAnnotation] (_gender_annotation.py) *)

Module GenderAnnotation.

(** The instance: [self.doc] and [self.chars] ([self.nlp] only supplies the
    vocabulary of the token matcher). *)
Record t : Type := mk { doc : Doc.t; chars : Dict.t Character.t }.

(** The names the class body binds. *)
Definition methods : list string :=
  ["__init__"; "_annotate_gender_by_titiles"; "_match_gender_title";
   "_annotate_gender_by_names"; "_annotate_gender_by_pronouns";
   "_find_pronouns"; "_match_pronouns"; "_assign_gender_by_pronouns"].

(** The names [__init__] binds on the instance. *)
Definition instance_attributes : list string := ["nlp"; "doc"; "chars"].

(** [ga.attr()]: the attribute is looked up on the instance and then in the
    class, which has no base class and no [__getattr__]; a name found in
    neither raises [AttributeError], and an instance attribute is not
    callable. [body] gives what each method of the class body computes when
    it is called without arguments. *)
Definition call {R : Type} (body : string -> t -> result R)
    (ga : t) (attr : string) : result R :=
  if str_in attr instance_attributes then Raise TypeError
  else if str_in attr methods then body attr ga
  else Raise AttributeError.

(** *** The title estimator (lines 20-51) *)

Definition female_titles : list string :=
  ["mrs."; "mrs"; "miss."; "miss"; "mis."; "mis"].
Definition male_titles : list string := ["mr."; "mr"].

(** Lines 29-37: one vote per (title, name) match whose name is a key of
    the store. The name is then a key of [name_genders] as well. *)
Definition title_vote (chars : Dict.t Character.t)
    (name_genders : Dict.t (list Gender)) (m : string * string)
  : Dict.t (list Gender) :=
  let '(title, name) := m in
  if negb (Dict.mem chars name) then name_genders
  else if str_in (lower title) female_titles then
    Dict.modify (fun votes => votes ++ [FEMALE]) name_genders name
  else if str_in (lower title) male_titles then
    Dict.modify (fun votes => votes ++ [MALE]) name_genders name
  else name_genders.

(** Lines 41-48: the value stored back under the name. In Python the entry
    is rebound from the list of votes to a string; when no branch is taken
    the list stays. [size/2] is Python's true division, which is exact on
    a list length. *)
Definition title_decision (gender : list Gender) : Gender + list Gender :=
  let size := Z.of_nat (length gender) in
  if size =? 0 then inl UNKNOWN
  else if Qle_bool (inject_Z size / 2)%Q (inject_Z (count FEMALE gender))
  then inl FEMALE
  else if Qle_bool (inject_Z size / 2)%Q (inject_Z (count MALE gender))
  then inl MALE
  else inr gender.

(** [title_name] stands for the list returned by [_match_gender_title]: the
    text of each matched title token and of the proper-noun run after it. *)
Definition _annotate_gender_by_titiles (self : t)
    (title_name : list (string * string)) : Dict.t (Gender + list Gender) :=
  let name_genders :=
    foldl (fun d name => Dict.set d name []) [] (Dict.keys (chars self)) in
  let name_genders := foldl (title_vote (chars self)) name_genders title_name in
  map (fun e => (fst e, title_decision (snd e))) name_genders.

(** *** The pronoun estimator (lines 109-201) *)

Definition male_pronouns : list string := ["he"; "his"; "him"; "himself"].
Definition female_pronouns : list string := ["she"; "her"; "hers"; "herself"].

(** Lines 156-177. The two one-token patterns match a token by its
    lower-cased text; the result lists the matched tokens of the sentence. *)
Definition _match_pronouns (sent : sentence) : list string :=
  List.filter
    (fun tok => str_in (lower tok) male_pronouns || str_in (lower tok) female_pronouns)
    sent.

(** Lines 141-145, the inner [while]. [fuel] bounds the number of
    iterations; the guard fails before [length token_idxes] of them. *)
Fixpoint scan_sentence (fuel : nat) (token_idxes : list Z) (sent : sentence)
    (start end_ i token_idx : Z) (mentions : list string)
  : result (Z * list string) :=
  if (start <=? token_idx) && (token_idx <? end_)
     && (i <? Z.of_nat (length token_idxes) - 1) then
    match fuel with
    | O => Ok (i, mentions)
    | S fuel' =>
        let pronouns := _match_pronouns sent in
        let mentions := mentions ++ pronouns in
        let i := i + 1 in
        token_idx <- py_index token_idxes i ;;
        scan_sentence fuel' token_idxes sent start end_ i token_idx mentions
    end
  else Ok (i, mentions).

(** Lines 115-150, the outer [while] over the sentence index [j]. *)
Fixpoint scan_sentences (fuel : nat) (sents : list sentence) (token_idxes : list Z)
    (j start end_ i : Z) (mentions : list string) : result (list string) :=
  if j <? Z.of_nat (length sents) - 1 then
    match fuel with
    | O => Ok mentions
    | S fuel' =>
        token_idx <- py_index token_idxes i ;;
        start <- (if 0 <? j
                  then prev <- py_index sents (j - 1) ;;
                       Ok (start + Z.of_nat (length prev))
                  else Ok start) ;;
        sent <- py_index sents j ;;
        let end_ := end_ + Z.of_nat (length sent) in
        r <- scan_sentence (length token_idxes) token_idxes sent
               start end_ i token_idx mentions ;;
        let '(i, mentions) := r in
        scan_sentences fuel' sents token_idxes (j + 1) start end_ i mentions
    end
  else Ok mentions.

(** Lines 109-154. *)
Definition _find_pronouns (self : t) (token_idxes : list Z) : result (list string) :=
  let sents := Doc.sents (doc self) in
  scan_sentences (length sents) sents token_idxes 0 0 0 0 [].

(** Lines 188-192, one step of the tally. *)
Definition tally_pronoun (acc : Z * Z) (pron : string) : Z * Z :=
  let '(male, female) := acc in
  if str_in (lower pron) male_pronouns then (male + 1, female)
  else if str_in (lower pron) female_pronouns then (male, female + 1)
  else (male, female).

(** Lines 179-201. *)
Definition _assign_gender_by_pronouns (pronouns : list string) : Gender :=
  let '(male, female) := foldl tally_pronoun (0, 0) pronouns in
  let gender := UNKNOWN in
  if female <? male then MALE
  else if male <? female then FEMALE
  else if female =? male then UNKNOWN
  else gender.

(** *** The name-list estimator (lines 74-90) *)

(** [get_namelists] stands for [make_dataset.get_namelists()]: the male
    and the female names. *)
Definition _annotate_gender_by_names (get_namelists : list string * list string)
    (self : t) : Dict.t Gender :=
  let '(male_names, female_names) := get_namelists in
  let names := Dict.keys (chars self) in
  let name_genders := [] in
  foldl (fun name_genders name =>
           if str_in name male_names then Dict.set name_genders name MALE
           else if str_in name female_names then Dict.set name_genders name FEMALE
           else Dict.set name_genders name UNKNOWN)
    name_genders names.

(** *** The pronoun estimator on a whole store (lines 92-107) *)

(** [subscript c i] stands for [c[i]] on an entity of the store, which the
    class [Character] decides. *)
Definition _annotate_gender_by_pronouns
    (subscript : Character.t -> Z -> result (list Z)) (self : t)
  : result (Dict.t Gender) :=
  let names := Dict.keys (chars self) in
  for_each (fun name_genders name =>
              c <- Dict.get (chars self) name ;;
              spans <- subscript c 1 ;;
              pronouns <- _find_pronouns self spans ;;
              let gender := _assign_gender_by_pronouns pronouns in
              Ok (Dict.set name_genders name gender))
    names [].

End GenderAnnotation.

(** ** Class [CharacterIdentification] (character_identification.py) *)

Module CharacterIdentification.

(** The instance: the parsed document and [self.chars], which is [None]
    until [detect_characters] has run. *)
Record t : Type := mk { doc : Doc.t; chars : option (Dict.t Character.t) }.

(** [str(x)] inside an f-string, for a value that is a string or [None]. *)
Definition py_str (o : option string) : string :=
  match o with Some s => s | None => "None" end.

(** [x in titles] for a value that is a string or [None]. *)
Definition in_titles (o : option string) (titles : gset string) : bool :=
  match o with Some s => bool_decide (s ∈ titles) | None => false end.

(** Lines 71-82: the key under which a PERSON span is stored. *)
Definition canonical_name (titles : gset string) (doc : Doc.t) (ent : Span.t)
  : result string :=
  let name := Span.text ent in
  r <- (if 0 <=? Span.start ent - 1 then
          title <- py_index (Doc.tokens doc) (Span.start ent - 1) ;;
          Ok (Some title, Some (remove_periods title))
        else Ok (None, None)) ;;
  let '(title, title_w_o_period) := r in
  if in_titles title_w_o_period titles
  then Ok (py_str title +:+ " " +:+ name)
  else Ok name.

Section Detection.

(** The name parser behind [Character(name)]. *)
Variable parse_name : string -> NameParsed.t.
(** [make_dataset.get_titles()]: the female and the male titles. *)
Variable get_titles : gset string * gset string.

(** Lines 62-89, the body of the loop over [self.doc.ents]. *)
Definition detect_step (titles : gset string) (doc : Doc.t)
    (chars : Dict.t Character.t) (ent : Span.t) : result (Dict.t Character.t) :=
  if String.eqb (Span.label_ ent) "PERSON" then
    name <- canonical_name titles doc ent ;;
    let chars :=
      if negb (Dict.mem chars name)
      then Dict.set chars name (Character.init parse_name name)
      else chars in
    Dict.update (Character.append_occurences (Span.start ent)) chars name
  else Ok chars.

(** Lines 53-91. The method stores the mapping in [self.chars] and
    returns it. *)
Definition detect_characters (self : t) : result (t * Dict.t Character.t) :=
  let chars := [] in
  let '(female_titles, male_titles) := get_titles in
  let titles := female_titles ∪ male_titles in
  chars <- for_each (detect_step titles (doc self)) (Doc.ents (doc self)) chars ;;
  Ok ({| doc := doc self; chars := Some chars |}, chars).

End Detection.

(** Lines 129-153, the body of the loop over the names. *)
Definition fuse_step
    (name_genders_title name_genders_name name_genders_pronoun : Dict.t Gender)
    (chars : Dict.t Character.t) (name : string) : result (Dict.t Character.t) :=
  gender_t <- Dict.get name_genders_title name ;;
  gender_n <- Dict.get name_genders_name name ;;
  gender_p <- Dict.get name_genders_pronoun name ;;
  let genders := [gender_t; gender_n] in
  let size := Z.of_nat (length genders) in
  let size := size - count UNKNOWN genders in
  if size =? 0 then
    Dict.update (Character.update_gender gender_p) chars name
  else if count FEMALE genders =? size then
    Dict.update (Character.update_gender FEMALE) chars name
  else if count MALE genders =? size then
    Dict.update (Character.update_gender MALE) chars name
  else
    Dict.update (Character.update_gender gender_p) chars name.

(** Lines 129-154. *)
Definition fuse_genders
    (name_genders_title name_genders_name name_genders_pronoun : Dict.t Gender)
    (chars : Dict.t Character.t) : result (Dict.t Character.t) :=
  for_each (fuse_step name_genders_title name_genders_name name_genders_pronoun)
    (Dict.keys chars) chars.

Section Annotation.

(** What each method of the [GenderAnnotation] class body computes when
    it is called without arguments. *)
Variable method_body : string -> GenderAnnotation.t -> result (Dict.t Gender).

(** Lines 96-154. *)
Definition annotate_gender (self : t) : result (t * Dict.t Character.t) :=
  match chars self with
  | None => Raise ValueError
  | Some chars =>
      let ga := GenderAnnotation.mk (doc self) chars in
      name_genders_title <-
        GenderAnnotation.call method_body ga "annotate_gender_by_titles_simple" ;;
      name_genders_name <-
        GenderAnnotation.call method_body ga "annotate_gender_by_names" ;;
      name_genders_pronoun <-
        GenderAnnotation.call method_body ga "annotate_gender_by_pronouns" ;;
      chars <- fuse_genders name_genders_title name_genders_name
                 name_genders_pronoun chars ;;
      Ok ({| doc := doc self; chars := Some chars |}, chars)
  end.

End Annotation.

(** Lines 156-165. The arguments are the [gender] attributes of two
    entities. *)
Definition _gender_unmatch (gender1 gender2 : option Gender) : bool :=
  let genders := [gender1; gender2] in
  if 1 <=? count (Some UNKNOWN) genders then false
  else if (count (Some FEMALE) genders =? 2) || (count (Some MALE) genders =? 2)
  then false
  else true.

(** [title1 != '' and title2 != '' and title1 != title2] (lines 209, 278). *)
Definition title_unmatch (title1 title2 : string) : bool :=
  (negb (String.eqb title1 "") && negb (String.eqb title2 ""))
  && negb (String.eqb title1 title2).

(** Lines 182-193: the candidate referents of each name that are keys of
    the store. *)
Definition present_referents (chars : Dict.t Character.t)
    (referents : Dict.t (list string)) : Dict.t (gset string) :=
  let chars_all : gset string := list_to_set (Dict.keys chars) in
  foldl (fun same_chars e =>
           let '(name, ref) := e in
           let chars_potential : gset string := list_to_set ref in
           let chars_present := chars_all ∩ chars_potential in
           Dict.set same_chars name chars_present)
    [] referents.

(** Lines 199-210, the body of the loop over the referents of [name]. *)
Definition check_pair (chars : Dict.t Character.t) (name : string)
    (gender1 : option Gender) (to_remove : list (string * string)) (ref : string)
  : result (list (string * string)) :=
  c2 <- Dict.get chars ref ;;
  let gender2 := Character.gender c2 in
  let to_remove :=
    if _gender_unmatch gender1 gender2 then to_remove ++ [(name, ref)]
    else to_remove in
  c1 <- Dict.get chars name ;;
  let title1 := NameParsed.title (Character.name_parsed c1) in
  c2 <- Dict.get chars ref ;;
  let title2 := NameParsed.title (Character.name_parsed c2) in
  if title_unmatch title1 title2 then Ok (to_remove ++ [(name, ref)])
  else Ok to_remove.

(** Lines 196-210. A set is iterated in the order of [elements]. *)
Definition inconsistent_pairs (chars : Dict.t Character.t)
    (same_chars : Dict.t (gset string)) : result (list (string * string)) :=
  for_each (fun to_remove e =>
              let '(name, refs) := e in
              c1 <- Dict.get chars name ;;
              let gender1 := Character.gender c1 in
              for_each (check_pair chars name gender1) (elements refs) to_remove)
    same_chars [].

(** Lines 212-213. *)
Definition discard_pairs (same_chars : Dict.t (gset string))
    (to_remove : list (string * string)) : Dict.t (gset string) :=
  foldl (fun same_chars e =>
           let '(name, ref) := e in
           Dict.modify (fun refs => refs ∖ {[ ref ]}) same_chars name)
    same_chars to_remove.

(** Lines 218-221. *)
Definition claimants_by_referent (same_chars : Dict.t (gset string))
  : Dict.t (list string) :=
  foldl (fun repeated_referents e =>
           let '(name, refs) := e in
           foldl (fun repeated_referents ref =>
                    Dict.append repeated_referents ref name)
             repeated_referents (elements refs))
    [] same_chars.

(** Lines 224-229. *)
Definition drop_unrepeated (repeated_referents : Dict.t (list string))
  : Dict.t (list string) :=
  let to_remove :=
    foldl (fun to_remove e =>
             let '(ref, repeat) := e in
             if Z.of_nat (length repeat) <=? 1 then to_remove ++ [ref]
             else to_remove)
      [] repeated_referents in
  foldl Dict.pop repeated_referents to_remove.

(** Lines 242-249 and 289-296, the body of the loop that looks for the name
    with the most occurrences. *)
Definition max_step (chars : Dict.t Character.t) (acc : string * Z) (name : string)
  : result (string * Z) :=
  let '(max_name, max_occurences) := acc in
  c <- Dict.get chars name ;;
  let occ := Z.of_nat (length (Character.occurences c)) in
  if max_occurences <? occ then Ok (name, occ) else Ok (max_name, max_occurences).

Definition most_frequent (chars : Dict.t Character.t) (names : list string)
  : result string :=
  max_name <- py_index names 0 ;;
  r <- for_each (max_step chars) names (max_name, 0) ;;
  Ok (fst r).

(** Lines 255-283, the body of the loop over [charlist[i+1:]]. *)
Definition correspond_pair (chars : Dict.t Character.t) (char1 : string)
    (first1 last1 title1 : string) (correnspondence : Dict.t (list string))
    (char2 : string) : result (Dict.t (list string)) :=
  c2 <- Dict.get chars char2 ;;
  let first2 := NameParsed.first (Character.name_parsed c2) in
  let last2 := NameParsed.last (Character.name_parsed c2) in
  let title2 := NameParsed.title (Character.name_parsed c2) in
  let l2 := [first2; last2; title2] in
  if 2 <=? count "" l2 then Ok correnspondence
  else
    c1 <- Dict.get chars char1 ;;
    c2 <- Dict.get chars char2 ;;
    if negb (bool_decide (Character.gender c1 = Character.gender c2))
    then Ok correnspondence
    else if title_unmatch title1 title2 then Ok correnspondence
    else if String.eqb first1 first2 || String.eqb last1 last2 then
      Ok (Dict.append (Dict.append correnspondence char1 char2) char2 char1)
    else Ok correnspondence.

(** Lines 255-283. *)
Definition correspondences (chars : Dict.t Character.t)
  : result (Dict.t (list string)) :=
  let charlist := Dict.keys chars in
  for_each (fun correnspondence e =>
              let '(i, char1) := e in
              c1 <- Dict.get chars char1 ;;
              let first1 := NameParsed.first (Character.name_parsed c1) in
              let last1 := NameParsed.last (Character.name_parsed c1) in
              let title1 := NameParsed.title (Character.name_parsed c1) in
              let l1 := [first1; last1; title1] in
              if 2 <=? count "" l1 then Ok correnspondence
              else for_each (correspond_pair chars char1 first1 last1 title1)
                     (drop (i + 1) charlist) correnspondence)
    (imap (fun i char1 => (i, char1)) (removelast charlist)) [].

Section Unions.

(** The three loops that feed the disjoint-set structure use it through
    [unite] alone; they are written over any such operation. *)
Context {G : Type} (unite : G -> string -> string -> result G).

(** Lines 233-238. *)
Definition unite_uncontested (same_chars : Dict.t (gset string))
    (repeated_referents : Dict.t (list string)) (char_groups : G) : result G :=
  for_each (fun char_groups e =>
              let '(name, refs) := e in
              for_each (fun char_groups ref =>
                          if str_in ref (Dict.keys repeated_referents)
                          then Ok char_groups
                          else unite char_groups name ref)
                (elements refs) char_groups)
    same_chars char_groups.

(** Lines 241-250 and lines 288-297: the same loop, over
    [repeated_referents] and over [correnspondence]. *)
Definition unite_most_frequent (chars : Dict.t Character.t)
    (d : Dict.t (list string)) (char_groups : G) : result G :=
  for_each (fun char_groups e =>
              let '(ref, names) := e in
              max_name <- most_frequent chars names ;;
              unite char_groups ref max_name)
    d char_groups.

End Unions.

Section Unification.

(** [OccurenceUnification(chars).unify_referents()]: for each name the
    name strings proposed as its referents. *)
Variable unify_referents : Dict.t Character.t -> Dict.t (list string).

(** Lines 167-299. *)
Definition unify_occurences (self : t) : result (list (gset string)) :=
  match chars self with
  | None => Raise ValueError
  | Some chars =>
      let referents := unify_referents chars in
      let same_chars := present_referents chars referents in
      to_remove <- inconsistent_pairs chars same_chars ;;
      let same_chars := discard_pairs same_chars to_remove in
      let repeated_referents :=
        drop_unrepeated (claimants_by_referent same_chars) in
      let char_groups := CharacterGrouping.init (Dict.keys chars) in
      char_groups <- unite_uncontested CharacterGrouping.unite
                       same_chars repeated_referents char_groups ;;
      char_groups <- unite_most_frequent CharacterGrouping.unite
                       chars repeated_referents char_groups ;;
      correnspondence <- correspondences chars ;;
      char_groups <- unite_most_frequent CharacterGrouping.unite
                       chars correnspondence char_groups ;;
      Ok (CharacterGrouping.groups char_groups)
  end.

End Unification.

(** A [unite] that only records the pair it is called on: the list of the
    unions a loop asks for, in order. *)
Definition record_unite (calls : list (string * string)) (a b : string)
  : result (list (string * string)) :=
  Ok (calls ++ [(a, b)]).

End CharacterIdentification.

(** * Notions the properties are stated with *)

(** The exceptions a computation may end in. *)
Definition raises_within {A : Type} (E : exn -> Prop) (r : result A) : Prop :=
  match r with Ok _ => True | Raise e => E e end.

(** The gender the fusion loop writes, by the results of the title and the
    name-list estimators: their common value when they agree on MALE or on
    FEMALE, the value of the one that is not UNKNOWN when the other is, and
    the pronoun result when both are UNKNOWN or one is MALE and the other
    FEMALE. *)
Definition fused (gender_t gender_n gender_p : Gender) : Gender :=
  match gender_t, gender_n with
  | MALE, MALE => MALE
  | FEMALE, FEMALE => FEMALE
  | UNKNOWN, UNKNOWN => gender_p
  | MALE, FEMALE | FEMALE, MALE => gender_p
  | UNKNOWN, g | g, UNKNOWN => g
  end.

(** The gender stored under [name] once the fusion loop has run. *)
Definition final_gender (name_genders_title name_genders_name name_genders_pronoun : Dict.t Gender)
    (chars : Dict.t Character.t) (name : string) : option Gender :=
  match CharacterIdentification.fuse_genders
          name_genders_title name_genders_name name_genders_pronoun chars with
  | Ok chars' =>
      match Dict.find chars' name with
      | Some c => Character.gender c
      | None => None
      end
  | Raise _ => None
  end.

(** The gender the fusion loop is to write under a name. *)
Definition target (t n p : Dict.t Gender) (name : string) : option Gender :=
  match Dict.find t name, Dict.find n name, Dict.find p name with
  | Some gt, Some gn, Some gp => Some (fused gt gn gp)
  | _, _, _ => None
  end.

(** A store with one entity, for the examples. *)
Definition mary : Character.t :=
  Character.mk "Mary" (NameParsed.mk "" "Mary" "") None [0].

(** Two documents for the pronoun estimator: one sentence with a pronoun,
    alone and followed by a second sentence. *)
Definition holmes_one_sentence : GenderAnnotation.t :=
  GenderAnnotation.mk
    (Doc.mk ["Holmes"; "lit"; "his"; "pipe"; "."] []
       [["Holmes"; "lit"; "his"; "pipe"; "."]])
    [].

Definition holmes_two_sentences : GenderAnnotation.t :=
  GenderAnnotation.mk
    (Doc.mk ["Holmes"; "lit"; "his"; "pipe"; "."; "It"; "glowed"; "."] []
       [["Holmes"; "lit"; "his"; "pipe"; "."]; ["It"; "glowed"; "."]])
    [].

(** The token before a span is a title: the span does not start the document
    and that token, with its periods removed, is in the title set. *)
Definition title_before (titles : gset string) (d : Doc.t) (ent : Span.t)
    (prev : string) : Prop :=
  Span.start ent <> 0
  /\ Doc.tokens d !! Z.to_nat (Span.start ent - 1) = Some prev
  /\ remove_periods prev ∈ titles.

(** The spans lie in the document. *)
Definition spans_in_doc (d : Doc.t) : Prop :=
  forall ent, ent ∈ Doc.ents d ->
    0 <= Span.start ent <= Z.of_nat (length (Doc.tokens d)).

(** Every entity of a store has been sighted. *)
Definition all_sighted (chars : Dict.t Character.t) : Prop :=
  forall name c, (name, c) ∈ chars -> Character.occurences c <> [].

(** A document with a titled name, a name at token 0 and a repeated name. *)
Definition hudson_doc : Doc.t :=
  Doc.mk ["Holmes"; "met"; "Mrs."; "Hudson"; "and"; "Holmes"; "."]
    [Span.mk "PERSON" "Holmes" 0; Span.mk "PERSON" "Hudson" 3;
     Span.mk "PERSON" "Holmes" 5]
    [["Holmes"; "met"; "Mrs."; "Hudson"; "and"; "Holmes"; "."]].

Definition hudson_titles : gset string * gset string :=
  ({[ "Mrs"; "Miss" ]}, {[ "Mr" ]}).

(** A name parser for the examples: a leading "Mr." or "Mrs." is the title
    and the single word after it the last name; two words are a first and a
    last name; any other name is a first name. *)
Definition example_parse (name : string) : NameParsed.t :=
  if String.eqb name "Mrs. Hudson" then NameParsed.mk "Mrs." "" "Hudson"
  else if String.eqb name "Mr. Holmes" then NameParsed.mk "Mr." "" "Holmes"
  else if String.eqb name "Sherlock Holmes" then NameParsed.mk "" "Sherlock" "Holmes"
  else if String.eqb name "Mycroft Holmes" then NameParsed.mk "" "Mycroft" "Holmes"
  else NameParsed.mk "" name "".

(** [ref] is a candidate referent of [name] in a candidate map. *)
Definition claims (same_chars : Dict.t (gset string)) (name ref : string) : Prop :=
  exists refs, Dict.find same_chars name = Some refs /\ ref ∈ refs.

(** Both genders are known and they differ. *)
Definition gender_conflict (c1 c2 : Character.t) : Prop :=
  exists g1 g2,
    Character.gender c1 = Some g1 /\ Character.gender c2 = Some g2
    /\ g1 <> UNKNOWN /\ g2 <> UNKNOWN /\ g1 <> g2.

(** Both parsed titles are non-empty and they differ. *)
Definition title_conflict (c1 c2 : Character.t) : Prop :=
  let title1 := NameParsed.title (Character.name_parsed c1) in
  let title2 := NameParsed.title (Character.name_parsed c2) in
  title1 <> "" /\ title2 <> "" /\ title1 <> title2.

(** Every entity of the store carries a gender. *)
Definition annotated (chars : Dict.t Character.t) : Prop :=
  forall name c, (name, c) ∈ chars -> is_Some (Character.gender c).

(** What the constraint filter tests on a pair of entities. *)
Definition inconsistent (c1 c2 : Character.t) : bool :=
  CharacterIdentification._gender_unmatch (Character.gender c1) (Character.gender c2)
  || CharacterIdentification.title_unmatch
       (NameParsed.title (Character.name_parsed c1))
       (NameParsed.title (Character.name_parsed c2)).

(** The pairs the constraint filter is to drop from a candidate map. *)
Definition to_drop (chars : Dict.t Character.t) (same_chars : Dict.t (gset string))
    (pair : string * string) : Prop :=
  exists refs c1 c2,
    (pair.1, refs) ∈ same_chars /\ pair.2 ∈ refs
    /\ Dict.find chars pair.1 = Some c1 /\ Dict.find chars pair.2 = Some c2
    /\ inconsistent c1 c2 = true.

(** A store after annotation, for the examples: a name with a male title, two
    full names seen five times and twice, a bare surname of unknown gender and
    a name with a female title. *)
Definition holmes_store : Dict.t Character.t :=
  [("Mr. Holmes", Character.mk "Mr. Holmes" (NameParsed.mk "Mr." "" "Holmes")
                    (Some MALE) [0]);
   ("Sherlock Holmes", Character.mk "Sherlock Holmes"
                         (NameParsed.mk "" "Sherlock" "Holmes") (Some MALE)
                         [3; 10; 17; 25; 31]);
   ("Mycroft Holmes", Character.mk "Mycroft Holmes"
                        (NameParsed.mk "" "Mycroft" "Holmes") (Some MALE) [7; 21]);
   ("Holmes", Character.mk "Holmes" (NameParsed.mk "" "Holmes" "") (Some UNKNOWN) [13]);
   ("Mrs. Hudson", Character.mk "Mrs. Hudson" (NameParsed.mk "Mrs." "" "Hudson")
                     (Some FEMALE) [28])].

(** A candidate map over that store. *)
Definition holmes_candidates : Dict.t (gset string) :=
  [("Mr. Holmes", {[ "Holmes"; "Mrs. Hudson" ]});
   ("Sherlock Holmes", {[ "Holmes" ]});
   ("Mycroft Holmes", {[ "Holmes" ]})].

(** The names that claim [ref] in a candidate map, in the order of the map. *)
Definition claimants (same_chars : Dict.t (gset string)) (ref : string) : list string :=
  map fst (filter (fun e => ref ∈ e.2) same_chars).

(** A dictionary of lists as a [defaultdict(list)] builds it: its keys are
    distinct and no key is bound to the empty list. *)
Definition proper {V : Type} (d : Dict.t (list V)) : Prop :=
  NoDup (Dict.keys d) /\ forall k l, (k, l) ∈ d -> l <> [].

(** The number of occurrences of a name of the store. *)
Definition occurrence_count (chars : Dict.t Character.t) (name : string) : Z :=
  match Dict.find chars name with
  | Some c => Z.of_nat (length (Character.occurences c))
  | None => 0
  end.

(** [m] is the first element of [names] on which [f] is greatest: every
    element before it is strictly below, every element after it is not above. *)
Definition first_max (f : string -> Z) (names : list string) (m : string) : Prop :=
  exists pre post,
    names = pre ++ m :: post
    /\ Forall (fun n => f n < f m) pre
    /\ Forall (fun n => f n <= f m) post.

(** Two claimants of one referent, for the examples. *)
Definition holmes_claims : Dict.t (gset string) :=
  [("Mycroft Holmes", {[ "Holmes" ]}); ("Sherlock Holmes", {[ "Holmes" ]});
   ("Mr. Holmes", {[ "Mrs. Hudson" ]})].

(** The number of empty fields among the first name, the last name and the
    title of an entity. *)
Definition empty_fields (c : Character.t) : Z :=
  count "" [NameParsed.first (Character.name_parsed c);
            NameParsed.last (Character.name_parsed c);
            NameParsed.title (Character.name_parsed c)].

(** Two names of the store correspond: each has fewer than two empty fields,
    the genders are equal as values, the titles do not conflict, and the first
    names are equal or the last names are equal. *)
Definition corresponds (chars : Dict.t Character.t) (a b : string) : Prop :=
  exists c1 c2,
    Dict.find chars a = Some c1 /\ Dict.find chars b = Some c2
    /\ empty_fields c1 < 2 /\ empty_fields c2 < 2
    /\ Character.gender c1 = Character.gender c2
    /\ ~ title_conflict c1 c2
    /\ (NameParsed.first (Character.name_parsed c1)
          = NameParsed.first (Character.name_parsed c2)
        \/ NameParsed.last (Character.name_parsed c1)
             = NameParsed.last (Character.name_parsed c2)).

(** The test of lines 263-281 on two entities. *)
Definition corresponds_b (c1 c2 : Character.t) : bool :=
  negb (2 <=? empty_fields c1) && negb (2 <=? empty_fields c2)
  && bool_decide (Character.gender c1 = Character.gender c2)
  && negb (CharacterIdentification.title_unmatch
             (NameParsed.title (Character.name_parsed c1))
             (NameParsed.title (Character.name_parsed c2)))
  && (String.eqb (NameParsed.first (Character.name_parsed c1))
        (NameParsed.first (Character.name_parsed c2))
      || String.eqb (NameParsed.last (Character.name_parsed c1))
           (NameParsed.last (Character.name_parsed c2))).

Definition pair_corresponds (chars : Dict.t Character.t) (a b : string) : bool :=
  match Dict.find chars a, Dict.find chars b with
  | Some c1, Some c2 => corresponds_b c1 c2
  | _, _ => false
  end.

(** The names of the store that correspond to [a], in the order of the
    store. *)
Definition correspondents (chars : Dict.t Character.t) (a : string) : list string :=
  List.filter (fun b => negb (String.eqb b a) && pair_corresponds chars a b)
    (Dict.keys chars).

(** The pairs of a list, the first component before the second, in the order
    the two nested loops of lines 258-266 visit them. *)
Fixpoint ordered_pairs {A : Type} (l : list A) : list (A * A) :=
  match l with
  | [] => []
  | x :: l' => map (pair x) l' ++ ordered_pairs l'
  end.

(** What lines 281-283 do for one visited pair. *)
Definition record_pair (chars : Dict.t Character.t)
    (correnspondence : Dict.t (list string)) (p : string * string)
  : Dict.t (list string) :=
  if pair_corresponds chars p.1 p.2
  then Dict.append (Dict.append correnspondence p.1 p.2) p.2 p.1
  else correnspondence.

(** What lines 281-283 add to the list of [x] for one visited pair. *)
Definition recorded_for (chars : Dict.t Character.t) (x : string)
    (p : string * string) : list string :=
  if pair_corresponds chars p.1 p.2
  then (if String.eqb p.1 x then [p.2] else [])
       ++ (if String.eqb p.2 x then [p.1] else [])
  else [].

(** Three names with the same first name; the second and the third are seen
    as often as each other, and more often than the first. *)
Definition ann_store : Dict.t Character.t :=
  [("Ann Smith", Character.mk "Ann Smith" (NameParsed.mk "" "Ann" "Smith")
                   (Some FEMALE) [0]);
   ("Ann Jones", Character.mk "Ann Jones" (NameParsed.mk "" "Ann" "Jones")
                   (Some FEMALE) [3; 9]);
   ("Ann Brown", Character.mk "Ann Brown" (NameParsed.mk "" "Ann" "Brown")
                   (Some FEMALE) [5; 12])].

(** Every name of [names] lies in a group of the structure. *)
Definition covers (names : list string) (cg : CharacterGrouping.t) : Prop :=
  forall n, n ∈ names -> exists g, g ∈ cg /\ n ∈ g.

(** No gender has been written on the entities of the object. *)
Definition unannotated (self : CharacterIdentification.t) : Prop :=
  forall chars name c,
    CharacterIdentification.chars self = Some chars ->
    (name, c) ∈ chars -> Character.gender c = None.

(** The object once [detect_characters] has run on the example document, and
    nothing else. *)
Definition detected_only : CharacterIdentification.t :=
  Eval vm_compute in
    match CharacterIdentification.detect_characters example_parse hudson_titles
            (CharacterIdentification.mk hudson_doc None) with
    | Ok (self, _) => self
    | Raise _ => CharacterIdentification.mk hudson_doc None
    end.

(** A referent generator for the examples. *)
Definition example_referents (chars : Dict.t Character.t) : Dict.t (list string) :=
  [("Holmes", ["Mrs. Hudson"; "Watson"]); ("Mrs. Hudson", ["Holmes"])].

(** Two names with the same last name, one of unknown gender and one male. *)
Definition unknown_and_male : Dict.t Character.t :=
  [("Mr. Holmes", Character.mk "Mr. Holmes" (NameParsed.mk "Mr." "" "Holmes")
                    (Some UNKNOWN) [0]);
   ("Sherlock Holmes", Character.mk "Sherlock Holmes"
                         (NameParsed.mk "" "Sherlock" "Holmes") (Some MALE) [3])].

(** A token is one of the male, or of the female, pronouns, whatever its
    case. *)
Definition is_male_pronoun (tok : string) : bool :=
  str_in (lower tok) GenderAnnotation.male_pronouns.

Definition is_female_pronoun (tok : string) : bool :=
  str_in (lower tok) GenderAnnotation.female_pronouns.

Definition male_count (l : list string) : Z :=
  Z.of_nat (length (List.filter is_male_pronoun l)).

Definition female_count (l : list string) : Z :=
  Z.of_nat (length (List.filter is_female_pronoun l)).

(** The vote a title token casts, and the votes the matches of a document
    cast for a name, in the order of the matches. *)
Definition vote_of (title : string) : list Gender :=
  if str_in (lower title) GenderAnnotation.female_titles then [FEMALE]
  else if str_in (lower title) GenderAnnotation.male_titles then [MALE]
  else [].

Definition votes_for (name : string) (title_name : list (string * string))
  : list Gender :=
  flat_map (fun m => if String.eqb (snd m) name then vote_of (fst m) else [])
    title_name.

(** [c[1]] read as the occurrence list of the entity. *)
Definition occurrences_subscript (c : Character.t) (i : Z) : result (list Z) :=
  if i =? 1 then Ok (Character.occurences c) else Raise IndexError.

(** A store before annotation, for the examples. *)
Definition hudson_store : Dict.t Character.t :=
  [("Holmes", Character.mk "Holmes" (NameParsed.mk "" "Holmes" "") None [0; 5]);
   ("Mrs. Hudson", Character.mk "Mrs. Hudson" (NameParsed.mk "Mrs." "" "Hudson")
                     None [3])].

(** The key of a span, written out: the preceding token, a space and the
    span text when the span does not start the document and the preceding
    token without its periods is a title; the span text otherwise. *)
Definition span_key (titles : gset string) (d : Doc.t) (ent : Span.t) : string :=
  if Span.start ent =? 0 then Span.text ent
  else match Doc.tokens d !! Z.to_nat (Span.start ent - 1) with
       | Some prev =>
           if bool_decide (remove_periods prev ∈ titles)
           then prev +:+ " " +:+ Span.text ent
           else Span.text ent
       | None => Span.text ent
       end.

(** The starts of the PERSON spans of a list that have a given key, in the
    order of the list. *)
Definition sightings (titles : gset string) (d : Doc.t) (ents : list Span.t)
    (name : string) : list Z :=
  map Span.start
    (List.filter (fun ent => String.eqb (Span.label_ ent) "PERSON"
                             && String.eqb (span_key titles d ent) name)
       ents).

(** The names of a store have a result from each of the three estimators. *)
Definition estimated (t n p : Dict.t Gender) (chars : Dict.t Character.t) : Prop :=
  forall k, k ∈ Dict.keys chars ->
    k ∈ Dict.keys t /\ k ∈ Dict.keys n /\ k ∈ Dict.keys p.

(** The entity found under a name after a run of the detection loop, from
    the entity found before it and the sightings of the run. *)
Definition sighted (parse_name : string -> NameParsed.t)
    (before : option Character.t) (name : string) (occ : list Z)
  : option Character.t :=
  match before with
  | Some c =>
      Some (Character.mk (Character.name c) (Character.name_parsed c)
              (Character.gender c) (Character.occurences c ++ occ))
  | None =>
      match occ with
      | [] => None
      | _ => Some (Character.mk name (parse_name name) None occ)
      end
  end.

(** A candidate map over the Holmes store in which names are candidate
    referents of each other. *)
Definition mutual_candidates : Dict.t (gset string) :=
  [("Sherlock Holmes", {[ "Holmes"; "Mrs. Hudson" ]});
   ("Holmes", {[ "Sherlock Holmes" ]});
   ("Mrs. Hudson", {[ "Sherlock Holmes" ]})].

(** A candidate map over the store before annotation. *)
Definition hudson_candidates : Dict.t (gset string) :=
  [("Holmes", {[ "Mrs. Hudson" ]})].

(** Two names made of the same title and a last name. *)
Definition two_misters : Dict.t Character.t :=
  [("Mr. Holmes", Character.mk "Mr. Holmes" (NameParsed.mk "Mr." "" "Holmes")
                    (Some MALE) [0; 9]);
   ("Mr. Watson", Character.mk "Mr. Watson" (NameParsed.mk "Mr." "" "Watson")
                    (Some MALE) [4])].

(** * Properties *)

(** ** The error monad and its loops *)

Lemma bind_Ok_inv {A B : Type} (m : result A) (k : A -> result B) (b : B) :
  bind m k = Ok b -> exists a, m = Ok a /\ k a = Ok b.
Proof. destruct m as [a|e]; simpl; [eauto | discriminate]. Qed.

Lemma for_each_app {A S : Type} (body : S -> A -> result S) (xs ys : list A) (s : S) :
  for_each body (xs ++ ys) s = bind (for_each body xs s) (for_each body ys).
Proof.
  revert s. induction xs as [|x xs IH]; intros s; simpl; [done|].
  destruct (body s x) as [s'|e]; simpl; [apply IH | done].
Qed.

(** A loop whose body keeps an invariant and cannot raise under it returns
    a state that satisfies the invariant. *)
Lemma for_each_total {A S : Type} (P : S -> Prop) (body : S -> A -> result S)
    (xs : list A) (s : S) :
  P s ->
  (forall s x, x ∈ xs -> P s -> exists s', body s x = Ok s' /\ P s') ->
  exists s', for_each body xs s = Ok s' /\ P s'.
Proof.
  revert s. induction xs as [|x xs IH]; intros s Hs Hbody; simpl; [eauto|].
  destruct (Hbody s x) as (s1 & -> & Hs1); [left | done |]. simpl.
  apply IH; [done|]. intros s2 y Hy. apply Hbody. by right.
Qed.

(** A loop with a pure body is a left fold. *)
Lemma for_each_pure {A S : Type} (f : S -> A -> S) (body : S -> A -> result S)
    (xs : list A) (s : S) :
  (forall s x, x ∈ xs -> body s x = Ok (f s x)) ->
  for_each body xs s = Ok (foldl f s xs).
Proof.
  revert s. induction xs as [|x xs IH]; intros s Hbody; simpl; [done|].
  rewrite Hbody by left. simpl. apply IH. intros s' y Hy. apply Hbody. by right.
Qed.

Lemma raises_within_bind {A B : Type} (E : exn -> Prop) (m : result A)
    (k : A -> result B) :
  raises_within E m -> (forall a, m = Ok a -> raises_within E (k a)) ->
  raises_within E (bind m k).
Proof. destruct m as [a|e]; simpl; [intros _ H; by apply H | done]. Qed.

Lemma raises_within_for_each {A S : Type} (E : exn -> Prop)
    (body : S -> A -> result S) (xs : list A) (s : S) :
  (forall s x, x ∈ xs -> raises_within E (body s x)) ->
  raises_within E (for_each body xs s).
Proof.
  revert s. induction xs as [|x xs IH]; intros s Hbody; simpl; [done|].
  apply raises_within_bind; [apply Hbody; left|].
  intros s' _. apply IH. intros s2 y Hy. apply Hbody. by right.
Qed.

(** ** Dictionaries *)

Lemma str_in_spec (x : string) (l : list string) : str_in x l = true <-> x ∈ l.
Proof.
  unfold str_in. rewrite existsb_exists. split.
  - intros (y & Hy & Heq). apply String.eqb_eq in Heq. subst.
    by apply list_elem_of_In.
  - intros H. exists x. split; [by apply list_elem_of_In | apply String.eqb_refl].
Qed.

Module DictFacts.
Import Dict.

Section Facts.
Context {V : Type}.
Implicit Types (d : Dict.t V) (k : string) (v : V).

Lemma find_Some_In d k v : find d k = Some v -> (k, v) ∈ d.
Proof.
  induction d as [|[k' v'] d IH]; simpl; [done|].
  destruct (String.eqb_spec k' k) as [->|Hne].
  - intros [= ->]. left.
  - intros H. right. by apply IH.
Qed.

Lemma find_None d k : find d k = None <-> k ∉ keys d.
Proof.
  induction d as [|[k' v'] d IH]; simpl.
  - split; [intros _ H; inversion H | done].
  - destruct (String.eqb_spec k' k) as [->|Hne].
    + split; [done | intros H; exfalso; apply H; left].
    + rewrite IH, not_elem_of_cons.
      split; [intros; split; [congruence | done] | by intros [_ ?]].
Qed.

Lemma find_is_Some d k : is_Some (find d k) <-> k ∈ keys d.
Proof.
  destruct (find d k) as [v|] eqn:H.
  - split; [intros _ | by eauto].
    destruct (decide (k ∈ keys d)) as [|Hn]; [done|].
    apply find_None in Hn. congruence.
  - apply find_None in H. split; [by intros [? ?] | done].
Qed.

Lemma mem_spec d k : mem d k = true <-> k ∈ keys d.
Proof.
  unfold mem. rewrite <- find_is_Some.
  destruct (find d k) as [v|].
  - split; [eauto | done].
  - split; [done | by intros [? ?]].
Qed.

Lemma get_Ok d k v : get d k = Ok v <-> find d k = Some v.
Proof. unfold get. destruct (find d k); naive_solver. Qed.

Lemma get_total d k : k ∈ keys d -> exists v, get d k = Ok v /\ find d k = Some v.
Proof.
  intros H. apply find_is_Some in H as [v Hv]. exists v.
  split; [by apply get_Ok | done].
Qed.

Lemma In_keys d k v : (k, v) ∈ d -> k ∈ keys d.
Proof. intros H. unfold keys. apply list_elem_of_fmap. by exists (k, v). Qed.

Lemma keys_modify (f : V -> V) d k : keys (modify f d k) = keys d.
Proof.
  unfold keys, modify. rewrite map_map. apply map_ext.
  intros [k' v']; simpl. by destruct (String.eqb k' k).
Qed.

Lemma find_modify (f : V -> V) d k k' :
  find (modify f d k) k' =
    if String.eqb k k' then f <$> find d k' else find d k'.
Proof.
  induction d as [|[k1 v1] d IH]; simpl; [by destruct (String.eqb k k')|].
  destruct (String.eqb_spec k1 k) as [->|Hne]; simpl.
  - destruct (String.eqb_spec k k') as [->|Hne']; simpl; [done|].
    rewrite IH. destruct (String.eqb_spec k k'); done.
  - destruct (String.eqb_spec k1 k') as [->|Hne']; simpl.
    + destruct (String.eqb_spec k k'); [congruence | done].
    + apply IH.
Qed.

Lemma In_modify (f : V -> V) d k k' v' :
  (k', v') ∈ modify f d k <->
  exists v, (k', v) ∈ d /\ v' = if String.eqb k' k then f v else v.
Proof.
  unfold modify. rewrite list_elem_of_fmap. split.
  - intros ([k1 v1] & Heq & Hin). simpl in Heq.
    destruct (String.eqb k1 k) eqn:E; inversion Heq; subst;
      exists v1; rewrite E; done.
  - intros (v & Hin & ->). exists (k', v). simpl.
    destruct (String.eqb k' k); done.
Qed.

Lemma find_set d k v k' :
  find (set d k v) k' = if String.eqb k k' then Some v else find d k'.
Proof.
  induction d as [|[k1 v1] d IH]; simpl; [done|].
  destruct (String.eqb_spec k1 k) as [->|Hne]; simpl.
  - destruct (String.eqb_spec k k'); done.
  - destruct (String.eqb_spec k1 k') as [->|Hne']; simpl; [|apply IH].
    destruct (String.eqb_spec k k'); [congruence | done].
Qed.

Lemma keys_set_new d k v : k ∉ keys d -> set d k v = d ++ [(k, v)].
Proof.
  induction d as [|[k1 v1] d IH]; simpl; [done|].
  rewrite not_elem_of_cons. intros [Hne Hnin].
  destruct (String.eqb_spec k1 k); [congruence|]. by rewrite IH.
Qed.

Lemma keys_set d k v : k ∈ keys (set d k v).
Proof.
  apply find_is_Some. rewrite find_set, String.eqb_refl. eauto.
Qed.

Lemma update_Ok (f : V -> V) d k :
  k ∈ keys d -> update f d k = Ok (modify f d k).
Proof.
  intros H. apply find_is_Some in H as [v Hv]. unfold update. by rewrite Hv.
Qed.

End Facts.
End DictFacts.

(** ** Tactics for concrete stores *)

(** Membership of a given element in a given list, by computation. *)
Ltac in_list := apply (bool_decide_unpack _); vm_compute; exact I.

(** Case analysis on a hypothesis [x ∈ l] for a given list [l]. *)
Ltac cases_in H :=
  repeat (apply elem_of_cons in H as [H | H]); [.. | by apply elem_of_nil in H].

(** ** The title estimator *)

Lemma half_le (size c : Z) :
  Qle_bool (inject_Z size / 2)%Q (inject_Z c) = (size <=? 2 * c).
Proof.
  apply eq_true_iff_eq. rewrite Qle_bool_iff, Z.leb_le.
  unfold Qle, Qdiv, Qmult, Qinv, inject_Z; simpl. lia.
Qed.

Lemma count_nonneg {A : Type} `{EqDecision A} (x : A) (l : list A) : 0 <= count x l.
Proof. unfold count. lia. Qed.

Lemma count_cons {A : Type} `{EqDecision A} (x y : A) (l : list A) :
  count x (y :: l) = (if decide (y = x) then 1 else 0) + count x l.
Proof.
  unfold count. rewrite filter_cons. destruct (decide (y = x)); simpl; lia.
Qed.

Lemma count_app {A : Type} `{EqDecision A} (x : A) (l1 l2 : list A) :
  count x (l1 ++ l2) = count x l1 + count x l2.
Proof. unfold count. rewrite filter_app, length_app. lia. Qed.

(** Votes that are all FEMALE or MALE split the total between the two. *)
Lemma count_votes (votes : list Gender) :
  Forall (fun g => g = FEMALE \/ g = MALE) votes ->
  count FEMALE votes + count MALE votes = Z.of_nat (length votes).
Proof.
  induction 1 as [|g votes Hg _ IH]; [done|].
  rewrite !count_cons. simpl length.
  destruct Hg as [-> | ->]; repeat case_decide; try done; lia.
Qed.

Lemma title_decision_eq (votes : list Gender) :
  GenderAnnotation.title_decision votes =
    if Z.of_nat (length votes) =? 0 then inl UNKNOWN
    else if Z.of_nat (length votes) <=? 2 * count FEMALE votes then inl FEMALE
    else if Z.of_nat (length votes) <=? 2 * count MALE votes then inl MALE
    else inr votes.
Proof. unfold GenderAnnotation.title_decision. by rewrite !half_le. Qed.

(** The votes the tally collects are FEMALE or MALE, so the estimator always
    settles on a gender. *)
Lemma title_decision_settled (votes : list Gender) :
  Forall (fun g => g = FEMALE \/ g = MALE) votes ->
  exists g, GenderAnnotation.title_decision votes = inl g.
Proof.
  intros Hvotes. rewrite title_decision_eq.
  pose proof (count_votes votes Hvotes) as Hsum.
  destruct (Z.eqb_spec (Z.of_nat (length votes)) 0); [eauto|].
  destruct (Z.leb_spec (Z.of_nat (length votes)) (2 * count FEMALE votes)); [eauto|].
  destruct (Z.leb_spec (Z.of_nat (length votes)) (2 * count MALE votes)); [eauto|].
  lia.
Qed.

(** C6. The decision of the title estimator for one name: UNKNOWN without
    votes; otherwise FEMALE when the FEMALE votes are at least half of all
    votes, else MALE when the MALE votes are at least half. FEMALE is tested
    first, so a tie between FEMALE and MALE votes gives FEMALE, as do the
    tallies [FEMALE; MALE], [MALE; FEMALE] and [FEMALE; FEMALE; MALE]. *)
Theorem title_decision_by_votes :
  (forall votes : list Gender,
     let total := Z.of_nat (length votes) in
     GenderAnnotation.title_decision votes =
       if total =? 0 then inl UNKNOWN
       else if total <=? 2 * count FEMALE votes then inl FEMALE
       else if total <=? 2 * count MALE votes then inl MALE
       else inr votes)
  /\ (forall votes : list Gender,
        votes <> [] ->
        Forall (fun g => g = FEMALE \/ g = MALE) votes ->
        count FEMALE votes = count MALE votes ->
        GenderAnnotation.title_decision votes = inl FEMALE)
  /\ GenderAnnotation.title_decision [] = inl UNKNOWN
  /\ GenderAnnotation.title_decision [FEMALE; MALE] = inl FEMALE
  /\ GenderAnnotation.title_decision [MALE; FEMALE] = inl FEMALE
  /\ GenderAnnotation.title_decision [FEMALE; FEMALE; MALE] = inl FEMALE.
Proof.
  split; [exact title_decision_eq|]. split; [|by repeat split].
  intros votes Hne Hvotes Htie. rewrite title_decision_eq.
  pose proof (count_votes votes Hvotes) as Hsum.
  destruct votes as [|g votes]; [done|]. simpl length in *.
  destruct (Z.eqb_spec (Z.of_nat (S (length votes))) 0) as [|_]; [lia|].
  destruct (Z.leb_spec (Z.of_nat (S (length votes))) (2 * count FEMALE (g :: votes)));
    [done | lia].
Qed.

(** ** Gender fusion *)

Section Fusion.
Import CharacterIdentification DictFacts.

Variables t n p : Dict.t Gender.

Lemma fuse_step_eq (chars : Dict.t Character.t) (name : string) (gt gn gp : Gender) :
  Dict.find t name = Some gt -> Dict.find n name = Some gn ->
  Dict.find p name = Some gp -> name ∈ Dict.keys chars ->
  fuse_step t n p chars name =
    Ok (Dict.modify (Character.update_gender (fused gt gn gp)) chars name).
Proof.
  intros Ht Hn Hp Hin. unfold fuse_step.
  apply get_Ok in Ht, Hn, Hp. rewrite Ht, Hn, Hp. simpl.
  destruct gt, gn; vm_compute count; simpl; by apply update_Ok.
Qed.

Lemma fuse_loop (names : list string) (chars : Dict.t Character.t) :
  (forall k, k ∈ names ->
     k ∈ Dict.keys chars /\ k ∈ Dict.keys t /\ k ∈ Dict.keys n /\ k ∈ Dict.keys p) ->
  exists chars',
    for_each (fuse_step t n p) names chars = Ok chars'
    /\ Dict.keys chars' = Dict.keys chars
    /\ (forall k, k ∈ names ->
          exists c, Dict.find chars' k = Some c /\ Character.gender c = target t n p k)
    /\ (forall k, k ∉ names -> Dict.find chars' k = Dict.find chars k).
Proof.
  revert chars. induction names as [|k names IH]; intros chars Hcov; simpl.
  { exists chars. split_and!; [done | done | | done]. intros k Hk. inversion Hk. }
  destruct (Hcov k) as (Hk & Hkt & Hkn & Hkp); [left|].
  apply find_is_Some in Hkt as [gt Hgt], Hkn as [gn Hgn], Hkp as [gp Hgp].
  rewrite (fuse_step_eq chars k gt gn gp) by done. simpl.
  set (chars1 := Dict.modify _ chars k).
  destruct (IH chars1) as (chars' & Hrun & Hkeys & Hin & Hout).
  { intros k' Hk'. unfold chars1. rewrite keys_modify. apply Hcov. by right. }
  exists chars'. split; [done|]. split; [by rewrite Hkeys; apply keys_modify|].
  split.
  - intros k' Hk'. destruct (decide (k' ∈ names)) as [|Hnot]; [by apply Hin|].
    apply elem_of_cons in Hk' as [->|]; [|done].
    rewrite (Hout k Hnot). unfold chars1. rewrite find_modify, String.eqb_refl.
    apply find_is_Some in Hk as [c Hc]. rewrite Hc. simpl.
    eexists; split; [done|]. simpl. unfold target. by rewrite Hgt, Hgn, Hgp.
  - intros k' Hk'. apply not_elem_of_cons in Hk' as [Hne Hk'].
    rewrite (Hout k' Hk'). unfold chars1. rewrite find_modify.
    destruct (String.eqb_spec k k'); [congruence | done].
Qed.

End Fusion.

(** When every name of the store has a result from each estimator, the fusion
    loop completes and leaves a gender on every entity. *)
Lemma fuse_genders_populates (t n p : Dict.t Gender) (chars : Dict.t Character.t) :
  (forall k, k ∈ Dict.keys chars ->
     k ∈ Dict.keys t /\ k ∈ Dict.keys n /\ k ∈ Dict.keys p) ->
  exists chars',
    CharacterIdentification.fuse_genders t n p chars = Ok chars'
    /\ Dict.keys chars' = Dict.keys chars
    /\ forall k c, (k, c) ∈ chars' -> exists g, Character.gender c = Some g.
Proof.
  intros Hcov. unfold CharacterIdentification.fuse_genders.
  (* every entry, not only the first one of its key, is written *)
  assert (Hall : forall names chars0,
    (forall k, k ∈ names -> k ∈ Dict.keys chars0 /\ k ∈ Dict.keys t
                            /\ k ∈ Dict.keys n /\ k ∈ Dict.keys p) ->
    exists chars', for_each (CharacterIdentification.fuse_step t n p) names chars0 = Ok chars'
      /\ Dict.keys chars' = Dict.keys chars0
      /\ forall k c, (k, c) ∈ chars' ->
           (k ∈ names -> exists g, Character.gender c = Some g)
           /\ (k ∉ names -> (k, c) ∈ chars0)).
  { induction names as [|k names IH]; intros chars0 Hc; simpl.
    - exists chars0. split_and!; [done | done |]. intros k c Hin.
      split; [|done]. intros Hk. inversion Hk.
    - destruct (Hc k) as (Hk & Hkt & Hkn & Hkp); [left|].
      apply DictFacts.find_is_Some in Hkt as [gt Hgt], Hkn as [gn Hgn], Hkp as [gp Hgp].
      rewrite (fuse_step_eq t n p chars0 k gt gn gp) by done. simpl.
      destruct (IH (Dict.modify (Character.update_gender (fused gt gn gp)) chars0 k))
        as (chars' & Hrun & Hkeys & Hent).
      { intros k' Hk'. rewrite DictFacts.keys_modify. apply Hc. by right. }
      exists chars'. split; [done|].
      split; [by rewrite Hkeys; apply DictFacts.keys_modify|].
      intros k' c Hin. destruct (Hent k' c Hin) as [Hyes Hno]. split.
      + intros Hk'. destruct (decide (k' ∈ names)) as [|Hnot]; [by apply Hyes|].
        apply elem_of_cons in Hk' as [->|]; [|done].
        apply Hno, DictFacts.In_modify in Hnot as (c0 & _ & ->).
        rewrite String.eqb_refl. simpl. eauto.
      + intros Hk'. apply not_elem_of_cons in Hk' as [Hne Hk'].
        apply Hno, DictFacts.In_modify in Hk' as (c0 & Hc0 & ->).
        destruct (String.eqb_spec k' k); [congruence | done]. }
  destruct (Hall (Dict.keys chars) chars) as (chars' & Hrun & Hkeys & Hent).
  { intros k Hk. split; [done|]. by apply Hcov. }
  exists chars'. split; [done|]. split; [done|].
  intros k c Hin. apply (Hent k c Hin). rewrite <- Hkeys.
  by eapply DictFacts.In_keys.
Qed.

(** C1, as the code has it. The final gender of a name is the common value of
    the title and name-list results when they agree on MALE or on FEMALE; the
    pronoun result when both are UNKNOWN or one is MALE and the other FEMALE;
    and, when exactly one of the two is UNKNOWN, the value of the other one.
    So title FEMALE with name-list UNKNOWN gives FEMALE whatever the pronoun
    result is. *)
Theorem gender_fusion (t n p : Dict.t Gender) (chars : Dict.t Character.t)
    (name : string) (gt gn gp : Gender) :
  (forall k, k ∈ Dict.keys chars ->
     k ∈ Dict.keys t /\ k ∈ Dict.keys n /\ k ∈ Dict.keys p) ->
  name ∈ Dict.keys chars ->
  Dict.find t name = Some gt ->
  Dict.find n name = Some gn ->
  Dict.find p name = Some gp ->
  final_gender t n p chars name =
    Some (match gt, gn with
          | MALE, MALE => MALE
          | FEMALE, FEMALE => FEMALE
          | UNKNOWN, UNKNOWN => gp
          | MALE, FEMALE | FEMALE, MALE => gp
          | MALE, UNKNOWN | UNKNOWN, MALE => MALE
          | FEMALE, UNKNOWN | UNKNOWN, FEMALE => FEMALE
          end).
Proof.
  intros Hcov Hname Ht Hn Hp. unfold final_gender, CharacterIdentification.fuse_genders.
  destruct (fuse_loop t n p (Dict.keys chars) chars) as (chars' & -> & _ & Hin & _).
  { intros k Hk. split; [done|]. by apply Hcov. }
  destruct (Hin name Hname) as (c & -> & ->).
  unfold target. rewrite Ht, Hn, Hp. by destruct gt, gn.
Qed.

Lemma gender_fusion_witness :
  final_gender [("Mary", FEMALE)] [("Mary", UNKNOWN)] [("Mary", MALE)]
    [("Mary", mary)] "Mary" = Some FEMALE.
Proof.
  apply (gender_fusion [("Mary", FEMALE)] [("Mary", UNKNOWN)] [("Mary", MALE)]
           [("Mary", mary)] "Mary" FEMALE UNKNOWN MALE).
  - intros k Hk. vm_compute in Hk. apply list_elem_of_singleton in Hk as ->.
    repeat split; vm_compute; left.
  - vm_compute. left.
  - reflexivity.
  - reflexivity.
  - reflexivity.
Defined.

(** C1, as the specification words it, fails: with title result FEMALE,
    name-list result UNKNOWN and pronoun result MALE the final gender is
    FEMALE, not the pronoun result. *)
Lemma gender_fusion_one_unknown_counterexample :
  final_gender [("Mary", FEMALE)] [("Mary", UNKNOWN)] [("Mary", MALE)]
    [("Mary", mary)] "Mary" <> Some MALE.
Proof. vm_compute. discriminate. Qed.

(** ** Indexing *)

Lemma py_index_Ok {A : Type} (l : list A) (i : Z) :
  0 <= i < Z.of_nat (length l) ->
  exists x, py_index l i = Ok x /\ l !! Z.to_nat i = Some x.
Proof.
  intros Hi. unfold py_index.
  destruct (Z.ltb_spec i 0) as [|_]; [lia|].
  destruct (Z.leb_spec 0 i) as [_|]; [|lia].
  destruct (Z.ltb_spec i (Z.of_nat (length l))) as [_|]; [|lia]. simpl.
  destruct (lookup_lt_is_Some_2 l (Z.to_nat i)) as [x Hx]; [lia|].
  rewrite Hx. eauto.
Qed.

Lemma py_index_app_l {A : Type} (l1 l2 : list A) (i : Z) :
  0 <= i < Z.of_nat (length l1) -> py_index (l1 ++ l2) i = py_index l1 i.
Proof.
  intros Hi. destruct (py_index_Ok l1 i Hi) as (x & -> & Hx).
  destruct (py_index_Ok (l1 ++ l2) i) as (y & -> & Hy).
  { rewrite length_app. lia. }
  rewrite lookup_app_l in Hy by lia. congruence.
Qed.

(** ** The pronoun estimator *)

Section Pronouns.
Import GenderAnnotation.

(** With a single occurrence the inner loop never runs: its guard asks
    for an index below [len(token_idxes) - 1]. *)
Lemma scan_sentence_single (fuel : nat) (t : Z) (sent : sentence)
    (start end_ token_idx : Z) (mentions : list string) :
  scan_sentence fuel [t] sent start end_ 0 token_idx mentions = Ok (0, mentions).
Proof. destruct fuel; unfold scan_sentence; simpl; by rewrite andb_false_r. Qed.

Local Arguments scan_sentence : simpl never.

Lemma scan_sentences_single (fuel : nat) (sents : list sentence) (t j start end_ : Z) :
  0 <= j -> scan_sentences fuel sents [t] j start end_ 0 [] = Ok [].
Proof.
  revert j start end_. induction fuel as [|fuel IH]; intros j start end_ Hj; simpl.
  { by destruct (j <? Z.of_nat (length sents) - 1). }
  destruct (Z.ltb_spec j (Z.of_nat (length sents) - 1)) as [Hlt|]; [|done].
  change (py_index [t] 0) with (Ok t). simpl.
  destruct (py_index_Ok sents j) as (sent & -> & _); [lia|].
  destruct (Z.ltb_spec 0 j) as [Hpos|_].
  - destruct (py_index_Ok sents (j - 1)) as (prev & -> & _); [lia|]. simpl.
    change (length [t]) with 1%nat.
    rewrite scan_sentence_single. simpl. apply IH. lia.
  - simpl. change (length [t]) with 1%nat.
    rewrite scan_sentence_single. simpl. apply IH. lia.
Qed.

(** A name seen once never gets a pronoun: its only occurrence is the last
    of the list, which the inner loop leaves out. *)
Lemma find_pronouns_single_occurrence (self : GenderAnnotation.t) (t : Z) :
  _find_pronouns self [t] = Ok [].
Proof. unfold _find_pronouns. by apply scan_sentences_single. Qed.

(** In a document of one sentence nothing is scanned: the outer loop stops
    below [len(sents) - 1]. *)
Lemma find_pronouns_single_sentence (d : Doc.t) (chars : Dict.t Character.t)
    (sent : sentence) (token_idxes : list Z) :
  Doc.sents d = [sent] ->
  _find_pronouns (GenderAnnotation.mk d chars) token_idxes = Ok [].
Proof. intros H. unfold _find_pronouns. simpl. by rewrite H. Qed.

Lemma scan_sentences_last (fuel : nat) (sents : list sentence) (s1 s2 : sentence)
    (token_idxes : list Z) (j start end_ i : Z) (mentions : list string) :
  0 <= j ->
  scan_sentences fuel (sents ++ [s1]) token_idxes j start end_ i mentions
  = scan_sentences fuel (sents ++ [s2]) token_idxes j start end_ i mentions.
Proof.
  revert j start end_ i mentions.
  induction fuel as [|fuel IH]; intros j start end_ i mentions Hj; simpl.
  { by rewrite !length_app. }
  rewrite !length_app. simpl length.
  destruct (Z.ltb_spec j (Z.of_nat (length sents + 1) - 1)) as [Hlt|]; [|done].
  destruct (py_index token_idxes i) as [token_idx|e]; simpl; [|done].
  rewrite !(py_index_app_l sents _ j) by lia.
  assert (Hstart :
    (if 0 <? j
     then bind (py_index (sents ++ [s1]) (j - 1))
            (fun prev => Ok (start + Z.of_nat (length prev)))
     else Ok start)
    = (if 0 <? j
       then bind (py_index (sents ++ [s2]) (j - 1))
              (fun prev => Ok (start + Z.of_nat (length prev)))
       else Ok start)).
  { destruct (Z.ltb_spec 0 j); [|done]. by rewrite !(py_index_app_l sents) by lia. }
  rewrite Hstart. clear Hstart.
  destruct (if 0 <? j then _ else _) as [start'|e]; simpl; [|done].
  destruct (py_index sents j) as [sent|e]; simpl; [|done].
  destruct (scan_sentence _ _ _ _ _ _ _ _) as [[i' mentions']|e]; simpl; [|done].
  apply IH. lia.
Qed.

(** The last sentence of the document is never read: replacing it by any
    other sentence leaves the collected pronouns unchanged. *)
Lemma find_pronouns_ignores_last_sentence (tokens : list string) (ents : list Span.t)
    (chars : Dict.t Character.t) (sents : list sentence) (s1 s2 : sentence)
    (token_idxes : list Z) :
  _find_pronouns (GenderAnnotation.mk (Doc.mk tokens ents (sents ++ [s1])) chars)
    token_idxes
  = _find_pronouns (GenderAnnotation.mk (Doc.mk tokens ents (sents ++ [s2])) chars)
      token_idxes.
Proof.
  unfold _find_pronouns. simpl. rewrite !length_app. simpl length.
  by apply scan_sentences_last.
Qed.

End Pronouns.

(** C7 at a failing input. "Holmes" occurs once, at token 0, in a sentence
    that holds the pronoun "his"; whether that sentence is the only one of the
    document or is followed by another one, no pronoun is collected and the
    estimator answers UNKNOWN. With two occurrences in one sentence the
    pronoun is collected once, not twice. *)
Theorem find_pronouns_misses_occurrences :
  GenderAnnotation._match_pronouns ["Holmes"; "lit"; "his"; "pipe"; "."] = ["his"]
  /\ GenderAnnotation._find_pronouns holmes_one_sentence [0] = Ok []
  /\ GenderAnnotation._find_pronouns holmes_two_sentences [0] = Ok []
  /\ GenderAnnotation._find_pronouns holmes_two_sentences [0; 3] = Ok ["his"]
  /\ GenderAnnotation._assign_gender_by_pronouns [] = UNKNOWN
  /\ GenderAnnotation._assign_gender_by_pronouns ["his"] = MALE.
Proof. by vm_compute. Qed.

(** *** Fuel *)

Section Fuel.
Import GenderAnnotation.

(** The inner loop advances [i] towards [len(token_idxes) - 1]: any fuel
    that covers the distance gives the same result. *)
Lemma scan_sentence_fuel (fuel1 fuel2 : nat) (token_idxes : list Z) (sent : sentence)
    (start end_ i token_idx : Z) (mentions : list string) :
  Z.of_nat (length token_idxes) - 1 - i <= Z.of_nat fuel1 ->
  Z.of_nat (length token_idxes) - 1 - i <= Z.of_nat fuel2 ->
  scan_sentence fuel1 token_idxes sent start end_ i token_idx mentions
  = scan_sentence fuel2 token_idxes sent start end_ i token_idx mentions.
Proof.
  revert fuel2 i token_idx mentions.
  induction fuel1 as [|fuel1 IH]; intros fuel2 i token_idx mentions H1 H2.
  - destruct fuel2; simpl; [done|].
    destruct (Z.ltb_spec i (Z.of_nat (length token_idxes) - 1)); [lia|].
    by rewrite andb_false_r.
  - destruct fuel2; simpl.
    + destruct (Z.ltb_spec i (Z.of_nat (length token_idxes) - 1)); [lia|].
      by rewrite andb_false_r.
    + destruct (_ && _ && _); [|done].
      destruct (py_index token_idxes (i + 1)) as [token_idx'|e]; simpl; [|done].
      apply IH; lia.
Qed.

(** The inner loop never moves [i] backwards. *)
Lemma scan_sentence_index (fuel : nat) (token_idxes : list Z) (sent : sentence)
    (start end_ i token_idx : Z) (mentions : list string) (i' : Z)
    (mentions' : list string) :
  scan_sentence fuel token_idxes sent start end_ i token_idx mentions
    = Ok (i', mentions') ->
  i <= i'.
Proof.
  revert i token_idx mentions.
  induction fuel as [|fuel IH]; intros i token_idx mentions; simpl.
  - destruct (_ && _ && _); intros [= <- _]; lia.
  - destruct (_ && _ && _); [|intros [= <- _]; lia].
    destruct (py_index token_idxes (i + 1)) as [token_idx'|e]; simpl; [|done].
    intros H. apply IH in H. lia.
Qed.

(** The outer loop advances [j] towards [len(sents) - 1]: any fuel that
    covers the distance gives the same result, so that of [_find_pronouns]
    is enough. *)
Lemma scan_sentences_fuel (fuel1 fuel2 : nat) (sents : list sentence)
    (token_idxes : list Z) (j start end_ i : Z) (mentions : list string) :
  Z.of_nat (length sents) - 1 - j <= Z.of_nat fuel1 ->
  Z.of_nat (length sents) - 1 - j <= Z.of_nat fuel2 ->
  scan_sentences fuel1 sents token_idxes j start end_ i mentions
  = scan_sentences fuel2 sents token_idxes j start end_ i mentions.
Proof.
  revert fuel2 j start end_ i mentions.
  induction fuel1 as [|fuel1 IH]; intros fuel2 j start end_ i mentions H1 H2.
  - destruct fuel2; simpl; [done|].
    destruct (Z.ltb_spec j (Z.of_nat (length sents) - 1)); [lia | done].
  - destruct fuel2; simpl.
    + destruct (Z.ltb_spec j (Z.of_nat (length sents) - 1)); [lia | done].
    + destruct (Z.ltb_spec j (Z.of_nat (length sents) - 1)); [|done].
      destruct (py_index token_idxes i) as [token_idx|e]; simpl; [|done].
      destruct (if 0 <? j then _ else _) as [start'|e]; simpl; [|done].
      destruct (py_index sents j) as [sent|e]; simpl; [|done].
      destruct (scan_sentence _ _ _ _ _ _ _ _) as [[i' mentions']|e]; simpl; [|done].
      apply IH; lia.
Qed.

End Fuel.

(** ** Detection *)

Section DetectionFacts.
Import CharacterIdentification DictFacts.

Lemma canonical_name_start (titles : gset string) (d : Doc.t) (ent : Span.t) :
  Span.start ent = 0 -> canonical_name titles d ent = Ok (Span.text ent).
Proof. intros H. unfold canonical_name. by rewrite H. Qed.

Lemma canonical_name_later (titles : gset string) (d : Doc.t) (ent : Span.t) :
  0 < Span.start ent <= Z.of_nat (length (Doc.tokens d)) ->
  exists prev,
    Doc.tokens d !! Z.to_nat (Span.start ent - 1) = Some prev
    /\ canonical_name titles d ent =
         Ok (if bool_decide (remove_periods prev ∈ titles)
             then prev +:+ " " +:+ Span.text ent
             else Span.text ent).
Proof.
  intros H. unfold canonical_name.
  destruct (Z.leb_spec 0 (Span.start ent - 1)) as [_|]; [|lia].
  destruct (py_index_Ok (Doc.tokens d) (Span.start ent - 1)) as (prev & -> & Hprev);
    [lia|].
  exists prev. split; [done|]. simpl. by case_bool_decide.
Qed.

Variable parse_name : string -> NameParsed.t.

(** A step of the detection loop on a PERSON span stores the span under
    [name]: the key is there afterwards, no other key is added, and every
    entity under it has an occurrence. *)
Lemma detect_store (chars : Dict.t Character.t) (name : string) (start : Z) :
  all_sighted chars ->
  let chars1 :=
    if negb (Dict.mem chars name)
    then Dict.set chars name (Character.init parse_name name)
    else chars in
  exists chars',
    Dict.update (Character.append_occurences start) chars1 name = Ok chars'
    /\ all_sighted chars'
    /\ (forall k, k ∈ Dict.keys chars' <-> k ∈ Dict.keys chars \/ k = name).
Proof.
  intros Hinv chars1.
  assert (Hkeys : forall k, k ∈ Dict.keys chars1 <-> k ∈ Dict.keys chars \/ k = name).
  { intros k. unfold chars1. destruct (Dict.mem chars name) eqn:Hmem; simpl.
    - apply mem_spec in Hmem. split; [by left | by intros [? | ->]].
    - assert (Hnot : name ∉ Dict.keys chars).
      { intros Hin. apply mem_spec in Hin. congruence. }
      rewrite keys_set_new by done. unfold Dict.keys. rewrite map_app. simpl.
      rewrite elem_of_app, list_elem_of_singleton. done. }
  assert (Hin1 : forall k c, (k, c) ∈ chars1 ->
            (k, c) ∈ chars \/ k = name).
  { intros k c. unfold chars1. destruct (Dict.mem chars name) eqn:Hmem; simpl.
    - by left.
    - assert (Hnot : name ∉ Dict.keys chars).
      { intros Hin. apply mem_spec in Hin. congruence. }
      rewrite keys_set_new by done.
      rewrite elem_of_app, list_elem_of_singleton. intros [? | [= -> _]]; eauto. }
  exists (Dict.modify (Character.append_occurences start) chars1 name).
  split; [apply update_Ok, Hkeys; by right|]. split.
  - intros k c' Hin. apply In_modify in Hin as (c & Hc & ->).
    destruct (String.eqb_spec k name) as [->|Hne].
    + simpl. by destruct (Character.occurences c).
    + destruct (Hin1 k c Hc) as [?|?]; [by eapply Hinv | done].
  - intros k. by rewrite keys_modify.
Qed.

Lemma detect_step_total (titles : gset string) (d : Doc.t)
    (chars : Dict.t Character.t) (ent : Span.t) :
  0 <= Span.start ent <= Z.of_nat (length (Doc.tokens d)) ->
  all_sighted chars ->
  exists chars', detect_step parse_name titles d chars ent = Ok chars'
                 /\ all_sighted chars'.
Proof.
  intros Hstart Hinv. unfold detect_step.
  destruct (String.eqb (Span.label_ ent) "PERSON"); [|eauto].
  assert (Hname : exists name, canonical_name titles d ent = Ok name).
  { destruct (decide (Span.start ent = 0)) as [H0|Hn0].
    - rewrite canonical_name_start by done. eauto.
    - destruct (canonical_name_later titles d ent) as (prev & _ & ->); [lia | eauto]. }
  destruct Hname as [name ->]. simpl.
  destruct (detect_store chars name (Span.start ent) Hinv) as (chars' & Hrun & Hinv' & _).
  eauto.
Qed.

End DetectionFacts.

(** C9. On a document whose spans lie inside it, [detect_characters] returns
    a mapping, stores it in the object, and every entity of the mapping has at
    least one occurrence. *)
Theorem detect_characters_occurrences (parse_name : string -> NameParsed.t)
    (get_titles : gset string * gset string) (self : CharacterIdentification.t) :
  spans_in_doc (CharacterIdentification.doc self) ->
  exists self' chars,
    CharacterIdentification.detect_characters parse_name get_titles self
      = Ok (self', chars)
    /\ CharacterIdentification.chars self' = Some chars
    /\ forall name c, (name, c) ∈ chars -> Character.occurences c <> [].
Proof.
  intros Hspans. unfold CharacterIdentification.detect_characters.
  destruct get_titles as [female_titles male_titles].
  destruct (for_each_total all_sighted
              (CharacterIdentification.detect_step parse_name
                 (female_titles ∪ male_titles) (CharacterIdentification.doc self))
              (Doc.ents (CharacterIdentification.doc self)) [])
    as (chars & -> & Hinv).
  - intros name c Hin. inversion Hin.
  - intros chars ent Hent Hinv. apply detect_step_total; [by apply Hspans | done].
  - simpl. eauto.
Qed.

Lemma detect_characters_occurrences_witness :
  exists self' chars,
    CharacterIdentification.detect_characters example_parse hudson_titles
      (CharacterIdentification.mk hudson_doc None) = Ok (self', chars)
    /\ CharacterIdentification.chars self' = Some chars
    /\ forall name c, (name, c) ∈ chars -> Character.occurences c <> [].
Proof.
  apply (detect_characters_occurrences example_parse hudson_titles
           (CharacterIdentification.mk hudson_doc None)).
  intros ent Hent. simpl in Hent.
  repeat (apply elem_of_cons in Hent as [->|Hent]; [simpl; lia|]).
  inversion Hent.
Defined.

(** C10. For a span inside the document, the key is the preceding token, a
    space and the span text exactly when the span does not start at token 0
    and the preceding token without its periods is in the title set; otherwise
    it is the span text. A span at token 0 keeps its text as the key. A PERSON
    span is stored under that key. *)
Theorem canonical_key (parse_name : string -> NameParsed.t) (titles : gset string)
    (d : Doc.t) (ent : Span.t) :
  0 <= Span.start ent <= Z.of_nat (length (Doc.tokens d)) ->
  exists key,
    CharacterIdentification.canonical_name titles d ent = Ok key
    /\ ((exists prev, title_before titles d ent prev
                      /\ key = prev +:+ " " +:+ Span.text ent)
        \/ ((forall prev, ~ title_before titles d ent prev) /\ key = Span.text ent))
    /\ (Span.start ent = 0 -> key = Span.text ent)
    /\ (Span.label_ ent = "PERSON" ->
        CharacterIdentification.detect_step parse_name titles d [] ent
        = Ok [(key, Character.append_occurences (Span.start ent)
                      (Character.init parse_name key))]).
Proof.
  intros Hstart.
  assert (Hstep : forall key,
    CharacterIdentification.canonical_name titles d ent = Ok key ->
    Span.label_ ent = "PERSON" ->
    CharacterIdentification.detect_step parse_name titles d [] ent
    = Ok [(key, Character.append_occurences (Span.start ent)
                  (Character.init parse_name key))]).
  { intros key Hkey Hlabel. unfold CharacterIdentification.detect_step.
    rewrite Hlabel, Hkey. simpl. unfold Dict.update. simpl.
    by rewrite String.eqb_refl. }
  destruct (decide (Span.start ent = 0)) as [H0|Hn0].
  - exists (Span.text ent).
    pose proof (canonical_name_start titles d ent H0) as Hkey.
    split_and!; [done | | done | by apply Hstep].
    right. split; [|done]. intros prev (Hne & _). done.
  - destruct (canonical_name_later titles d ent) as (prev & Hprev & Hkey); [lia|].
    eexists. split; [exact Hkey|].
    split_and!; [| done | by apply Hstep].
    case_bool_decide as Hin.
    + left. exists prev. by split.
    + right. split; [|done]. intros prev' (_ & Hprev' & Hin').
      rewrite Hprev in Hprev'. by injection Hprev' as <-.
Qed.

Lemma canonical_key_witness :
  exists key,
    CharacterIdentification.canonical_name ({[ "Mrs"; "Miss"; "Mr" ]}) hudson_doc
      (Span.mk "PERSON" "Hudson" 3) = Ok key
    /\ ((exists prev, title_before ({[ "Mrs"; "Miss"; "Mr" ]}) hudson_doc
                        (Span.mk "PERSON" "Hudson" 3) prev
                      /\ key = prev +:+ " " +:+ "Hudson")
        \/ ((forall prev, ~ title_before ({[ "Mrs"; "Miss"; "Mr" ]}) hudson_doc
                              (Span.mk "PERSON" "Hudson" 3) prev)
            /\ key = "Hudson"))
    /\ (3 = 0 -> key = "Hudson")
    /\ ("PERSON" = "PERSON" ->
        CharacterIdentification.detect_step example_parse ({[ "Mrs"; "Miss"; "Mr" ]})
          hudson_doc [] (Span.mk "PERSON" "Hudson" 3)
        = Ok [(key, Character.append_occurences 3 (Character.init example_parse key))]).
Proof.
  apply (canonical_key example_parse ({[ "Mrs"; "Miss"; "Mr" ]}) hudson_doc
           (Span.mk "PERSON" "Hudson" 3)).
  simpl. lia.
Defined.

(** ** Annotation *)

Lemma annotate_gender_before_detection
    (body : string -> GenderAnnotation.t -> result (Dict.t Gender)) (d : Doc.t) :
  CharacterIdentification.annotate_gender body (CharacterIdentification.mk d None)
  = Raise ValueError.
Proof. reflexivity. Qed.

(** The three estimators [annotate_gender] calls are not names of the class
    [GenderAnnotation]. *)
Lemma estimators_unbound :
  Forall (fun attr => str_in attr GenderAnnotation.methods = false
                      /\ str_in attr GenderAnnotation.instance_attributes = false)
    ["annotate_gender_by_titles_simple"; "annotate_gender_by_names";
     "annotate_gender_by_pronouns"].
Proof. repeat constructor. Qed.

(** C5 on the code. Before detection [annotate_gender] raises the state
    error. After detection it does not complete: whatever the methods of
    [GenderAnnotation] compute, the first estimator call names a method the
    class does not define, and the call raises [AttributeError] before any
    gender is written. *)
Theorem annotate_gender_raises
    (body : string -> GenderAnnotation.t -> result (Dict.t Gender)) (d : Doc.t) :
  CharacterIdentification.annotate_gender body (CharacterIdentification.mk d None)
    = Raise ValueError
  /\ (forall chars : Dict.t Character.t,
        CharacterIdentification.annotate_gender body
          (CharacterIdentification.mk d (Some chars)) = Raise AttributeError)
  /\ CharacterIdentification.annotate_gender body
       (CharacterIdentification.mk hudson_doc (Some [("Mary", mary)]))
     = Raise AttributeError.
Proof. by split_and!. Qed.

(** ** The constraint filter *)

#[local] Set Warnings "-clear-no-such-hyp".

(** A loop that only appends to a list collects what its body appends. *)
Lemma for_each_collect {A B : Type} (Q : A -> B -> Prop)
    (body : list B -> A -> result (list B)) (xs : list A) (acc : list B) :
  (forall acc x, x ∈ xs ->
     exists ext, body acc x = Ok (acc ++ ext) /\ forall b, b ∈ ext <-> Q x b) ->
  exists ext, for_each body xs acc = Ok (acc ++ ext)
              /\ forall b, b ∈ ext <-> exists x, x ∈ xs /\ Q x b.
Proof.
  revert acc. induction xs as [|x xs IH]; intros acc Hbody; simpl.
  - exists []. rewrite app_nil_r. split; [done|]. intros b. split.
    + intros H. inversion H.
    + intros (x & Hx & _). inversion Hx.
  - destruct (Hbody acc x) as (ext1 & -> & Hext1); [left|]. simpl.
    destruct (IH (acc ++ ext1)) as (ext2 & -> & Hext2).
    { intros acc' y Hy. apply Hbody. by right. }
    exists (ext1 ++ ext2). rewrite app_assoc. split; [done|].
    intros b. rewrite elem_of_app, Hext1, Hext2. split.
    + intros [HQ | (y & Hy & HQ)]; [exists x; split; [left | done]|].
      exists y. split; [by right | done].
    + intros (y & Hy & HQ). apply elem_of_cons in Hy as [-> | Hy]; [by left|].
      right. eauto.
Qed.

Section Filter.
Import CharacterIdentification DictFacts.

Lemma gender_unmatch_spec (g1 g2 : Gender) :
  _gender_unmatch (Some g1) (Some g2) = true
  <-> g1 <> UNKNOWN /\ g2 <> UNKNOWN /\ g1 <> g2.
Proof. destruct g1, g2; vm_compute; split; try done; intros (? & ? & ?); done. Qed.

Lemma title_unmatch_spec (title1 title2 : string) :
  title_unmatch title1 title2 = true
  <-> title1 <> "" /\ title2 <> "" /\ title1 <> title2.
Proof.
  unfold title_unmatch.
  destruct (String.eqb_spec title1 ""), (String.eqb_spec title2 ""),
    (String.eqb_spec title1 title2); simpl; split; try done;
    intros (? & ? & ?); done.
Qed.

Lemma inconsistent_spec (c1 c2 : Character.t) :
  is_Some (Character.gender c1) -> is_Some (Character.gender c2) ->
  inconsistent c1 c2 = true <-> gender_conflict c1 c2 \/ title_conflict c1 c2.
Proof.
  intros [g1 Hg1] [g2 Hg2]. unfold inconsistent, gender_conflict, title_conflict.
  rewrite orb_true_iff, Hg1, Hg2, gender_unmatch_spec, title_unmatch_spec.
  split; intros [H|H]; try (by right).
  - left. by exists g1, g2.
  - left. destruct H as (g1' & g2' & [= <-] & [= <-] & H). done.
Qed.

Variable chars : Dict.t Character.t.

Lemma check_pair_spec (name ref : string) (c1 c2 : Character.t)
    (to_remove : list (string * string)) :
  Dict.find chars name = Some c1 -> Dict.find chars ref = Some c2 ->
  exists ext,
    check_pair chars name (Character.gender c1) to_remove ref = Ok (to_remove ++ ext)
    /\ forall pair, pair ∈ ext <-> pair = (name, ref) /\ inconsistent c1 c2 = true.
Proof.
  intros H1 H2. unfold check_pair, inconsistent.
  apply get_Ok in H1, H2. rewrite H2. simpl. rewrite H1. simpl.
  destruct (_gender_unmatch _ _), (title_unmatch _ _); simpl.
  - exists [(name, ref); (name, ref)]. rewrite <- app_assoc. split; [done|].
    intros pair. rewrite !elem_of_cons, elem_of_nil. naive_solver.
  - exists [(name, ref)]. split; [done|].
    intros pair. rewrite list_elem_of_singleton. naive_solver.
  - exists [(name, ref)]. split; [done|].
    intros pair. rewrite list_elem_of_singleton. naive_solver.
  - exists []. rewrite app_nil_r. split; [done|].
    intros pair. rewrite elem_of_nil. naive_solver.
Qed.

Lemma inconsistent_pairs_spec (same_chars : Dict.t (gset string)) :
  (forall name, name ∈ Dict.keys same_chars -> name ∈ Dict.keys chars) ->
  (forall name refs ref, (name, refs) ∈ same_chars -> ref ∈ refs ->
                         ref ∈ Dict.keys chars) ->
  exists to_remove,
    inconsistent_pairs chars same_chars = Ok to_remove
    /\ forall pair, pair ∈ to_remove <-> to_drop chars same_chars pair.
Proof.
  intros Hnames Hrefs. unfold inconsistent_pairs.
  destruct (for_each_collect
    (fun (e : string * gset string) (pair : string * string) =>
       exists c1 c2, pair.1 = e.1 /\ pair.2 ∈ e.2
         /\ Dict.find chars pair.1 = Some c1 /\ Dict.find chars pair.2 = Some c2
         /\ inconsistent c1 c2 = true)
    (fun to_remove e =>
       let '(name, refs) := e in
       bind (Dict.get chars name) (fun c1 =>
         let gender1 := Character.gender c1 in
         for_each (check_pair chars name gender1) (elements refs) to_remove))
    same_chars []) as (ext & Hrun & Hext).
  - intros acc [name refs] Hin.
    destruct (get_total chars name) as (c1 & -> & Hc1);
      [by eapply Hnames, In_keys|]. simpl.
    destruct (for_each_collect
      (fun (ref : string) (pair : string * string) =>
         exists c2, pair = (name, ref) /\ Dict.find chars ref = Some c2
                    /\ inconsistent c1 c2 = true)
      (check_pair chars name (Character.gender c1)) (elements refs) acc)
      as (ext & -> & Hext).
    + intros acc' ref Href. apply elem_of_elements in Href.
      destruct (get_total chars ref) as (c2 & _ & Hc2); [by eapply Hrefs|].
      destruct (check_pair_spec name ref c1 c2 acc' Hc1 Hc2) as (ext & -> & Hext).
      exists ext. split; [done|]. intros pair. rewrite Hext.
      split; [intros [-> ?]; eauto|].
      intros (c2' & -> & Hc2' & ?). split; [done | congruence].
    + exists ext. split; [done|]. intros pair. rewrite Hext. simpl. split.
      * intros (ref & Href & c2 & -> & Hc2 & Hbad). apply elem_of_elements in Href.
        exists c1, c2. done.
      * intros (c1' & c2 & Hp1 & Hp2 & Hc1' & Hc2 & Hbad).
        exists pair.2. split; [by apply elem_of_elements|].
        exists c2. destruct pair as [p1 p2]; simpl in *. subst p1.
        split; [done|]. split; [done | congruence].
  - exists ext. split; [done|]. intros pair. rewrite Hext. unfold to_drop. split.
    + intros ([name refs] & Hin & c1 & c2 & Hp1 & Hp2 & H).
      destruct pair as [p1 p2]; simpl in *; subst p1. by exists refs, c1, c2.
    + intros (refs & c1 & c2 & Hin & Hp2 & H).
      exists (pair.1, refs). split; [done|]. exists c1, c2. done.
Qed.

Lemma discard_pairs_find (to_remove : list (string * string))
    (same_chars : Dict.t (gset string)) (name : string) :
  match Dict.find same_chars name with
  | Some refs =>
      exists refs', Dict.find (discard_pairs same_chars to_remove) name = Some refs'
                    /\ forall ref, ref ∈ refs' <-> ref ∈ refs /\ (name, ref) ∉ to_remove
  | None => Dict.find (discard_pairs same_chars to_remove) name = None
  end.
Proof.
  revert same_chars.
  induction to_remove as [|[n r] to_remove IH]; intros same_chars; simpl.
  { destruct (Dict.find same_chars name) as [refs|]; [|done].
    exists refs. split; [done|]. intros ref. rewrite elem_of_nil. naive_solver. }
  specialize (IH (Dict.modify (fun refs => refs ∖ {[ r ]}) same_chars n)).
  rewrite find_modify in IH. unfold discard_pairs in *. simpl.
  destruct (Dict.find same_chars name) as [refs|].
  - destruct (String.eqb_spec n name) as [->|Hne]; simpl in IH.
    + destruct IH as (refs' & Hfind & Hrefs'). exists refs'. split; [done|].
      intros ref. rewrite Hrefs', elem_of_difference, not_elem_of_cons,
        elem_of_singleton. naive_solver.
    + destruct IH as (refs' & Hfind & Hrefs'). exists refs'. split; [done|].
      intros ref. rewrite Hrefs', not_elem_of_cons. naive_solver.
  - by destruct (String.eqb n name).
Qed.

End Filter.

(** C3. On a candidate map whose names and referents are in an annotated
    store, the filter runs to its end, and a pair (name, referent) is in the
    filtered map exactly when it was a candidate and neither both genders are
    known and differ nor both titles are non-empty and differ. So a FEMALE
    name never keeps a MALE referent, whatever the titles, and a pair with an
    UNKNOWN gender is dropped only for its titles. *)
Theorem constraint_filter (chars : Dict.t Character.t)
    (same_chars : Dict.t (gset string)) :
  (forall name, name ∈ Dict.keys same_chars -> name ∈ Dict.keys chars) ->
  (forall name refs ref, (name, refs) ∈ same_chars -> ref ∈ refs ->
                         ref ∈ Dict.keys chars) ->
  annotated chars ->
  exists to_remove,
    CharacterIdentification.inconsistent_pairs chars same_chars = Ok to_remove
    /\ forall name ref c1 c2,
         Dict.find chars name = Some c1 -> Dict.find chars ref = Some c2 ->
         let filtered := CharacterIdentification.discard_pairs same_chars to_remove in
         (claims filtered name ref
          <-> claims same_chars name ref
              /\ ~ (gender_conflict c1 c2 \/ title_conflict c1 c2))
         /\ (Character.gender c1 = Some FEMALE -> Character.gender c2 = Some MALE ->
             ~ claims filtered name ref)
         /\ (Character.gender c1 = Some UNKNOWN \/ Character.gender c2 = Some UNKNOWN ->
             claims same_chars name ref -> ~ title_conflict c1 c2 ->
             claims filtered name ref).
Proof.
  intros Hnames Hrefs Hann.
  destruct (inconsistent_pairs_spec chars same_chars Hnames Hrefs)
    as (to_remove & Hrun & Hrem).
  exists to_remove. split; [done|]. intros name ref c1 c2 Hc1 Hc2 filtered.
  assert (Hiff : claims filtered name ref
                 <-> claims same_chars name ref
                     /\ ~ (gender_conflict c1 c2 \/ title_conflict c1 c2)).
  { rewrite <- inconsistent_spec
      by (eapply Hann, DictFacts.find_Some_In; eassumption).
    pose proof (discard_pairs_find to_remove same_chars name) as Hfind.
    unfold claims, filtered.
    destruct (Dict.find same_chars name) as [refs|] eqn:Hsc.
    - destruct Hfind as (refs' & -> & Hrefs'). split.
      + intros (? & [= <-] & Href). apply Hrefs' in Href as [Href Hkeep].
        split; [eauto|]. intros Hbad. apply Hkeep, Hrem.
        exists refs, c1, c2. simpl. split_and!; try done.
        by apply DictFacts.find_Some_In.
      + intros [(? & [= <-] & Href) Hok]. exists refs'. split; [done|].
        apply Hrefs'. split; [done|]. intros Hbad. apply Hrem in Hbad.
        destruct Hbad as (? & c1' & c2' & _ & _ & Hc1' & Hc2' & Hbad).
        simpl in *. congruence.
    - rewrite Hfind. split; [by intros (? & ? & _) | by intros [(? & ? & _) _]]. }
  split; [exact Hiff|]. split.
  - intros Hg1 Hg2 Hin. apply Hiff in Hin as [_ Hok]. apply Hok. left.
    by exists FEMALE, MALE.
  - intros Hunk Hin Htitle. apply Hiff. split; [done|].
    intros [(g1 & g2 & Hg1 & Hg2 & Hn1 & Hn2 & _) | Hbad]; [|done].
    destruct Hunk as [Hunk|Hunk]; congruence.
Qed.

Lemma holmes_names_known (name : string) :
  name ∈ Dict.keys holmes_candidates -> name ∈ Dict.keys holmes_store.
Proof. intros H. cases_in H; subst; in_list. Qed.

Lemma holmes_refs_known (name : string) (refs : gset string) (ref : string) :
  (name, refs) ∈ holmes_candidates -> ref ∈ refs -> ref ∈ Dict.keys holmes_store.
Proof.
  intros H Href. cases_in H; injection H as -> ->; set_unfold in Href;
    destruct_or?; subst; in_list.
Qed.

Lemma holmes_annotated : annotated holmes_store.
Proof. intros name c H. cases_in H; injection H as -> ->; by eexists. Qed.

Lemma constraint_filter_witness :
  exists to_remove,
    CharacterIdentification.inconsistent_pairs holmes_store holmes_candidates
      = Ok to_remove
    /\ forall name ref c1 c2,
         Dict.find holmes_store name = Some c1 ->
         Dict.find holmes_store ref = Some c2 ->
         let filtered :=
           CharacterIdentification.discard_pairs holmes_candidates to_remove in
         (claims filtered name ref
          <-> claims holmes_candidates name ref
              /\ ~ (gender_conflict c1 c2 \/ title_conflict c1 c2))
         /\ (Character.gender c1 = Some FEMALE -> Character.gender c2 = Some MALE ->
             ~ claims filtered name ref)
         /\ (Character.gender c1 = Some UNKNOWN \/ Character.gender c2 = Some UNKNOWN ->
             claims holmes_candidates name ref -> ~ title_conflict c1 c2 ->
             claims filtered name ref).
Proof.
  apply (constraint_filter holmes_store holmes_candidates).
  - exact holmes_names_known.
  - exact holmes_refs_known.
  - exact holmes_annotated.
Defined.

(** On that store the filter drops the female referent of the male name and
    keeps the referent of unknown gender. *)
Example constraint_filter_holmes :
  CharacterIdentification.inconsistent_pairs holmes_store holmes_candidates
  = Ok [("Mr. Holmes", "Mrs. Hudson"); ("Mr. Holmes", "Mrs. Hudson")]
  /\ map (fun e => (e.1, elements e.2))
       (CharacterIdentification.discard_pairs holmes_candidates
          [("Mr. Holmes", "Mrs. Hudson"); ("Mr. Holmes", "Mrs. Hudson")])
     = [("Mr. Holmes", ["Holmes"]); ("Sherlock Holmes", ["Holmes"]);
        ("Mycroft Holmes", ["Holmes"])].
Proof. by vm_compute. Qed.

(** ** Dictionaries of lists *)

Module AppendFacts.
Import Dict DictFacts.

Section Facts.
Context {V : Type}.
Implicit Types (d : Dict.t (list V)) (k : string) (v : V).

Lemma find_app {W : Type} (d1 d2 : Dict.t W) k :
  find (d1 ++ d2) k = match find d1 k with Some w => Some w | None => find d2 k end.
Proof.
  induction d1 as [|[k1 w1] d1 IH]; simpl; [done|].
  by destruct (String.eqb k1 k).
Qed.

Lemma In_find {W : Type} (d : Dict.t W) k (w : W) :
  NoDup (keys d) -> (k, w) ∈ d -> find d k = Some w.
Proof.
  induction d as [|[k1 w1] d IH]; simpl; intros Hnd Hin; [inversion Hin|].
  apply NoDup_cons in Hnd as [Hk1 Hnd].
  apply elem_of_cons in Hin as [[= -> ->] | Hin].
  - by rewrite String.eqb_refl.
  - destruct (String.eqb_spec k1 k) as [->|Hne]; [|by apply IH].
    exfalso. apply Hk1. by eapply In_keys.
Qed.

Lemma get_list_append d k v k' :
  get_list (append d k v) k'
  = get_list d k' ++ (if String.eqb k k' then [v] else []).
Proof.
  unfold get_list, append, mem.
  destruct (find d k) as [l|] eqn:Hk.
  - rewrite find_modify.
    destruct (String.eqb_spec k k') as [<-|Hne]; [by rewrite Hk|].
    destruct (find d k'); by rewrite ?app_nil_r.
  - rewrite find_app. simpl.
    destruct (String.eqb_spec k k') as [<-|Hne]; [by rewrite Hk|].
    destruct (find d k'); by rewrite ?app_nil_r.
Qed.

Lemma keys_append d k v k' :
  k' ∈ keys (append d k v) <-> k' ∈ keys d \/ k' = k.
Proof.
  unfold append. destruct (mem d k) eqn:Hmem.
  - rewrite keys_modify. apply mem_spec in Hmem.
    split; [by left | by intros [? | ->]].
  - unfold keys. rewrite map_app, elem_of_app. simpl.
    by rewrite list_elem_of_singleton.
Qed.

Lemma In_append d k v k' (l' : list V) :
  (k', l') ∈ append d k v ->
  l' <> [] /\ k' = k \/ (k', l') ∈ d.
Proof.
  unfold append. destruct (mem d k).
  - intros H. apply In_modify in H as (l & Hl & ->).
    destruct (String.eqb_spec k' k) as [->|Hne]; [|by right].
    left. split; [|done]. by destruct l.
  - rewrite elem_of_app, list_elem_of_singleton.
    intros [? | [= -> ->]]; [by right | by left].
Qed.

Lemma proper_append d k v : proper d -> proper (append d k v).
Proof.
  intros [Hnd Hne]. split.
  - unfold append. destruct (mem d k) eqn:Hmem; [by rewrite keys_modify|].
    unfold keys. rewrite map_app. simpl. apply NoDup_app.
    split; [done|]. split; [|apply NoDup_singleton].
    intros k' Hk' Heq. apply list_elem_of_singleton in Heq as ->.
    apply mem_spec in Hk'. congruence.
  - intros k' l' Hin. apply In_append in Hin as [[? _] | Hin]; [done|].
    by eapply Hne.
Qed.

(** In a proper dictionary a key is bound exactly when its list is not
    empty, and then to that list. *)
Lemma proper_find d k :
  proper d -> get_list d k <> [] -> find d k = Some (get_list d k).
Proof. unfold get_list. by destruct (find d k). Qed.

Lemma proper_keys d k : proper d -> k ∈ keys d <-> get_list d k <> [].
Proof.
  intros [_ Hne]. unfold get_list. destruct (find d k) as [l|] eqn:Hk.
  - split; [intros _ | intros _; apply find_is_Some; by rewrite Hk].
    eapply Hne, find_Some_In, Hk.
  - apply find_None in Hk. split; [done | by intros []].
Qed.

Lemma keys_pop {W : Type} (d : Dict.t W) k :
  keys (pop d k) = filter (fun k' => k' <> k) (keys d).
Proof.
  unfold pop, keys. induction d as [|[k1 w1] d IH]; [done|].
  change (map fst ((k1, w1) :: d)) with (k1 :: map fst d).
  rewrite !filter_cons. change ((k1, w1).1) with k1.
  destruct (decide (k1 <> k)); simpl; by rewrite IH.
Qed.

Lemma In_pops {W : Type} (ks : list string) (d : Dict.t W) (e : string * W) :
  e ∈ foldl pop d ks <-> e ∈ d /\ e.1 ∉ ks.
Proof.
  revert d. induction ks as [|k ks IH]; intros d; simpl.
  - rewrite elem_of_nil. naive_solver.
  - rewrite IH. unfold pop at 1. rewrite list_elem_of_filter, not_elem_of_cons.
    naive_solver.
Qed.

Lemma NoDup_pops {W : Type} (ks : list string) (d : Dict.t W) :
  NoDup (keys d) -> NoDup (keys (foldl pop d ks)).
Proof.
  revert d. induction ks as [|k ks IH]; intros d Hnd; simpl; [done|].
  apply IH. rewrite keys_pop. by apply NoDup_filter.
Qed.

End Facts.
End AppendFacts.

(** ** Contested referents *)

Section Claimants.
Import CharacterIdentification DictFacts AppendFacts.

Lemma claimants_cons (name : string) (refs : gset string)
    (same_chars : Dict.t (gset string)) (ref : string) :
  claimants ((name, refs) :: same_chars) ref
  = (if decide (ref ∈ refs) then [name] else []) ++ claimants same_chars ref.
Proof.
  unfold claimants. rewrite filter_cons. simpl. by destruct (decide (ref ∈ refs)).
Qed.

Lemma elem_of_claimants (same_chars : Dict.t (gset string)) (ref name : string) :
  name ∈ claimants same_chars ref
  <-> exists refs, (name, refs) ∈ same_chars /\ ref ∈ refs.
Proof.
  unfold claimants. rewrite list_elem_of_fmap. split.
  - intros ([n refs] & -> & Hin). apply list_elem_of_filter in Hin as [Href Hin].
    by exists refs.
  - intros (refs & Hin & Href). exists (name, refs). split; [done|].
    by apply list_elem_of_filter.
Qed.

(** Lines 220-221 for one name: each of its referents gets the name once. *)
Lemma claim_refs (name : string) (l : list string) (rr : Dict.t (list string)) :
  NoDup l -> proper rr ->
  let rr' := foldl (fun rr ref => Dict.append rr ref name) rr l in
  proper rr'
  /\ forall ref, Dict.get_list rr' ref
                 = Dict.get_list rr ref ++ (if decide (ref ∈ l) then [name] else []).
Proof.
  revert rr. induction l as [|r l IH]; intros rr Hnd Hrr; simpl.
  { split; [done|]. intros ref. by rewrite app_nil_r. }
  apply NoDup_cons in Hnd as [Hr Hnd].
  destruct (IH (Dict.append rr r name) Hnd (proper_append rr r name Hrr))
    as [Hproper Hget].
  split; [done|]. intros ref. rewrite Hget, get_list_append, <- app_assoc.
  f_equal. destruct (String.eqb_spec r ref) as [<-|Hne].
  - destruct (decide (r ∈ l)) as [|_]; [done|].
    destruct (decide (r ∈ r :: l)) as [_|Hnot]; [done|].
    exfalso. apply Hnot. left.
  - destruct (decide (ref ∈ l)) as [Hin|Hnin];
      destruct (decide (ref ∈ r :: l)) as [Hin'|Hnin']; try done.
    + exfalso. apply Hnin'. by right.
    + apply elem_of_cons in Hin' as [?|?]; [congruence | done].
Qed.

Lemma claimants_fold (same_chars : Dict.t (gset string)) (rr : Dict.t (list string)) :
  proper rr ->
  let rr' :=
    foldl (fun rr (e : string * gset string) =>
             let '(name, refs) := e in
             foldl (fun rr ref => Dict.append rr ref name) rr (elements refs))
      rr same_chars in
  proper rr'
  /\ forall ref, Dict.get_list rr' ref
                 = Dict.get_list rr ref ++ claimants same_chars ref.
Proof.
  revert rr. induction same_chars as [|[name refs] same_chars IH]; intros rr Hrr; simpl.
  { split; [done|]. intros ref. by rewrite app_nil_r. }
  destruct (claim_refs name (elements refs) rr (NoDup_elements refs) Hrr)
    as [Hproper Hget].
  destruct (IH _ Hproper) as [Hproper' Hget'].
  split; [done|]. intros ref.
  rewrite Hget', Hget, claimants_cons, <- app_assoc. do 2 f_equal.
  destruct (decide (ref ∈ refs)) as [Hin|Hnin].
  - rewrite decide_True; [done|]. by apply elem_of_elements.
  - rewrite decide_False; [done|]. by rewrite elem_of_elements.
Qed.

(** The inverted map binds every claimed referent to its claimants. *)
Lemma claimants_by_referent_spec (same_chars : Dict.t (gset string)) :
  proper (claimants_by_referent same_chars)
  /\ forall ref, Dict.get_list (claimants_by_referent same_chars) ref
                 = claimants same_chars ref.
Proof.
  destruct (claimants_fold same_chars []) as [Hproper Hget].
  { split; [constructor|]. intros k l H. inversion H. }
  split; [exact Hproper|]. intros ref. apply Hget.
Qed.

Lemma unrepeated_keys (rr : Dict.t (list string)) (acc : list string) (k : string) :
  k ∈ foldl (fun to_remove (e : string * list string) =>
               let '(ref, repeat) := e in
               if Z.of_nat (length repeat) <=? 1 then to_remove ++ [ref]
               else to_remove) acc rr
  <-> k ∈ acc \/ exists l, (k, l) ∈ rr /\ (length l <= 1)%nat.
Proof.
  revert acc. induction rr as [|[r l] rr IH]; intros acc; simpl.
  { split; [by left|]. intros [?|(l & H & _)]; [done | inversion H]. }
  rewrite IH. destruct (Z.leb_spec (Z.of_nat (length l)) 1) as [Hle|Hgt].
  - rewrite elem_of_app, list_elem_of_singleton. split.
    + intros [[?| ->]|(l' & Hin & Hl')]; [by left | |].
      * right. exists l. split; [left | lia].
      * right. exists l'. split; [by right | done].
    + intros [?|(l' & Hin & Hl')]; [by left; left|].
      apply elem_of_cons in Hin as [[= -> ->]|Hin]; [by left; right|].
      right. eauto.
  - split.
    + intros [?|(l' & Hin & Hl')]; [by left|].
      right. exists l'. split; [by right | done].
    + intros [?|(l' & Hin & Hl')]; [by left|].
      apply elem_of_cons in Hin as [[= -> ->]|Hin]; [lia|]. right. eauto.
Qed.

(** Lines 224-229 keep the referents with two claimants or more. *)
Lemma drop_unrepeated_spec (rr : Dict.t (list string)) :
  NoDup (Dict.keys rr) ->
  NoDup (Dict.keys (drop_unrepeated rr))
  /\ forall k l, (k, l) ∈ drop_unrepeated rr <-> (k, l) ∈ rr /\ (2 <= length l)%nat.
Proof.
  intros Hnd. unfold drop_unrepeated. split; [by apply NoDup_pops|].
  intros k l. rewrite In_pops, unrepeated_keys. simpl. split.
  - intros [Hin Hnot]. split; [done|].
    destruct (decide (2 <= length l)%nat) as [|Hshort]; [done|].
    exfalso. apply Hnot. right. exists l. split; [done | lia].
  - intros [Hin Hlen]. split; [done|].
    intros [H|(l' & Hin' & Hl')]; [by apply elem_of_nil in H|].
    apply (In_find rr k l Hnd) in Hin. apply (In_find rr k l' Hnd) in Hin'.
    assert (l = l') by congruence. subst. lia.
Qed.

End Claimants.

(** ** The most frequent name *)

Section MostFrequent.
Import CharacterIdentification DictFacts AppendFacts.

Variable chars : Dict.t Character.t.

Lemma occurrence_count_nonneg (name : string) : 0 <= occurrence_count chars name.
Proof. unfold occurrence_count. destruct (Dict.find chars name); lia. Qed.

Lemma max_step_spec (max_name name : string) :
  name ∈ Dict.keys chars ->
  max_step chars (max_name, occurrence_count chars max_name) name
  = Ok (if occurrence_count chars max_name <? occurrence_count chars name
        then (name, occurrence_count chars name)
        else (max_name, occurrence_count chars max_name)).
Proof.
  intros Hin. unfold max_step.
  destruct (get_total chars name Hin) as (c & -> & Hc). simpl.
  assert (Hocc : occurrence_count chars name
                 = Z.of_nat (length (Character.occurences c))).
  { unfold occurrence_count. by rewrite Hc. }
  rewrite Hocc. by destruct (_ <? _).
Qed.

(** The loop keeps in [max_name] the first greatest name seen so far. *)
Lemma max_loop (l pre : list string) (max_name : string) :
  (forall n, n ∈ l -> n ∈ Dict.keys chars) ->
  first_max (occurrence_count chars) pre max_name ->
  exists m,
    for_each (max_step chars) l (max_name, occurrence_count chars max_name)
      = Ok (m, occurrence_count chars m)
    /\ first_max (occurrence_count chars) (pre ++ l) m.
Proof.
  revert pre max_name.
  induction l as [|n l IH]; intros pre max_name Hl Hmax; cbn [for_each].
  { exists max_name. by rewrite app_nil_r. }
  rewrite max_step_spec by (apply Hl; left). cbn [bind].
  destruct Hmax as (before & after & -> & Hbefore & Hafter).
  replace ((before ++ max_name :: after) ++ n :: l)
    with (((before ++ max_name :: after) ++ [n]) ++ l)
    by (by rewrite <- !app_assoc).
  destruct (Z.ltb_spec (occurrence_count chars max_name) (occurrence_count chars n))
    as [Hlt|Hge].
  - apply IH; [intros n' Hn'; apply Hl; by right|].
    exists (before ++ max_name :: after), []. split; [done|]. split; [|constructor].
    apply Forall_app. split.
    + eapply Forall_impl; [exact Hbefore|]. simpl. intros; lia.
    + constructor; [done|]. eapply Forall_impl; [exact Hafter|]. simpl. intros; lia.
  - apply IH; [intros n' Hn'; apply Hl; by right|].
    exists before, (after ++ [n]). split; [by rewrite <- !app_assoc|].
    split; [done|]. apply Forall_app. split; [done|]. by constructor.
Qed.

Lemma most_frequent_spec (names : list string) :
  names <> [] ->
  (forall n, n ∈ names -> n ∈ Dict.keys chars) ->
  exists m, most_frequent chars names = Ok m
            /\ first_max (occurrence_count chars) names m.
Proof.
  intros Hne Hin. destruct names as [|n0 names]; [done|].
  unfold most_frequent. change (py_index (n0 :: names) 0) with (Ok n0).
  cbn [bind for_each].
  assert (Hfirst : max_step chars (n0, 0) n0 = Ok (n0, occurrence_count chars n0)).
  { unfold max_step. destruct (get_total chars n0) as (c & -> & Hc); [apply Hin; left|].
    simpl. unfold occurrence_count. rewrite Hc.
    destruct (Z.ltb_spec 0 (Z.of_nat (length (Character.occurences c))));
      [done|]. do 2 f_equal. lia. }
  rewrite Hfirst. cbn [bind].
  destruct (max_loop names [n0] n0) as (m & -> & Hm).
  - intros n Hn. apply Hin. by right.
  - exists [], []. split; [done|]. split; constructor.
  - exists m. split; [done|]. exact Hm.
Qed.

(** There is one first greatest name. *)
Lemma first_max_unique (f : string -> Z) (names : list string) (m1 m2 : string) :
  first_max f names m1 -> first_max f names m2 -> m1 = m2.
Proof.
  intros (pre1 & post1 & H1 & Hb1 & Ha1) (pre2 & post2 & H2 & Hb2 & Ha2).
  assert (Hm12 : f m1 <= f m2 /\ f m2 <= f m1 -> length pre1 = length pre2 -> m1 = m2).
  { intros _ Hlen. rewrite H1 in H2. apply app_inj_1 in H2 as [_ H2]; [|done].
    by injection H2. }
  destruct (Nat.lt_trichotomy (length pre1) (length pre2)) as [Hlt|[Heq|Hgt]].
  - (* m1 lies before m2, so it is strictly below m2; m2 lies after m1 *)
    assert (Hin1 : pre2 !! length pre1 = Some m1).
    { assert (Hl : names !! length pre1 = Some m1)
        by (rewrite H1; by rewrite list_lookup_middle).
      rewrite H2, lookup_app_l in Hl by done. done. }
    assert (Hin2 : post1 !! (length pre2 - length pre1 - 1)%nat = Some m2).
    { assert (Hl : names !! length pre2 = Some m2)
        by (rewrite H2; by rewrite list_lookup_middle).
      rewrite H1, lookup_app_r in Hl by lia.
      rewrite lookup_cons_ne_0 in Hl by lia.
      rewrite <- Hl. f_equal. lia. }
    eapply Forall_lookup_1 in Hin1; [|exact Hb2]. simpl in Hin1.
    eapply Forall_lookup_1 in Hin2; [|exact Ha1]. simpl in Hin2. lia.
  - apply Hm12; [|done]. rewrite H1 in H2.
    apply app_inj_1 in H2 as [_ H2]; [|done]. injection H2 as -> _. lia.
  - assert (Hin1 : pre1 !! length pre2 = Some m2).
    { assert (Hl : names !! length pre2 = Some m2)
        by (rewrite H2; by rewrite list_lookup_middle).
      rewrite H1, lookup_app_l in Hl by done. done. }
    assert (Hin2 : post2 !! (length pre1 - length pre2 - 1)%nat = Some m1).
    { assert (Hl : names !! length pre1 = Some m1)
        by (rewrite H1; by rewrite list_lookup_middle).
      rewrite H2, lookup_app_r in Hl by lia.
      rewrite lookup_cons_ne_0 in Hl by lia.
      rewrite <- Hl. f_equal. lia. }
    eapply Forall_lookup_1 in Hin1; [|exact Hb1]. simpl in Hin1.
    eapply Forall_lookup_1 in Hin2; [|exact Ha2]. simpl in Hin2. lia.
Qed.

(** The unions the loop of lines 241-250 and 288-297 asks for: one per key,
    with the most frequent name of its list. *)
Lemma unite_most_frequent_calls (d : Dict.t (list string)) :
  (forall k names, (k, names) ∈ d ->
     names <> [] /\ forall n, n ∈ names -> n ∈ Dict.keys chars) ->
  exists calls,
    unite_most_frequent record_unite chars d [] = Ok calls
    /\ forall pair, pair ∈ calls
                    <-> exists names, (pair.1, names) ∈ d
                                      /\ most_frequent chars names = Ok pair.2.
Proof.
  intros Hd. unfold unite_most_frequent.
  destruct (for_each_collect
    (fun (e : string * list string) (pair : string * string) =>
       pair.1 = e.1 /\ most_frequent chars e.2 = Ok pair.2)
    (fun char_groups e =>
       let '(ref, names) := e in
       bind (most_frequent chars names) (fun max_name =>
         record_unite char_groups ref max_name))
    d []) as (calls & Hrun & Hcalls).
  - intros acc [k names] Hin. destruct (Hd k names Hin) as [Hne Hnames].
    destruct (most_frequent_spec names Hne Hnames) as (m & Hm & _).
    rewrite Hm. simpl. exists [(k, m)]. split; [done|].
    intros pair. rewrite list_elem_of_singleton. simpl. split.
    + by intros ->.
    + intros [H1 H2]. destruct pair as [p1 p2]. simpl in *. congruence.
  - exists calls. split; [done|]. intros pair. rewrite Hcalls. split.
    + intros ([k names] & Hin & H1 & H2). simpl in *. exists names.
      by rewrite H1.
    + intros (names & Hin & Hm). exists (pair.1, names). done.
Qed.

(** The unions the loop of lines 233-238 asks for. *)
Lemma unite_uncontested_calls (same_chars : Dict.t (gset string))
    (repeated_referents : Dict.t (list string)) :
  exists calls,
    unite_uncontested record_unite same_chars repeated_referents [] = Ok calls
    /\ forall pair, pair ∈ calls
                    <-> exists refs, (pair.1, refs) ∈ same_chars /\ pair.2 ∈ refs
                                     /\ pair.2 ∉ Dict.keys repeated_referents.
Proof.
  unfold unite_uncontested.
  destruct (for_each_collect
    (fun (e : string * gset string) (pair : string * string) =>
       pair.1 = e.1 /\ pair.2 ∈ e.2 /\ pair.2 ∉ Dict.keys repeated_referents)
    (fun char_groups e =>
       let '(name, refs) := e in
       for_each (fun char_groups ref =>
                   if str_in ref (Dict.keys repeated_referents)
                   then Ok char_groups
                   else record_unite char_groups name ref)
         (elements refs) char_groups)
    same_chars []) as (calls & Hrun & Hcalls).
  - intros acc [name refs] Hin.
    destruct (for_each_collect
      (fun (ref : string) (pair : string * string) =>
         pair = (name, ref) /\ ref ∉ Dict.keys repeated_referents)
      (fun char_groups ref =>
         if str_in ref (Dict.keys repeated_referents)
         then Ok char_groups
         else record_unite char_groups name ref)
      (elements refs) acc) as (ext & -> & Hext).
    + intros acc' ref Href.
      destruct (str_in ref (Dict.keys repeated_referents)) eqn:Hmem.
      * apply str_in_spec in Hmem. exists []. rewrite app_nil_r. split; [done|].
        intros pair. rewrite elem_of_nil. naive_solver.
      * assert (Hnot : ref ∉ Dict.keys repeated_referents).
        { intros H. apply str_in_spec in H. congruence. }
        exists [(name, ref)]. split; [done|].
        intros pair. rewrite list_elem_of_singleton. naive_solver.
    + exists ext. split; [done|]. intros pair. rewrite Hext. simpl. split.
      * intros (ref & Href & -> & Hnot). apply elem_of_elements in Href. done.
      * intros (H1 & H2 & H3). exists pair.2.
        split; [by apply elem_of_elements|]. destruct pair; simpl in *. by subst.
  - exists calls. split; [done|]. intros pair. rewrite Hcalls. split.
    + intros ([name refs] & Hin & H1 & H2 & H3). simpl in *. exists refs.
      by rewrite H1.
    + intros (refs & Hin & H2 & H3). exists (pair.1, refs). done.
Qed.

End MostFrequent.

Section Contested.
Import CharacterIdentification DictFacts AppendFacts.

Variable same_chars : Dict.t (gset string).

(** The entries that remain after lines 224-229 are the referents with two
    claimants or more, each bound to its claimants. *)
Lemma repeated_entry (ref : string) (names : list string) :
  (ref, names) ∈ drop_unrepeated (claimants_by_referent same_chars)
  <-> names = claimants same_chars ref /\ (2 <= length names)%nat.
Proof.
  destruct (claimants_by_referent_spec same_chars) as [Hproper Hget].
  destruct (drop_unrepeated_spec (claimants_by_referent same_chars))
    as [_ Hdrop]; [apply Hproper|].
  rewrite Hdrop. split.
  - intros [Hin Hlen]. split; [|done].
    apply (In_find _ _ _ (proj1 Hproper)) in Hin.
    rewrite <- Hget. unfold Dict.get_list. by rewrite Hin.
  - intros [-> Hlen]. split; [|done].
    apply find_Some_In. rewrite <- Hget. apply proper_find; [done|].
    rewrite Hget. intros Hnil. rewrite Hnil in Hlen. simpl in Hlen. lia.
Qed.

Lemma repeated_key (ref : string) :
  ref ∈ Dict.keys (drop_unrepeated (claimants_by_referent same_chars))
  <-> (2 <= length (claimants same_chars ref))%nat.
Proof.
  split.
  - intros Hin. apply find_is_Some in Hin as [names Hnames].
    apply find_Some_In, repeated_entry in Hnames as [-> ?]. done.
  - intros Hlen. eapply In_keys. by apply repeated_entry.
Qed.

End Contested.

(** C2. The unions of lines 233-250, on a filtered candidate map whose names
    are in the store. A referent with one claimant is united with it by the
    first loop and is no key of the second. A referent with two claimants or
    more is united by the second loop with the first of its claimants that has
    the most occurrences, with no other name, and the first loop leaves it
    out. *)
Theorem contested_referents (chars : Dict.t Character.t)
    (same_chars : Dict.t (gset string)) :
  (forall name, name ∈ Dict.keys same_chars -> name ∈ Dict.keys chars) ->
  let repeated_referents :=
    CharacterIdentification.drop_unrepeated
      (CharacterIdentification.claimants_by_referent same_chars) in
  exists uncontested contested,
    CharacterIdentification.unite_uncontested CharacterIdentification.record_unite
      same_chars repeated_referents [] = Ok uncontested
    /\ CharacterIdentification.unite_most_frequent CharacterIdentification.record_unite
         chars repeated_referents [] = Ok contested
    /\ forall ref,
         (forall name, claimants same_chars ref = [name] ->
            (name, ref) ∈ uncontested /\ forall x, (ref, x) ∉ contested)
         /\ ((2 <= length (claimants same_chars ref))%nat ->
             exists m,
               first_max (occurrence_count chars) (claimants same_chars ref) m
               /\ (forall x, (ref, x) ∈ contested <-> x = m)
               /\ forall name, (name, ref) ∉ uncontested).
Proof.
  intros Hnames repeated_referents.
  destruct (unite_uncontested_calls same_chars repeated_referents)
    as (uncontested & Hrun1 & Hcalls1).
  assert (Hknown : forall ref n, n ∈ claimants same_chars ref -> n ∈ Dict.keys chars).
  { intros ref n Hn. apply elem_of_claimants in Hn as (refs & Hin & _).
    eapply Hnames, DictFacts.In_keys, Hin. }
  destruct (unite_most_frequent_calls chars repeated_referents)
    as (contested & Hrun2 & Hcalls2).
  { intros k names Hin. apply repeated_entry in Hin as [-> Hlen]. split.
    - intros Hnil. rewrite Hnil in Hlen. simpl in Hlen. lia.
    - apply Hknown. }
  exists uncontested, contested. split; [done|]. split; [done|].
  intros ref. split.
  - intros name Hone.
    assert (Hnot : ref ∉ Dict.keys repeated_referents).
    { intros Hin. apply repeated_key in Hin. rewrite Hone in Hin. simpl in Hin. lia. }
    split.
    + apply Hcalls1. simpl.
      assert (Hin : name ∈ claimants same_chars ref) by (rewrite Hone; left).
      apply elem_of_claimants in Hin as (refs & Hin & Href). by exists refs.
    + intros x Hx. apply Hcalls2 in Hx as (names & Hin & _). simpl in Hin.
      apply Hnot. eapply DictFacts.In_keys, Hin.
  - intros Hlen.
    destruct (most_frequent_spec chars (claimants same_chars ref)) as (m & Hm & Hmax).
    { intros Hnil. rewrite Hnil in Hlen. simpl in Hlen. lia. }
    { apply Hknown. }
    exists m. split; [done|]. split.
    + intros x. rewrite Hcalls2. simpl. split.
      * intros (names & Hin & Hx). apply repeated_entry in Hin as [-> _]. congruence.
      * intros ->. exists (claimants same_chars ref). split; [|done].
        by apply repeated_entry.
    + intros name Hin. apply Hcalls1 in Hin as (refs & _ & _ & Hnot). simpl in Hnot.
      apply Hnot. by apply repeated_key.
Qed.

Lemma holmes_claims_known (name : string) :
  name ∈ Dict.keys holmes_claims -> name ∈ Dict.keys holmes_store.
Proof. intros H. cases_in H; subst; in_list. Qed.

Lemma contested_referents_witness :
  let repeated_referents :=
    CharacterIdentification.drop_unrepeated
      (CharacterIdentification.claimants_by_referent holmes_claims) in
  exists uncontested contested,
    CharacterIdentification.unite_uncontested CharacterIdentification.record_unite
      holmes_claims repeated_referents [] = Ok uncontested
    /\ CharacterIdentification.unite_most_frequent CharacterIdentification.record_unite
         holmes_store repeated_referents [] = Ok contested
    /\ forall ref,
         (forall name, claimants holmes_claims ref = [name] ->
            (name, ref) ∈ uncontested /\ forall x, (ref, x) ∉ contested)
         /\ ((2 <= length (claimants holmes_claims ref))%nat ->
             exists m,
               first_max (occurrence_count holmes_store) (claimants holmes_claims ref) m
               /\ (forall x, (ref, x) ∈ contested <-> x = m)
               /\ forall name, (name, ref) ∉ uncontested).
Proof.
  apply (contested_referents holmes_store holmes_claims).
  exact holmes_claims_known.
Defined.

(** The referent "Holmes" is claimed by a name seen twice and by a name seen
    five times: it is united with the latter only, while the referent with
    one claimant is united with that claimant. *)
Example contested_referents_holmes :
  let repeated_referents :=
    CharacterIdentification.drop_unrepeated
      (CharacterIdentification.claimants_by_referent holmes_claims) in
  repeated_referents = [("Holmes", ["Mycroft Holmes"; "Sherlock Holmes"])]
  /\ CharacterIdentification.unite_uncontested CharacterIdentification.record_unite
       holmes_claims repeated_referents [] = Ok [("Mr. Holmes", "Mrs. Hudson")]
  /\ CharacterIdentification.unite_most_frequent CharacterIdentification.record_unite
       holmes_store repeated_referents [] = Ok [("Holmes", "Sherlock Holmes")].
Proof. by vm_compute. Qed.

(** ** Cross-name correspondence *)

Section Correspondence.
Import CharacterIdentification DictFacts AppendFacts.

Lemma corresponds_b_sym (c1 c2 : Character.t) :
  corresponds_b c1 c2 = corresponds_b c2 c1.
Proof.
  unfold corresponds_b, title_unmatch.
  rewrite (String.eqb_sym (NameParsed.first (Character.name_parsed c1))),
    (String.eqb_sym (NameParsed.last (Character.name_parsed c1))),
    (String.eqb_sym (NameParsed.title (Character.name_parsed c1))
       (NameParsed.title (Character.name_parsed c2))).
  assert (Hg : bool_decide (Character.gender c1 = Character.gender c2)
               = bool_decide (Character.gender c2 = Character.gender c1)).
  { apply bool_decide_ext. split; congruence. }
  rewrite Hg.
  destruct (2 <=? empty_fields c1), (2 <=? empty_fields c2),
    (bool_decide _),
    (String.eqb (NameParsed.title (Character.name_parsed c1)) ""),
    (String.eqb (NameParsed.title (Character.name_parsed c2)) ""); done.
Qed.

Lemma corresponds_b_spec (c1 c2 : Character.t) :
  corresponds_b c1 c2 = true
  <-> empty_fields c1 < 2 /\ empty_fields c2 < 2
      /\ Character.gender c1 = Character.gender c2
      /\ ~ title_conflict c1 c2
      /\ (NameParsed.first (Character.name_parsed c1)
            = NameParsed.first (Character.name_parsed c2)
          \/ NameParsed.last (Character.name_parsed c1)
               = NameParsed.last (Character.name_parsed c2)).
Proof.
  unfold corresponds_b, title_conflict.
  rewrite !andb_true_iff, orb_true_iff, !negb_true_iff, !Z.leb_gt,
    !String.eqb_eq, bool_decide_eq_true, <- not_true_iff_false,
    title_unmatch_spec.
  tauto.
Qed.

Variable chars : Dict.t Character.t.

Lemma pair_corresponds_sym (a b : string) :
  pair_corresponds chars a b = pair_corresponds chars b a.
Proof.
  unfold pair_corresponds.
  destruct (Dict.find chars a), (Dict.find chars b); try done.
  apply corresponds_b_sym.
Qed.

Lemma pair_corresponds_spec (a b : string) :
  pair_corresponds chars a b = true <-> corresponds chars a b.
Proof.
  unfold pair_corresponds, corresponds. split.
  - destruct (Dict.find chars a) as [c1|], (Dict.find chars b) as [c2|]; try done.
    intros H. apply corresponds_b_spec in H. exists c1, c2. tauto.
  - intros (c1 & c2 & -> & -> & H). apply corresponds_b_spec. tauto.
Qed.

(** Lines 267-283 for one pair of names of the store, the first of them
    with fewer than two empty fields. *)
Lemma correspond_pair_spec (char1 char2 : string) (c1 : Character.t)
    (correnspondence : Dict.t (list string)) :
  Dict.find chars char1 = Some c1 -> char2 ∈ Dict.keys chars ->
  (2 <=? empty_fields c1) = false ->
  correspond_pair chars char1
    (NameParsed.first (Character.name_parsed c1))
    (NameParsed.last (Character.name_parsed c1))
    (NameParsed.title (Character.name_parsed c1)) correnspondence char2
  = Ok (record_pair chars correnspondence (char1, char2)).
Proof.
  intros Hc1 Hin Hinf. unfold correspond_pair, record_pair, pair_corresponds.
  destruct (get_total chars char2 Hin) as (c2 & Hget2 & Hc2).
  cbn [fst snd]. rewrite Hget2, Hc1, Hc2. cbn [bind].
  unfold corresponds_b. rewrite Hinf. fold (empty_fields c2).
  destruct (2 <=? empty_fields c2); [done|].
  apply get_Ok in Hc1. rewrite Hc1. cbn [bind negb andb].
  destruct (bool_decide _); [|done]. cbn [negb andb].
  destruct (title_unmatch _ _); [done|]. cbn [negb andb].
  by destruct (_ || _).
Qed.

Lemma record_uninformative (char1 : string) (c1 : Character.t) (l : list string)
    (correnspondence : Dict.t (list string)) :
  Dict.find chars char1 = Some c1 -> (2 <=? empty_fields c1) = true ->
  foldl (record_pair chars) correnspondence (map (pair char1) l) = correnspondence.
Proof.
  intros Hc1 Hinf. revert correnspondence.
  induction l as [|x l IH]; intros correnspondence; [done|]. simpl.
  unfold record_pair at 2, pair_corresponds. cbn [fst snd]. rewrite Hc1.
  destruct (Dict.find chars x) as [c2|]; [|apply IH].
  unfold corresponds_b. rewrite Hinf. cbn [negb andb]. apply IH.
Qed.

Lemma inner_pairs (char1 : string) (c1 : Character.t) (l : list string)
    (correnspondence : Dict.t (list string)) :
  Dict.find chars char1 = Some c1 ->
  (forall n, n ∈ l -> n ∈ Dict.keys chars) ->
  (2 <=? empty_fields c1) = false ->
  for_each (correspond_pair chars char1
              (NameParsed.first (Character.name_parsed c1))
              (NameParsed.last (Character.name_parsed c1))
              (NameParsed.title (Character.name_parsed c1))) l correnspondence
  = Ok (foldl (record_pair chars) correnspondence (map (pair char1) l)).
Proof.
  intros Hc1 Hl Hinf. revert correnspondence.
  induction l as [|x l IH]; intros correnspondence; [done|].
  cbn [for_each map foldl].
  rewrite (correspond_pair_spec char1 x c1) by (try done; apply Hl; left).
  cbn [bind]. apply IH. intros n Hn. apply Hl. by right.
Qed.

(** The two nested loops visit the ordered pairs of the key list. *)
Lemma outer_pairs (pre suf : list string) (correnspondence : Dict.t (list string)) :
  Dict.keys chars = pre ++ suf ->
  for_each (fun correnspondence (e : nat * string) =>
              let '(i, char1) := e in
              bind (Dict.get chars char1) (fun c1 =>
                let first1 := NameParsed.first (Character.name_parsed c1) in
                let last1 := NameParsed.last (Character.name_parsed c1) in
                let title1 := NameParsed.title (Character.name_parsed c1) in
                let l1 := [first1; last1; title1] in
                if 2 <=? count "" l1 then Ok correnspondence
                else for_each (correspond_pair chars char1 first1 last1 title1)
                       (drop (i + 1) (Dict.keys chars)) correnspondence))
    (imap (fun i char1 => ((length pre + i)%nat, char1)) (removelast suf))
    correnspondence
  = Ok (foldl (record_pair chars) correnspondence (ordered_pairs suf)).
Proof.
  revert pre correnspondence.
  induction suf as [|x suf IH]; intros pre correnspondence Hkeys; [done|].
  destruct suf as [|y suf]; [done|].
  change (removelast (x :: y :: suf)) with (x :: removelast (y :: suf)).
  rewrite imap_cons. cbn [for_each ordered_pairs]. rewrite foldl_app.
  assert (Hx : x ∈ Dict.keys chars).
  { rewrite Hkeys. apply elem_of_app. right. left. }
  destruct (get_total chars x Hx) as (c1 & -> & Hc1). cbn [bind].
  assert (Hdrop : drop (length pre + 0 + 1) (Dict.keys chars) = y :: suf).
  { rewrite Hkeys, Nat.add_0_r, drop_app_ge by lia.
    by replace (length pre + 1 - length pre)%nat with 1%nat by lia. }
  rewrite Hdrop. fold (empty_fields c1).
  assert (Hrest : forall n, n ∈ y :: suf -> n ∈ Dict.keys chars).
  { intros n Hn. rewrite Hkeys. apply elem_of_app. right. by right. }
  assert (Hnext : forall correnspondence',
    for_each (fun correnspondence (e : nat * string) =>
              let '(i, char1) := e in
              bind (Dict.get chars char1) (fun c1 =>
                let first1 := NameParsed.first (Character.name_parsed c1) in
                let last1 := NameParsed.last (Character.name_parsed c1) in
                let title1 := NameParsed.title (Character.name_parsed c1) in
                let l1 := [first1; last1; title1] in
                if 2 <=? count "" l1 then Ok correnspondence
                else for_each (correspond_pair chars char1 first1 last1 title1)
                       (drop (i + 1) (Dict.keys chars)) correnspondence))
      (imap ((fun i char1 => ((length pre + i)%nat, char1)) ∘ S)
         (removelast (y :: suf))) correnspondence'
    = Ok (foldl (record_pair chars) correnspondence' (ordered_pairs (y :: suf)))).
  { intros correnspondence'.
    rewrite (imap_ext _ (fun i char1 => ((length (pre ++ [x]) + i)%nat, char1))).
    - apply IH. by rewrite <- app_assoc.
    - intros i z _. simpl. rewrite length_app. simpl. f_equal. lia. }
  destruct (2 <=? empty_fields c1) eqn:Hinf.
  - cbn [bind]. rewrite (record_uninformative x c1) by done. apply Hnext.
  - rewrite (inner_pairs x c1) by done. cbn [bind]. apply Hnext.
Qed.

Lemma correspondences_eq :
  correspondences chars
  = Ok (foldl (record_pair chars) [] (ordered_pairs (Dict.keys chars))).
Proof. unfold correspondences. by apply (outer_pairs []). Qed.

End Correspondence.

Section CorrespondenceLists.
Import CharacterIdentification DictFacts AppendFacts.

Variable chars : Dict.t Character.t.

Lemma elem_of_ordered_pairs {A : Type} (l : list A) (a b : A) :
  (a, b) ∈ ordered_pairs l -> a ∈ l /\ b ∈ l.
Proof.
  induction l as [|x l IH]; simpl; [intros H; inversion H|].
  rewrite elem_of_app, list_elem_of_fmap. intros [(y & [= -> ->] & Hy) | H].
  - split; [left | by right].
  - destruct (IH H). split; by right.
Qed.

(** Two distinct elements of a list are visited as a pair, in one order or
    the other. *)
Lemma ordered_pairs_distinct {A : Type} (l : list A) (a b : A) :
  a <> b -> a ∈ l -> b ∈ l ->
  (a, b) ∈ ordered_pairs l \/ (b, a) ∈ ordered_pairs l.
Proof.
  intros Hne. induction l as [|x l IH]; intros Ha Hb; [inversion Ha|]. simpl.
  rewrite !elem_of_app, !list_elem_of_fmap.
  apply elem_of_cons in Ha as [-> | Ha]; apply elem_of_cons in Hb as [-> | Hb].
  - done.
  - left. left. by exists b.
  - right. left. by exists a.
  - destruct (IH Ha Hb); [left | right]; by right.
Qed.

(** What the visited pairs leave in the lists of the dictionary. *)
Lemma record_pairs_spec (ps : list (string * string))
    (correnspondence : Dict.t (list string)) (x y : string) :
  y ∈ Dict.get_list (foldl (record_pair chars) correnspondence ps) x
  <-> y ∈ Dict.get_list correnspondence x
      \/ exists p, p ∈ ps /\ pair_corresponds chars p.1 p.2 = true
                   /\ (p = (x, y) \/ p = (y, x)).
Proof.
  revert correnspondence. induction ps as [|[a b] ps IH]; intros correnspondence; simpl.
  { split; [by left|]. intros [?|(p & Hp & _)]; [done | inversion Hp]. }
  rewrite IH. unfold record_pair. cbn [fst snd].
  destruct (pair_corresponds chars a b) eqn:Hab.
  - rewrite !get_list_append, !elem_of_app. split.
    + intros [[[H|H]|H]|(p & Hp & Hc & Hxy)].
      * by left.
      * destruct (String.eqb_spec a x) as [->|]; [|inversion H].
        apply list_elem_of_singleton in H as ->.
        right. exists (x, b). split; [left|]. split; [done | by left].
      * destruct (String.eqb_spec b x) as [->|]; [|inversion H].
        apply list_elem_of_singleton in H as ->.
        right. exists (a, x). split; [left|]. split; [done | by right].
      * right. exists p. split; [by right | done].
    + intros [H|(p & Hp & Hc & Hxy)]; [by left; left; left|].
      apply elem_of_cons in Hp as [-> | Hp]; [|right; by exists p].
      left. destruct Hxy as [[= -> ->] | [= -> ->]].
      * left. right. rewrite String.eqb_refl. left.
      * right. rewrite String.eqb_refl. left.
  - split.
    + intros [H|(p & Hp & Hc & Hxy)]; [by left|].
      right. exists p. split; [by right | done].
    + intros [H|(p & Hp & Hc & Hxy)]; [by left|].
      apply elem_of_cons in Hp as [-> | Hp]; [|right; by exists p].
      simpl in Hc. congruence.
Qed.

Lemma record_pairs_proper (ps : list (string * string))
    (correnspondence : Dict.t (list string)) :
  proper correnspondence -> proper (foldl (record_pair chars) correnspondence ps).
Proof.
  revert correnspondence. induction ps as [|p ps IH]; intros correnspondence H; [done|].
  simpl. apply IH. unfold record_pair.
  destruct (pair_corresponds chars p.1 p.2); [|done]. by do 2 apply proper_append.
Qed.

(** The dictionary of correspondences: its keys are distinct, its lists
    are non-empty and hold names of the store, and two distinct names of the
    store are in each other's list exactly when they correspond. *)
Lemma correspondences_spec :
  exists correnspondence,
    correspondences chars = Ok correnspondence
    /\ proper correnspondence
    /\ (forall a b, b ∈ Dict.get_list correnspondence a -> b ∈ Dict.keys chars)
    /\ (forall a b, a <> b -> a ∈ Dict.keys chars -> b ∈ Dict.keys chars ->
          (b ∈ Dict.get_list correnspondence a <-> corresponds chars a b)).
Proof.
  eexists. split; [apply correspondences_eq|]. split.
  { apply record_pairs_proper. split; [constructor|]. intros k l H. inversion H. }
  split.
  - intros a b Hb. apply record_pairs_spec in Hb as [Hb|(p & Hp & _ & Hxy)];
      [inversion Hb|].
    destruct p as [p1 p2]. apply elem_of_ordered_pairs in Hp as [H1 H2].
    destruct Hxy as [[= -> ->] | [= -> ->]]; done.
  - intros a b Hne Ha Hb. rewrite record_pairs_spec, <- pair_corresponds_spec. split.
    + intros [H|(p & Hp & Hc & [-> | ->])]; [inversion H | done |].
      by rewrite pair_corresponds_sym.
    + intros Hc. right.
      destruct (ordered_pairs_distinct (Dict.keys chars) a b Hne Ha Hb) as [H|H].
      * exists (a, b). split; [done|]. split; [done | by left].
      * exists (b, a). split; [done|]. split; [|by right].
        simpl. by rewrite pair_corresponds_sym.
Qed.

(** The list of [x] after the visited pairs, in the order of the visits. *)
Lemma get_list_record_pairs (ps : list (string * string))
    (correnspondence : Dict.t (list string)) (x : string) :
  Dict.get_list (foldl (record_pair chars) correnspondence ps) x
  = Dict.get_list correnspondence x ++ flat_map (recorded_for chars x) ps.
Proof.
  revert correnspondence. induction ps as [|p ps IH]; intros correnspondence; simpl.
  { by rewrite app_nil_r. }
  rewrite IH. unfold record_pair, recorded_for.
  destruct (pair_corresponds chars p.1 p.2); [|done].
  by rewrite !get_list_append, <- !app_assoc.
Qed.

Lemma flat_map_nil {A B : Type} (f : A -> list B) (l : list A) :
  (forall a, a ∈ l -> f a = []) -> flat_map f l = [].
Proof.
  induction l as [|a l IH]; intros H; [done|]. simpl.
  rewrite (H a) by left. apply IH. intros b Hb. apply H. by right.
Qed.

Lemma filter_none {A : Type} (f : A -> bool) (l : list A) :
  (forall a, a ∈ l -> f a = false) -> List.filter f l = [].
Proof.
  induction l as [|a l IH]; intros H; [done|]. simpl.
  rewrite (H a) by left. apply IH. intros b Hb. apply H. by right.
Qed.

(** The pairs of a list without [x] add nothing to the list of [x]. *)
Lemma recorded_absent (l : list string) (x : string) :
  x ∉ l -> flat_map (recorded_for chars x) (ordered_pairs l) = [].
Proof.
  intros Hx. apply flat_map_nil. intros [a b] Hab.
  apply elem_of_ordered_pairs in Hab as [Ha Hb]. unfold recorded_for. cbn [fst snd].
  destruct (String.eqb_spec a x) as [->|_]; [done|].
  destruct (String.eqb_spec b x) as [->|_]; [done|].
  by destruct (pair_corresponds chars a b).
Qed.

(** The pairs that begin with another name [y] add [y] to the list of [x]
    when [x] comes after [y] and corresponds to it. *)
Lemma recorded_head (l : list string) (x y : string) :
  y <> x -> NoDup l ->
  flat_map (recorded_for chars x) (map (pair y) l)
  = if decide (x ∈ l)
    then (if pair_corresponds chars y x then [y] else [])
    else [].
Proof.
  intros Hne. induction l as [|b l IH]; intros Hnd; [done|].
  apply NoDup_cons in Hnd as [Hb Hnd]. cbn [map flat_map].
  rewrite (IH Hnd). unfold recorded_for. cbn [fst snd].
  destruct (String.eqb_spec y x) as [?|_]; [done|].
  destruct (String.eqb_spec b x) as [->|Hbx].
  - rewrite (decide_False (P := x ∈ l)) by done.
    rewrite (decide_True (P := x ∈ x :: l)) by left.
    destruct (pair_corresponds chars y x); by rewrite ?app_nil_r.
  - destruct (decide (x ∈ l)) as [Hin|Hnot].
    + rewrite (decide_True (P := x ∈ b :: l)) by (by right).
      by destruct (pair_corresponds chars y b).
    + rewrite (decide_False (P := x ∈ b :: l))
        by (rewrite not_elem_of_cons; split; congruence).
      by destruct (pair_corresponds chars y b).
Qed.

(** The pairs that begin with [x] add to its list the names after it that
    correspond to it, in their order. *)
Lemma recorded_self (l : list string) (x : string) :
  x ∉ l ->
  flat_map (recorded_for chars x) (map (pair x) l)
  = List.filter (fun b => negb (String.eqb b x) && pair_corresponds chars x b) l.
Proof.
  induction l as [|b l IH]; intros Hx; [done|].
  apply not_elem_of_cons in Hx as [Hne Hx]. cbn [map flat_map List.filter].
  rewrite (IH Hx). unfold recorded_for. cbn [fst snd].
  rewrite String.eqb_refl.
  destruct (String.eqb_spec b x) as [?|_]; [congruence|]. cbn [negb andb].
  by destruct (pair_corresponds chars x b).
Qed.

Lemma recorded_pairs (l : list string) (x : string) :
  NoDup l -> x ∈ l ->
  flat_map (recorded_for chars x) (ordered_pairs l)
  = List.filter (fun b => negb (String.eqb b x) && pair_corresponds chars x b) l.
Proof.
  induction l as [|y l IH]; intros Hnd Hx; [inversion Hx|].
  apply NoDup_cons in Hnd as [Hy Hnd]. cbn [ordered_pairs List.filter].
  rewrite flat_map_app.
  destruct (String.eqb_spec y x) as [->|Hne]; cbn [negb andb].
  - by rewrite recorded_self, recorded_absent, app_nil_r.
  - apply elem_of_cons in Hx as [?|Hx]; [congruence|].
    rewrite recorded_head, decide_True, (IH Hnd Hx), (pair_corresponds_sym chars x y)
      by done.
    by destruct (pair_corresponds chars y x).
Qed.

(** In a store without a repeated key the list of a name holds the names
    that correspond to it, in the order of the store. *)
Lemma correspondences_lists (a : string) :
  NoDup (Dict.keys chars) ->
  Dict.get_list (foldl (record_pair chars) [] (ordered_pairs (Dict.keys chars))) a
  = correspondents chars a.
Proof.
  intros Hnd. rewrite get_list_record_pairs. cbn [Dict.get_list Dict.find app].
  unfold correspondents.
  destruct (decide (a ∈ Dict.keys chars)) as [Hin|Hnot]; [by apply recorded_pairs|].
  rewrite recorded_absent by done. symmetry. apply filter_none.
  intros b _. unfold pair_corresponds.
  apply find_None in Hnot. rewrite Hnot. apply andb_false_r.
Qed.

(** The unions that the loop asks for, one for each key in order. *)
Lemma unite_most_frequent_order (d : Dict.t (list string))
    (acc calls : list (string * string)) :
  unite_most_frequent record_unite chars d acc = Ok calls ->
  map fst calls = map fst acc ++ Dict.keys d.
Proof.
  unfold unite_most_frequent. revert acc.
  induction d as [|[ref names] d IH]; intros acc Hrun.
  { injection Hrun as <-. by rewrite app_nil_r. }
  cbn [for_each] in Hrun.
  destruct (most_frequent chars names) as [m|]; [|done].
  cbn [bind record_unite] in Hrun. rewrite (IH _ Hrun), map_app.
  by rewrite <- app_assoc.
Qed.

Lemma corresponds_sym (a b : string) : corresponds chars a b -> corresponds chars b a.
Proof.
  intros H. apply pair_corresponds_spec. rewrite pair_corresponds_sym.
  by apply pair_corresponds_spec.
Qed.

End CorrespondenceLists.

(** C8. On a store without a repeated key the pass of lines 255-297
    completes. Two distinct names of the store are recorded in each other's
    list exactly when each has fewer than two empty fields among title, first
    and last name, their genders are equal as values, their titles do not
    conflict, and their first names or their last names are equal. The list of
    a name is the list of the names that correspond to it, in the order of the
    store. Afterwards one union is asked for each name with a non-empty list,
    in the order of the dictionary: the name is united with the first name, in
    the order of the store, that has the most occurrences among those that
    correspond to it, and with that name only; a name without correspondence
    is not united by this pass. Two names that share a last name but have the
    genders UNKNOWN and MALE do not correspond. *)
Theorem cross_name_correspondence (chars : Dict.t Character.t) :
  NoDup (Dict.keys chars) ->
  exists correnspondence calls,
    CharacterIdentification.correspondences chars = Ok correnspondence
    /\ CharacterIdentification.unite_most_frequent CharacterIdentification.record_unite
         chars correnspondence [] = Ok calls
    /\ (forall a b, a <> b -> a ∈ Dict.keys chars -> b ∈ Dict.keys chars ->
          (b ∈ Dict.get_list correnspondence a <-> corresponds chars a b)
          /\ (a ∈ Dict.get_list correnspondence b <-> corresponds chars a b))
    /\ (forall a b, pair_corresponds chars a b = true <-> corresponds chars a b)
    /\ (forall a, Dict.get_list correnspondence a = correspondents chars a)
    /\ (forall a,
          Dict.get_list correnspondence a <> [] ->
          exists m,
            first_max (occurrence_count chars) (correspondents chars a) m
            /\ forall x, (a, x) ∈ calls <-> x = m)
    /\ (forall a x, (a, x) ∈ calls -> Dict.get_list correnspondence a <> [])
    /\ map fst calls = Dict.keys correnspondence
    /\ NoDup (Dict.keys correnspondence)
    /\ ~ corresponds unknown_and_male "Mr. Holmes" "Sherlock Holmes".
Proof.
  intros Hnd.
  destruct (correspondences_spec chars)
    as (correnspondence & Hrun & Hproper & Hknown & Hiff).
  assert (Hentry : forall k names, (k, names) ∈ correnspondence ->
                     names = Dict.get_list correnspondence k).
  { intros k names Hin. apply (AppendFacts.In_find _ _ _ (proj1 Hproper)) in Hin.
    unfold Dict.get_list. by rewrite Hin. }
  assert (Hlists : forall a, Dict.get_list correnspondence a = correspondents chars a).
  { intros a. pose proof (correspondences_eq chars) as Heq.
    rewrite Hrun in Heq. injection Heq as ->. by apply correspondences_lists. }
  destruct (unite_most_frequent_calls chars correnspondence)
    as (calls & Hrun2 & Hcalls).
  { intros k names Hin. split; [by eapply (proj2 Hproper)|].
    intros n Hn. apply (Hknown k). by rewrite <- (Hentry k names). }
  exists correnspondence, calls. split; [done|]. split; [done|]. split_and!.
  - intros a b Hne Ha Hb. split; [by apply Hiff|].
    rewrite Hiff by done. split; apply corresponds_sym.
  - intros a b. apply pair_corresponds_spec.
  - exact Hlists.
  - intros a Hlist.
    destruct (most_frequent_spec chars (Dict.get_list correnspondence a))
      as (m & Hm & Hmax); [done | apply Hknown |].
    exists m. split; [by rewrite <- Hlists|]. intros x. rewrite Hcalls. simpl. split.
    + intros (names & Hin & Hx). apply Hentry in Hin as ->. congruence.
    + intros ->. exists (Dict.get_list correnspondence a). split; [|done].
      apply DictFacts.find_Some_In. by apply AppendFacts.proper_find.
  - intros a x Hin. apply Hcalls in Hin as (names & Hin & _). simpl in Hin.
    rewrite <- (Hentry a names Hin). by eapply (proj2 Hproper).
  - by apply unite_most_frequent_order in Hrun2.
  - exact (proj1 Hproper).
  - intros (c1 & c2 & [= <-] & [= <-] & _ & _ & Hg & _). simpl in Hg. congruence.
Qed.

Lemma cross_name_correspondence_witness :
  exists correnspondence calls,
    CharacterIdentification.correspondences ann_store = Ok correnspondence
    /\ CharacterIdentification.unite_most_frequent CharacterIdentification.record_unite
         ann_store correnspondence [] = Ok calls
    /\ (forall a b, a <> b -> a ∈ Dict.keys ann_store -> b ∈ Dict.keys ann_store ->
          (b ∈ Dict.get_list correnspondence a <-> corresponds ann_store a b)
          /\ (a ∈ Dict.get_list correnspondence b <-> corresponds ann_store a b))
    /\ (forall a b, pair_corresponds ann_store a b = true <-> corresponds ann_store a b)
    /\ (forall a, Dict.get_list correnspondence a = correspondents ann_store a)
    /\ (forall a,
          Dict.get_list correnspondence a <> [] ->
          exists m,
            first_max (occurrence_count ann_store) (correspondents ann_store a) m
            /\ forall x, (a, x) ∈ calls <-> x = m)
    /\ (forall a x, (a, x) ∈ calls -> Dict.get_list correnspondence a <> [])
    /\ map fst calls = Dict.keys correnspondence
    /\ NoDup (Dict.keys correnspondence)
    /\ ~ corresponds unknown_and_male "Mr. Holmes" "Sherlock Holmes".
Proof.
  apply (cross_name_correspondence ann_store).
  apply (bool_decide_unpack _). vm_compute. exact I.
Defined.

(** On the three names that share a first name: each list is in the order of
    the store, and the first name, whose two correspondents are seen twice
    each, is united with the one that comes first in the store. *)
Example cross_name_correspondence_tie :
  correspondents ann_store "Ann Smith" = ["Ann Jones"; "Ann Brown"]
  /\ CharacterIdentification.correspondences ann_store
     = Ok [("Ann Smith", ["Ann Jones"; "Ann Brown"]);
           ("Ann Jones", ["Ann Smith"; "Ann Brown"]);
           ("Ann Brown", ["Ann Smith"; "Ann Jones"])]
  /\ CharacterIdentification.unite_most_frequent CharacterIdentification.record_unite
       ann_store
       [("Ann Smith", ["Ann Jones"; "Ann Brown"]);
        ("Ann Jones", ["Ann Smith"; "Ann Brown"]);
        ("Ann Brown", ["Ann Smith"; "Ann Jones"])] []
     = Ok [("Ann Smith", "Ann Jones"); ("Ann Jones", "Ann Brown");
           ("Ann Brown", "Ann Jones")].
Proof. by vm_compute. Qed.

(** On the Holmes store: the three male names that share a first or a last
    name correspond with each other, the name of unknown gender and the female
    name with no one, and each name is united with its most frequent
    correspondent. *)
Example cross_name_correspondence_holmes :
  CharacterIdentification.correspondences holmes_store
  = Ok [("Mr. Holmes", ["Sherlock Holmes"; "Mycroft Holmes"]);
        ("Sherlock Holmes", ["Mr. Holmes"; "Mycroft Holmes"]);
        ("Mycroft Holmes", ["Mr. Holmes"; "Sherlock Holmes"])]
  /\ CharacterIdentification.unite_most_frequent CharacterIdentification.record_unite
       holmes_store
       [("Mr. Holmes", ["Sherlock Holmes"; "Mycroft Holmes"]);
        ("Sherlock Holmes", ["Mr. Holmes"; "Mycroft Holmes"]);
        ("Mycroft Holmes", ["Mr. Holmes"; "Sherlock Holmes"])] []
     = Ok [("Mr. Holmes", "Sherlock Holmes"); ("Sherlock Holmes", "Mycroft Holmes");
           ("Mycroft Holmes", "Sherlock Holmes")].
Proof. by vm_compute. Qed.

(** ** The disjoint-set structure *)

Section Grouping.
Import CharacterGrouping.

Lemma init_covers (names : list string) : covers names (init names).
Proof.
  intros n Hn. exists {[ n ]}. split; [|by apply elem_of_singleton].
  unfold init. apply list_elem_of_fmap. by exists n.
Qed.

Lemma group_of_covered (names : list string) (cg : t) (a : string) :
  covers names cg -> a ∈ names ->
  exists g, group_of cg a = Some g /\ g ∈ cg /\ a ∈ g.
Proof.
  intros Hcov Ha. destruct (Hcov a Ha) as (g0 & Hg0 & Hin0).
  unfold group_of. destruct (List.find _ cg) as [g|] eqn:Hfind.
  - apply find_some in Hfind as [Hg Hin]. exists g. split; [done|].
    split; [by apply list_elem_of_In|]. by apply bool_decide_eq_true in Hin.
  - exfalso. apply list_elem_of_In in Hg0.
    pose proof (find_none _ _ Hfind g0 Hg0) as Hno. simpl in Hno.
    by apply bool_decide_eq_false in Hno.
Qed.

(** On names of the structure [unite] returns, and every name keeps a
    group. *)
Lemma unite_total (names : list string) (cg : t) (a b : string) :
  covers names cg -> a ∈ names -> b ∈ names ->
  exists cg', unite cg a b = Ok cg' /\ covers names cg'.
Proof.
  intros Hcov Ha Hb.
  destruct (group_of_covered names cg a Hcov Ha) as (ga & Hga & Hga_in & Ha_in).
  destruct (group_of_covered names cg b Hcov Hb) as (gb & Hgb & Hgb_in & Hb_in).
  unfold unite. rewrite Hga, Hgb.
  destruct (decide (ga = gb)) as [Heq|Hne]; [eauto|].
  eexists. split; [done|]. intros n Hn.
  destruct (Hcov n Hn) as (g & Hg & Hin).
  destruct (decide (g = gb)) as [->|Hgb_ne].
  - exists (ga ∪ gb). split; [|set_solver].
    apply list_elem_of_fmap. exists ga. rewrite decide_True by done.
    split; [done|]. by apply list_elem_of_filter.
  - exists (if decide (g = ga) then ga ∪ gb else g). split.
    + apply list_elem_of_fmap. exists g. split; [done|].
      by apply list_elem_of_filter.
    + destruct (decide (g = ga)); set_solver.
Qed.

End Grouping.

(** ** Unification as a whole *)

Section Unify.
Import CharacterIdentification DictFacts AppendFacts.

Variable chars : Dict.t Character.t.

Lemma In_set {V : Type} (d : Dict.t V) (k : string) (v : V) (e : string * V) :
  e ∈ Dict.set d k v -> e ∈ d \/ e = (k, v).
Proof.
  induction d as [|[k1 v1] d IH]; simpl.
  - intros H. apply list_elem_of_singleton in H. by right.
  - destruct (String.eqb_spec k1 k) as [->|Hne].
    + intros H. apply elem_of_cons in H as [-> | H]; [by right | left; by right].
    + intros H. apply elem_of_cons in H as [-> | H]; [left; left|].
      destruct (IH H); [left; by right | by right].
Qed.

Lemma keys_set_iff {V : Type} (d : Dict.t V) (k : string) (v : V) (k' : string) :
  k' ∈ Dict.keys (Dict.set d k v) <-> k' ∈ Dict.keys d \/ k' = k.
Proof.
  rewrite <- !find_is_Some, find_set.
  destruct (String.eqb_spec k k') as [->|Hne].
  - split; [by right | by eauto].
  - split; [by left | intros [?|?]; [done | congruence]].
Qed.

(** Lines 188-193: the candidate map has the keys of the referent map, and
    its sets hold names of the store. *)
Lemma present_referents_spec (referents : Dict.t (list string)) :
  (forall k, k ∈ Dict.keys (present_referents chars referents)
             <-> k ∈ Dict.keys referents)
  /\ (forall name refs ref, (name, refs) ∈ present_referents chars referents ->
        ref ∈ refs -> ref ∈ Dict.keys chars).
Proof.
  unfold present_referents.
  assert (H : forall l (d : Dict.t (gset string)),
    let d' := foldl (fun same_chars (e : string * list string) =>
                       let '(name, ref) := e in
                       Dict.set same_chars name
                         (list_to_set (Dict.keys chars) ∩ list_to_set ref)) d l in
    (forall k, k ∈ Dict.keys d' <-> k ∈ Dict.keys d \/ k ∈ Dict.keys l)
    /\ (forall name refs, (name, refs) ∈ d' ->
          (name, refs) ∈ d \/ refs ⊆ list_to_set (Dict.keys chars))).
  { induction l as [|[name ref] l IH]; intros d; simpl.
    - split; [|by left]. intros k. split; [by left|].
      intros [?|H]; [done | inversion H].
    - destruct (IH (Dict.set d name
                      (list_to_set (Dict.keys chars) ∩ list_to_set ref)))
        as [Hkeys Hents].
      split.
      + intros k. rewrite Hkeys, keys_set_iff, elem_of_cons. tauto.
      + intros n refs Hin. destruct (Hents n refs Hin) as [Hset|?]; [|by right].
        apply In_set in Hset as [?|[= -> ->]]; [by left|]. right. set_solver. }
  destruct (H referents []) as [Hkeys Hents]. split.
  - intros k. rewrite Hkeys. split; [|by right].
    intros [Hk|?]; [inversion Hk | done].
  - intros name refs ref Hin Href.
    destruct (Hents name refs Hin) as [Hnil|Hsub]; [inversion Hnil|].
    apply Hsub in Href. by apply elem_of_list_to_set in Href.
Qed.

(** Lines 212-213 keep the keys and only shrink the sets. *)
Lemma discard_pairs_entries (to_remove : list (string * string))
    (same_chars : Dict.t (gset string)) :
  Dict.keys (discard_pairs same_chars to_remove) = Dict.keys same_chars
  /\ forall name refs', (name, refs') ∈ discard_pairs same_chars to_remove ->
       exists refs, (name, refs) ∈ same_chars /\ refs' ⊆ refs.
Proof.
  revert same_chars. induction to_remove as [|[n r] to_remove IH];
    intros same_chars; simpl.
  { split; [done|]. intros name refs' H. by exists refs'. }
  destruct (IH (Dict.modify (fun refs => refs ∖ {[ r ]}) same_chars n))
    as [Hkeys Hents].
  split; [by rewrite Hkeys, keys_modify|].
  intros name refs' Hin. destruct (Hents name refs' Hin) as (refs1 & Hin1 & Hsub).
  apply In_modify in Hin1 as (refs & Hin0 & ->). exists refs. split; [done|].
  destruct (String.eqb name n); set_solver.
Qed.

Lemma get_raises {V : Type} (d : Dict.t V) (k : string) :
  raises_within (eq KeyError) (Dict.get d k).
Proof. unfold Dict.get. by destruct (Dict.find d k). Qed.

Lemma check_pair_raises (name : string) (gender1 : option Gender)
    (to_remove : list (string * string)) (ref : string) :
  raises_within (eq KeyError) (check_pair chars name gender1 to_remove ref).
Proof.
  unfold check_pair.
  apply raises_within_bind; [apply get_raises|]. intros c2 _.
  apply raises_within_bind; [apply get_raises|]. intros c1 _.
  apply raises_within_bind; [apply get_raises|]. intros c2' _.
  by destruct (title_unmatch _ _).
Qed.

(** A loop fails when the body fails on one element, whatever the state. *)
Lemma for_each_raises {A S : Type} (E : exn -> Prop) (body : S -> A -> result S)
    (xs : list A) (s : S) :
  (forall s x, x ∈ xs -> raises_within E (body s x)) ->
  (exists x, x ∈ xs /\ forall s, exists e, body s x = Raise e) ->
  exists e, for_each body xs s = Raise e /\ E e.
Proof.
  revert s. induction xs as [|x xs IH]; intros s Hwithin (y & Hy & Hfail).
  { inversion Hy. }
  simpl. pose proof (Hwithin s x ltac:(left)) as Hx.
  destruct (body s x) as [s'|e] eqn:Hbody; simpl; [|by exists e].
  apply IH; [intros s2 z Hz; apply Hwithin; by right|].
  apply elem_of_cons in Hy as [-> | Hy]; [|by exists y].
  destruct (Hfail s) as [e He]. congruence.
Qed.

(** Lines 196-210 raise [KeyError] when a name of the candidate map is not
    in the store. *)
Lemma inconsistent_pairs_unknown (same_chars : Dict.t (gset string)) (name : string) :
  name ∈ Dict.keys same_chars -> name ∉ Dict.keys chars ->
  inconsistent_pairs chars same_chars = Raise KeyError.
Proof.
  intros Hin Hnot. unfold inconsistent_pairs.
  destruct (for_each_raises (eq KeyError)
    (fun to_remove (e : string * gset string) =>
       let '(name, refs) := e in
       bind (Dict.get chars name) (fun c1 =>
         let gender1 := Character.gender c1 in
         for_each (check_pair chars name gender1) (elements refs) to_remove))
    same_chars []) as (e & Hrun & <-); [| |exact Hrun].
  - intros s [n refs] _. apply raises_within_bind; [apply get_raises|].
    intros c1 _. apply raises_within_for_each. intros s' ref _.
    apply check_pair_raises.
  - apply find_is_Some in Hin as [refs Hrefs]. exists (name, refs).
    split; [by apply find_Some_In|]. intros s. exists KeyError.
    apply find_None in Hnot. unfold Dict.get. by rewrite Hnot.
Qed.

(** The first loop of unions returns on a candidate map over the store. *)
Lemma unite_uncontested_total (same_chars : Dict.t (gset string))
    (repeated_referents : Dict.t (list string)) (cg : CharacterGrouping.t) :
  (forall name refs, (name, refs) ∈ same_chars ->
     name ∈ Dict.keys chars /\ forall ref, ref ∈ refs -> ref ∈ Dict.keys chars) ->
  covers (Dict.keys chars) cg ->
  exists cg', unite_uncontested CharacterGrouping.unite same_chars
                repeated_referents cg = Ok cg'
              /\ covers (Dict.keys chars) cg'.
Proof.
  intros Hsc Hcov. unfold unite_uncontested.
  apply (for_each_total (covers (Dict.keys chars))); [done|].
  intros cg1 [name refs] Hin Hcov1. destruct (Hsc name refs Hin) as [Hname Hrefs].
  apply (for_each_total (covers (Dict.keys chars))); [done|].
  intros cg2 ref Href Hcov2. apply elem_of_elements in Href.
  destruct (str_in ref (Dict.keys repeated_referents)); [eauto|].
  apply unite_total; [done | done | by apply Hrefs].
Qed.

Lemma first_max_in (f : string -> Z) (names : list string) (m : string) :
  first_max f names m -> m ∈ names.
Proof.
  intros (pre & post & -> & _). apply elem_of_app. right. left.
Qed.

(** The loop of lines 241-250 and 288-297 returns on a dictionary over the
    store whose lists are not empty. *)
Lemma unite_most_frequent_total (d : Dict.t (list string)) (cg : CharacterGrouping.t) :
  (forall k names, (k, names) ∈ d ->
     k ∈ Dict.keys chars /\ names <> []
     /\ forall n, n ∈ names -> n ∈ Dict.keys chars) ->
  covers (Dict.keys chars) cg ->
  exists cg', unite_most_frequent CharacterGrouping.unite chars d cg = Ok cg'
              /\ covers (Dict.keys chars) cg'.
Proof.
  intros Hd Hcov. unfold unite_most_frequent.
  apply (for_each_total (covers (Dict.keys chars))); [done|].
  intros cg1 [k names] Hin Hcov1. destruct (Hd k names Hin) as (Hk & Hne & Hnames).
  destruct (most_frequent_spec chars names Hne Hnames) as (m & -> & Hm). simpl.
  apply unite_total; [done | done |]. by apply Hnames, (first_max_in _ _ _ Hm).
Qed.

End Unify.

Lemma bind_eq {A B : Type} (m : result A) (k : A -> result B) (a : A) (r : result B) :
  m = Ok a -> k a = r -> bind m k = r.
Proof. by intros -> <-. Qed.

Section Outcome.
Import CharacterIdentification DictFacts AppendFacts.

Variable unify_referents : Dict.t Character.t -> Dict.t (list string).
Variable chars : Dict.t Character.t.

Lemma correspondences_keys (k : string) :
  k ∈ Dict.keys (foldl (record_pair chars) [] (ordered_pairs (Dict.keys chars))) ->
  k ∈ Dict.keys chars.
Proof.
  intros Hk.
  assert (Hproper : proper (foldl (record_pair chars) []
                              (ordered_pairs (Dict.keys chars)))).
  { apply record_pairs_proper. split; [constructor|]. intros ? ? H. inversion H. }
  apply (proper_keys _ _ Hproper) in Hk.
  destruct (Dict.get_list _ k) as [|y l] eqn:Hlist; [done|].
  assert (Hy : y ∈ Dict.get_list (foldl (record_pair chars) []
                                    (ordered_pairs (Dict.keys chars))) k)
    by (rewrite Hlist; left).
  apply record_pairs_spec in Hy as [Hy|(p & Hp & _ & Hxy)]; [inversion Hy|].
  destruct p as [p1 p2]. apply elem_of_ordered_pairs in Hp as [H1 H2].
  destruct Hxy as [[= -> ->] | [= -> ->]]; done.
Qed.

(** With every name of the referent map in the store, the method returns
    groups, and every name of the store is in one of them. *)
Lemma unify_occurences_returns (d : Doc.t) :
  (forall name, name ∈ Dict.keys (unify_referents chars) -> name ∈ Dict.keys chars) ->
  exists groups,
    unify_occurences unify_referents (CharacterIdentification.mk d (Some chars))
      = Ok groups
    /\ covers (Dict.keys chars) groups.
Proof.
  intros Hknown.
  pose (same_chars := present_referents chars (unify_referents chars)).
  destruct (present_referents_spec chars (unify_referents chars)) as [Hkeys Hents].
  destruct (inconsistent_pairs_spec chars same_chars) as (to_remove & Hrun1 & _).
  { intros name Hname. by apply Hknown, Hkeys. }
  { exact Hents. }
  pose (filtered := discard_pairs same_chars to_remove).
  destruct (discard_pairs_entries to_remove same_chars) as [Hfkeys Hfents].
  assert (Hfiltered : forall name refs, (name, refs) ∈ filtered ->
            name ∈ Dict.keys chars
            /\ forall ref, ref ∈ refs -> ref ∈ Dict.keys chars).
  { intros name refs' Hin. split.
    - apply Hknown, Hkeys. fold same_chars. rewrite <- Hfkeys.
      by eapply In_keys.
    - intros ref Href. destruct (Hfents name refs' Hin) as (refs & Hin0 & Hsub).
      eapply Hents; [exact Hin0 | by apply Hsub]. }
  pose (repeated_referents := drop_unrepeated (claimants_by_referent filtered)).
  destruct (unite_uncontested_total chars filtered repeated_referents
              (CharacterGrouping.init (Dict.keys chars)) Hfiltered
              (init_covers (Dict.keys chars))) as (cg1 & Hrun2 & Hcov1).
  destruct (unite_most_frequent_total chars repeated_referents cg1)
    as (cg2 & Hrun3 & Hcov2); [|done|].
  { intros k names Hin. apply repeated_entry in Hin as [-> Hlen].
    assert (Hin : forall n, n ∈ claimants filtered k ->
                    n ∈ Dict.keys chars /\ k ∈ Dict.keys chars).
    { intros n Hn. apply elem_of_claimants in Hn as (refs & Hn & Hk).
      destruct (Hfiltered n refs Hn) as [H1 H2]. split; [done | by apply H2]. }
    destruct (claimants filtered k) as [|n0 names] eqn:Hnames;
      [simpl in Hlen; lia|].
    split; [apply (Hin n0); left|]. split; [done|].
    intros n Hn. by apply Hin. }
  destruct (correspondences_spec chars) as (corr & Hrun4 & Hproper & Hcknown & _).
  destruct (unite_most_frequent_total chars corr cg2)
    as (cg3 & Hrun5 & Hcov3); [|done|].
  { intros k names Hin.
    assert (Hnames : names = Dict.get_list corr k).
    { apply (In_find _ _ _ (proj1 Hproper)) in Hin.
      unfold Dict.get_list. by rewrite Hin. }
    split.
    - rewrite correspondences_eq in Hrun4. injection Hrun4 as <-.
      eapply correspondences_keys, In_keys, Hin.
    - split; [by eapply (proj2 Hproper)|].
      intros n Hn. apply (Hcknown k). by rewrite <- Hnames. }
  exists (CharacterGrouping.groups cg3). split; [|done].
  unfold unify_occurences. cbn [CharacterIdentification.chars].
  eapply bind_eq; [exact Hrun1|].
  eapply bind_eq; [exact Hrun2|].
  eapply bind_eq; [exact Hrun3|].
  eapply bind_eq; [exact Hrun4|].
  eapply bind_eq; [exact Hrun5|]. done.
Qed.

(** With a name of the referent map outside the store, the method raises
    [KeyError]. *)
Lemma unify_occurences_unknown (d : Doc.t) (name : string) :
  name ∈ Dict.keys (unify_referents chars) -> name ∉ Dict.keys chars ->
  unify_occurences unify_referents (CharacterIdentification.mk d (Some chars))
    = Raise KeyError.
Proof.
  intros Hin Hnot. unfold unify_occurences. cbn [CharacterIdentification.chars].
  rewrite (inconsistent_pairs_unknown chars _ name); [done | | done].
  by apply (present_referents_spec chars (unify_referents chars)).
Qed.

End Outcome.

(** C4, as the code has it. [unify_occurences] raises the state error exactly
    when [detect_characters] has not run, whether or not genders have been
    annotated. Once the store exists, the call returns the list of groups,
    with every name of the store in a group, when every name of the referent
    map is in the store, and raises [KeyError] when one is not. *)
Theorem unify_occurences_outcome
    (unify_referents : Dict.t Character.t -> Dict.t (list string))
    (self : CharacterIdentification.t) :
  (CharacterIdentification.unify_occurences unify_referents self = Raise ValueError
   <-> CharacterIdentification.chars self = None)
  /\ forall chars,
       CharacterIdentification.chars self = Some chars ->
       ((forall name, name ∈ Dict.keys (unify_referents chars) ->
                      name ∈ Dict.keys chars) ->
        exists groups,
          CharacterIdentification.unify_occurences unify_referents self = Ok groups
          /\ covers (Dict.keys chars) groups)
       /\ ((exists name, name ∈ Dict.keys (unify_referents chars)
                         /\ name ∉ Dict.keys chars) ->
           CharacterIdentification.unify_occurences unify_referents self
             = Raise KeyError).
Proof.
  destruct self as [d [chars|]]; simpl.
  - assert (Hok : (forall name, name ∈ Dict.keys (unify_referents chars) ->
                                name ∈ Dict.keys chars) ->
                  exists groups,
                    CharacterIdentification.unify_occurences unify_referents
                      (CharacterIdentification.mk d (Some chars)) = Ok groups
                    /\ covers (Dict.keys chars) groups)
      by apply unify_occurences_returns.
    assert (Hbad : (exists name, name ∈ Dict.keys (unify_referents chars)
                                 /\ name ∉ Dict.keys chars) ->
                   CharacterIdentification.unify_occurences unify_referents
                     (CharacterIdentification.mk d (Some chars)) = Raise KeyError).
    { intros (name & Hin & Hnot). by eapply unify_occurences_unknown. }
    split.
    + split; [|done]. intros Hval.
      destruct (decide (Forall (fun name => name ∈ Dict.keys chars)
                          (Dict.keys (unify_referents chars)))) as [Hall|Hnot].
      * destruct Hok as (groups & Hrun & _); [by apply Forall_forall|]. congruence.
      * apply not_Forall_Exists in Hnot; [|apply _].
        apply Exists_exists in Hnot. rewrite Hbad in Hval by done. done.
    + intros ? [= <-]. by split.
  - split; [done|]. by intros.
Qed.

Lemma detected_only_unannotated : unannotated detected_only.
Proof.
  intros chars name c [= <-] Hin. cases_in Hin; by injection Hin as _ ->.
Qed.

(** C4, as the specification words it, fails: on the object that
    [detect_characters] alone has run on, no entity has a gender, and
    [unify_occurences] returns groups instead of raising the state error. *)
Lemma unify_without_annotation_counterexample :
  ~ (forall self,
       unannotated self ->
       CharacterIdentification.unify_occurences example_referents self
       = Raise ValueError).
Proof.
  assert (Hrun : CharacterIdentification.unify_occurences example_referents
                   detected_only = Ok [{[ "Holmes" ]}; {[ "Mrs. Hudson" ]}])
    by (vm_compute; reflexivity).
  intros H. rewrite (H detected_only detected_only_unannotated) in Hrun.
  discriminate.
Qed.

Example unify_detected_only :
  CharacterIdentification.chars detected_only
  = Some [("Holmes", Character.mk "Holmes" (NameParsed.mk "" "Holmes" "") None [0; 5]);
          ("Mrs. Hudson", Character.mk "Mrs. Hudson"
                            (NameParsed.mk "Mrs." "" "Hudson") None [3])]
  /\ CharacterIdentification.unify_occurences example_referents detected_only
     = Ok [{[ "Holmes" ]}; {[ "Mrs. Hudson" ]}].
Proof. split; vm_compute; reflexivity. Qed.

(** ** The title estimator on a whole store *)

Section TitleVotes.
Import GenderAnnotation DictFacts.

Lemma title_vote_votes (chars : Dict.t Character.t)
    (name_genders : Dict.t (list Gender)) (m : string * string) :
  (forall k l, (k, l) ∈ name_genders -> Forall (fun g => g = FEMALE \/ g = MALE) l) ->
  forall k l, (k, l) ∈ title_vote chars name_genders m ->
              Forall (fun g => g = FEMALE \/ g = MALE) l.
Proof.
  intros Hinv k l. destruct m as [title name]. unfold title_vote.
  destruct (negb (Dict.mem chars name)); [apply Hinv|].
  destruct (str_in (lower title) female_titles).
  { intros H. apply In_modify in H as (l0 & Hl0 & ->).
    destruct (String.eqb k name); [|by eapply Hinv].
    apply Forall_app. split; [by eapply Hinv|]. constructor; [by left | constructor]. }
  destruct (str_in (lower title) male_titles); [|apply Hinv].
  intros H. apply In_modify in H as (l0 & Hl0 & ->).
  destruct (String.eqb k name); [|by eapply Hinv].
  apply Forall_app. split; [by eapply Hinv|]. constructor; [by right | constructor].
Qed.

(** Every name of the store gets a gender from the title estimator: the
    votes it tallies are FEMALE or MALE, so one of the three branches of
    lines 43-48 is taken. *)
Lemma annotate_by_titles_settled (self : GenderAnnotation.t)
    (title_name : list (string * string)) (name : string)
    (r : Gender + list Gender) :
  (name, r) ∈ _annotate_gender_by_titiles self title_name ->
  exists g, r = inl g.
Proof.
  unfold _annotate_gender_by_titiles. intros Hin.
  apply list_elem_of_fmap in Hin as ([k votes] & [= -> ->] & Hin).
  apply title_decision_settled. revert k votes Hin.
  assert (Hinit : forall names (d : Dict.t (list Gender)),
    (forall k l, (k, l) ∈ d -> Forall (fun g => g = FEMALE \/ g = MALE) l) ->
    forall k l, (k, l) ∈ foldl (fun d name => Dict.set d name []) d names ->
                Forall (fun g => g = FEMALE \/ g = MALE) l).
  { induction names as [|n names IH]; intros d Hd; [exact Hd|]. simpl.
    apply IH. intros k l H. apply In_set in H as [H | [= _ ->]]; [|constructor].
    by eapply Hd. }
  assert (Hvotes : forall ms (d : Dict.t (list Gender)),
    (forall k l, (k, l) ∈ d -> Forall (fun g => g = FEMALE \/ g = MALE) l) ->
    forall k l, (k, l) ∈ foldl (title_vote (chars self)) d ms ->
                Forall (fun g => g = FEMALE \/ g = MALE) l).
  { induction ms as [|m ms IH]; intros d Hd; [exact Hd|]. simpl.
    apply IH. by apply title_vote_votes. }
  apply Hvotes, Hinit. intros k l H. inversion H.
Qed.

End TitleVotes.

(** * Further properties of the code *)

(** ** The pronoun tally *)

Section PronounTally.
Import GenderAnnotation.

Lemma pronouns_disjoint (tok : string) :
  is_male_pronoun tok = true -> is_female_pronoun tok = false.
Proof.
  unfold is_male_pronoun, is_female_pronoun. intros H.
  apply str_in_spec in H. cases_in H; by rewrite H.
Qed.

Lemma tally_counts (l : list string) (male female : Z) :
  foldl tally_pronoun (male, female) l
  = (male + male_count l, female + female_count l).
Proof.
  revert male female. induction l as [|tok l IH]; intros male female.
  { unfold male_count, female_count. simpl. f_equal; lia. }
  cbn [foldl]. unfold tally_pronoun at 2.
  unfold male_count, female_count. cbn [List.filter].
  fold (is_male_pronoun tok) (is_female_pronoun tok).
  destruct (is_male_pronoun tok) eqn:Hm.
  - rewrite (pronouns_disjoint tok Hm), IH. unfold male_count, female_count.
    cbn [length]. f_equal; lia.
  - destruct (is_female_pronoun tok); rewrite IH; unfold male_count, female_count;
      cbn [length]; f_equal; lia.
Qed.

End PronounTally.

(** X1. The verdict of [_assign_gender_by_pronouns] is the majority of the
    pronouns of the list, compared whatever their case: MALE exactly when the
    male pronouns outnumber the female ones, FEMALE exactly when the female
    ones outnumber the male ones, UNKNOWN exactly on a tie (so on an empty
    list); tokens that are no pronouns do not count. *)
Theorem assign_gender_majority (pronouns : list string) :
  (GenderAnnotation._assign_gender_by_pronouns pronouns = MALE
   <-> female_count pronouns < male_count pronouns)
  /\ (GenderAnnotation._assign_gender_by_pronouns pronouns = FEMALE
      <-> male_count pronouns < female_count pronouns)
  /\ (GenderAnnotation._assign_gender_by_pronouns pronouns = UNKNOWN
      <-> male_count pronouns = female_count pronouns).
Proof.
  unfold GenderAnnotation._assign_gender_by_pronouns.
  rewrite tally_counts, !Z.add_0_l.
  destruct (Z.ltb_spec (female_count pronouns) (male_count pronouns));
    [split_and!; split; intros; first [done | lia | exfalso; lia]|].
  destruct (Z.ltb_spec (male_count pronouns) (female_count pronouns));
    [split_and!; split; intros; first [done | lia | exfalso; lia]|].
  destruct (Z.eqb_spec (female_count pronouns) (male_count pronouns));
    split_and!; split; intros; first [done | lia | exfalso; lia].
Qed.

(** ** The pronoun scan *)

Section PronounScan.
Import GenderAnnotation.

Local Arguments scan_sentence : simpl never.

Lemma scan_sentence_unfold (fuel : nat) (token_idxes : list Z) (sent : sentence)
    (start end_ i token_idx : Z) (mentions : list string) :
  scan_sentence fuel token_idxes sent start end_ i token_idx mentions
  = if (start <=? token_idx) && (token_idx <? end_)
       && (i <? Z.of_nat (length token_idxes) - 1) then
      match fuel with
      | O => Ok (i, mentions)
      | S fuel' =>
          bind (py_index token_idxes (i + 1)) (fun token_idx' =>
            scan_sentence fuel' token_idxes sent start end_ (i + 1) token_idx'
              (mentions ++ _match_pronouns sent))
      end
    else Ok (i, mentions).
Proof. by destruct fuel. Qed.

(** The inner loop adds the pronouns of the sentence once per index it
    passes, and stops at the last index of the list at the latest. *)
Lemma scan_sentence_chunks (fuel : nat) (token_idxes : list Z) (sent : sentence)
    (start end_ i token_idx : Z) (mentions : list string) :
  0 <= i <= Z.of_nat (length token_idxes) - 1 ->
  exists i' k,
    scan_sentence fuel token_idxes sent start end_ i token_idx mentions
      = Ok (i', mentions ++ concat (replicate k (_match_pronouns sent)))
    /\ i <= i' <= Z.of_nat (length token_idxes) - 1
    /\ Z.of_nat k = i' - i.
Proof.
  revert i token_idx mentions.
  induction fuel as [|fuel IH]; intros i token_idx mentions Hi;
    rewrite scan_sentence_unfold.
  - exists i, 0%nat. simpl. rewrite app_nil_r.
    destruct (_ && _ && _); (split; [done | lia]).
  - destruct (_ && _ && (i <? Z.of_nat (length token_idxes) - 1)) eqn:Hguard.
    + apply andb_true_iff in Hguard as [_ Hlt]. apply Z.ltb_lt in Hlt.
      destruct (py_index_Ok token_idxes (i + 1)) as (token_idx' & -> & _); [lia|].
      cbn [bind].
      destruct (IH (i + 1) token_idx' (mentions ++ _match_pronouns sent))
        as (i' & k & -> & Hi' & Hk); [lia|].
      exists i', (S k). simpl. rewrite <- app_assoc. split; [done | lia].
    + exists i, 0%nat. simpl. rewrite app_nil_r. split; [done | lia].
Qed.

Lemma elem_of_removelast {A : Type} (l : list A) (j : nat) (x : A) :
  l !! j = Some x -> (j < length l - 1)%nat -> x ∈ removelast l.
Proof.
  intros Hx Hj. rewrite removelast_firstn_len.
  apply list_elem_of_lookup. exists j.
  change (firstn (Init.Nat.pred (length l)) l) with (take (Init.Nat.pred (length l)) l).
  rewrite lookup_take_lt by lia. done.
Qed.

(** The outer loop on a non-empty index list: it returns, and what it adds
    are the pronouns of sentences before the last one, one sentence per
    index it passes. *)
Lemma scan_sentences_chunks (fuel : nat) (sents : list sentence)
    (token_idxes : list Z) (j start end_ i : Z) (mentions : list string) :
  0 <= j -> 0 <= i <= Z.of_nat (length token_idxes) - 1 ->
  exists chunks : list sentence,
    scan_sentences fuel sents token_idxes j start end_ i mentions
      = Ok (mentions ++ concat (map _match_pronouns chunks))
    /\ Z.of_nat (length chunks) <= Z.of_nat (length token_idxes) - 1 - i
    /\ forall c, c ∈ chunks -> c ∈ removelast sents.
Proof.
  revert j start end_ i mentions.
  induction fuel as [|fuel IH]; intros j start end_ i mentions Hj Hi.
  { exists []. simpl. rewrite app_nil_r.
    destruct (j <? _); (split; [done|]); (split; [lia|]);
      intros c Hc; inversion Hc. }
  cbn [scan_sentences].
  destruct (Z.ltb_spec j (Z.of_nat (length sents) - 1)) as [Hlt|].
  2:{ exists []. simpl. rewrite app_nil_r. split; [done|]. split; [lia|].
      intros c Hc. inversion Hc. }
  destruct (py_index_Ok token_idxes i) as (token_idx & -> & _); [lia|]. cbn [bind].
  assert (Hstart : exists start',
    (if 0 <? j
     then bind (py_index sents (j - 1))
            (fun prev => Ok (start + Z.of_nat (length prev)))
     else Ok start) = Ok start').
  { destruct (Z.ltb_spec 0 j); [|eauto].
    destruct (py_index_Ok sents (j - 1)) as (prev & -> & _); [lia|]. simpl. eauto. }
  destruct Hstart as [start' ->]. cbn [bind].
  destruct (py_index_Ok sents j) as (sent & -> & Hsent); [lia|]. cbn [bind].
  destruct (scan_sentence_chunks (length token_idxes) token_idxes sent start'
              (end_ + Z.of_nat (length sent)) i token_idx mentions Hi)
    as (i' & k & -> & Hi' & Hk).
  cbn [bind].
  destruct (IH (j + 1) start' (end_ + Z.of_nat (length sent)) i'
              (mentions ++ concat (replicate k (_match_pronouns sent))))
    as (chunks & -> & Hlen & Hin); [lia | lia |].
  exists (replicate k sent ++ chunks). split; [|split].
  - rewrite map_app, concat_app, <- app_assoc. do 3 f_equal.
    clear. induction k as [|k IHk]; [done|]. simpl. by rewrite IHk.
  - rewrite length_app, length_replicate. lia.
  - intros c Hc. apply elem_of_app in Hc as [Hc|Hc]; [|by apply Hin].
    apply elem_of_replicate in Hc as [-> _].
    apply (elem_of_removelast sents (Z.to_nat j)); [done | lia].
Qed.

End PronounScan.

(** X2. On a non-empty occurrence list [_find_pronouns] returns, without an
    index error. What it returns is the pronouns of a sequence of sentences,
    one sentence for each occurrence it tallies: these are fewer than the
    occurrences, and none of them is the last sentence of the document. Every
    mention it returns is a male or a female pronoun. *)
Theorem find_pronouns_returns (self : GenderAnnotation.t) (token_idxes : list Z) :
  token_idxes <> [] ->
  exists chunks : list sentence,
    GenderAnnotation._find_pronouns self token_idxes
      = Ok (concat (map GenderAnnotation._match_pronouns chunks))
    /\ (length chunks < length token_idxes)%nat
    /\ (forall c, c ∈ chunks ->
          c ∈ removelast (Doc.sents (GenderAnnotation.doc self)))
    /\ forall tok, tok ∈ concat (map GenderAnnotation._match_pronouns chunks) ->
         is_male_pronoun tok || is_female_pronoun tok = true.
Proof.
  intros Hne. unfold GenderAnnotation._find_pronouns.
  destruct (scan_sentences_chunks
              (length (Doc.sents (GenderAnnotation.doc self)))
              (Doc.sents (GenderAnnotation.doc self)) token_idxes 0 0 0 0 [])
    as (chunks & Hrun & Hlen & Hin); [lia | |].
  { destruct token_idxes; [done|]. simpl length. lia. }
  exists chunks. split; [exact Hrun|]. split; [lia|]. split; [exact Hin|].
  intros tok Htok. apply list_elem_of_In, in_concat in Htok as (ps & Hps & Htok).
  apply in_map_iff in Hps as (c & <- & _).
  unfold GenderAnnotation._match_pronouns in Htok.
  apply filter_In in Htok as [_ Htok]. exact Htok.
Qed.

Lemma find_pronouns_returns_witness :
  exists chunks : list sentence,
    GenderAnnotation._find_pronouns holmes_two_sentences [0; 3]
      = Ok (concat (map GenderAnnotation._match_pronouns chunks))
    /\ (length chunks < length [0; 3])%nat
    /\ (forall c, c ∈ chunks ->
          c ∈ removelast (Doc.sents (GenderAnnotation.doc holmes_two_sentences)))
    /\ forall tok, tok ∈ concat (map GenderAnnotation._match_pronouns chunks) ->
         is_male_pronoun tok || is_female_pronoun tok = true.
Proof. apply (find_pronouns_returns holmes_two_sentences [0; 3]). discriminate. Defined.

(** X3. On an empty occurrence list [_find_pronouns] raises [IndexError] as
    soon as the document has two sentences: the loop reads the first index
    before it looks at any sentence. With fewer than two sentences the loop
    does not start and the result is the empty list. *)
Theorem find_pronouns_no_occurrence (self : GenderAnnotation.t) :
  GenderAnnotation._find_pronouns self []
  = if (2 <=? length (Doc.sents (GenderAnnotation.doc self)))%nat
    then Raise IndexError else Ok [].
Proof.
  unfold GenderAnnotation._find_pronouns.
  destruct (Doc.sents (GenderAnnotation.doc self)) as [|s1 [|s2 sents]]; try done.
  cbn [length GenderAnnotation.scan_sentences].
  destruct (Z.ltb_spec 0 (Z.of_nat (S (S (length sents))) - 1)); [done | lia].
Qed.

(** ** The estimators on a whole store *)

Section Estimators.
Import GenderAnnotation DictFacts.

(** A loop that binds each name to a value computed from the name. *)
Lemma find_foldl_set {V : Type} (f : string -> V)
    (g : Dict.t V -> string -> Dict.t V) (names : list string) (d : Dict.t V)
    (k : string) :
  (forall d n, g d n = Dict.set d n (f n)) ->
  Dict.find (foldl g d names) k
  = if decide (k ∈ names) then Some (f k) else Dict.find d k.
Proof.
  intros Hg. revert d. induction names as [|n names IH]; intros d; [done|].
  cbn [foldl]. rewrite IH, Hg, find_set.
  destruct (decide (k ∈ names)) as [Hin|Hnot].
  - rewrite decide_True by (by right). done.
  - destruct (String.eqb_spec n k) as [->|Hne].
    + rewrite decide_True by left. done.
    + rewrite decide_False; [done|]. rewrite not_elem_of_cons. split; congruence.
Qed.

Lemma find_map_values {V W : Type} (f : V -> W) (d : Dict.t V) (k : string) :
  Dict.find (map (fun e => (fst e, f (snd e))) d) k = f <$> Dict.find d k.
Proof.
  induction d as [|[k1 v1] d IH]; [done|]. simpl.
  by destruct (String.eqb k1 k).
Qed.

(** Lines 29-37 leave under a name of the store the votes of the matches
    for that name, and add no key. *)
Lemma title_votes_find (chars : Dict.t Character.t) (ms : list (string * string))
    (d : Dict.t (list Gender)) (name : string) :
  name ∈ Dict.keys chars ->
  Dict.find (foldl (title_vote chars) d ms) name
  = (fun votes => votes ++ votes_for name ms) <$> Dict.find d name.
Proof.
  intros Hin. revert d. induction ms as [|[title n] ms IH]; intros d.
  { simpl. destruct (Dict.find d name); simpl; by rewrite ?app_nil_r. }
  cbn [foldl]. rewrite IH. unfold title_vote, votes_for, vote_of.
  cbn [flat_map fst snd].
  destruct (String.eqb_spec n name) as [->|Hne].
  - apply mem_spec in Hin. rewrite Hin. cbn [negb].
    destruct (str_in (lower title) female_titles).
    { rewrite find_modify, String.eqb_refl.
      destruct (Dict.find d name); simpl; [|done]. by rewrite <- app_assoc. }
    destruct (str_in (lower title) male_titles).
    { rewrite find_modify, String.eqb_refl.
      destruct (Dict.find d name); simpl; [|done]. by rewrite <- app_assoc. }
    done.
  - assert (Hsame : forall f, Dict.find (Dict.modify f d n) name = Dict.find d name).
    { intros f. rewrite find_modify. by destruct (String.eqb_spec n name). }
    destruct (negb (Dict.mem chars n)); [done|].
    destruct (str_in (lower title) female_titles); [by rewrite Hsame|].
    destruct (str_in (lower title) male_titles); [by rewrite Hsame|]. done.
Qed.

Lemma annotate_by_titles_find (self : GenderAnnotation.t)
    (title_name : list (string * string)) (name : string) :
  Dict.find (_annotate_gender_by_titiles self title_name) name
  = if Dict.mem (chars self) name
    then Some (title_decision (votes_for name title_name))
    else None.
Proof.
  unfold _annotate_gender_by_titiles. rewrite find_map_values.
  destruct (Dict.mem (chars self) name) eqn:Hmem.
  - apply mem_spec in Hmem. rewrite title_votes_find by done.
    rewrite (find_foldl_set (fun _ => [])) by done.
    by rewrite decide_True.
  - assert (Hnot : name ∉ Dict.keys (chars self)).
    { intros H. apply mem_spec in H. congruence. }
    assert (H : forall ms (d : Dict.t (list Gender)),
              Dict.find d name = None ->
              Dict.find (foldl (title_vote (chars self)) d ms) name = None).
    { induction ms as [|[title n] ms IH]; intros d Hd; [done|]. cbn [foldl].
      apply IH. unfold title_vote.
      destruct (negb (Dict.mem (chars self) n)); [done|].
      destruct (str_in (lower title) female_titles).
      { rewrite find_modify, Hd. by destruct (String.eqb n name). }
      destruct (str_in (lower title) male_titles); [|done].
      rewrite find_modify, Hd. by destruct (String.eqb n name). }
    rewrite H; [done|].
    rewrite (find_foldl_set (fun _ => [])) by done. by rewrite decide_False.
Qed.

Lemma find_pronouns_total (self : GenderAnnotation.t) (token_idxes : list Z) :
  token_idxes <> [] -> exists mentions, _find_pronouns self token_idxes = Ok mentions.
Proof.
  intros Hne. unfold _find_pronouns.
  destruct (scan_sentences_chunks (length (Doc.sents (doc self)))
              (Doc.sents (doc self)) token_idxes 0 0 0 0 [])
    as (chunks & Hrun & _); [lia | |eauto].
  destruct token_idxes; [done|]. simpl length. lia.
Qed.

End Estimators.

(** X4. The title estimator answers for the names of the store and for no
    other name, and each answer is one of the three genders: the list of votes
    is never left in place of a verdict. *)
Theorem title_estimator_answers (self : GenderAnnotation.t)
    (title_name : list (string * string)) (name : string) :
  (name ∈ Dict.keys (GenderAnnotation._annotate_gender_by_titiles self title_name)
   <-> name ∈ Dict.keys (GenderAnnotation.chars self))
  /\ forall r, (name, r) ∈ GenderAnnotation._annotate_gender_by_titiles self title_name ->
       exists g, r = inl g.
Proof.
  split; [|apply annotate_by_titles_settled].
  rewrite <- !DictFacts.find_is_Some, annotate_by_titles_find.
  destruct (Dict.mem (GenderAnnotation.chars self) name) eqn:Hmem.
  - apply DictFacts.mem_spec, DictFacts.find_is_Some in Hmem. by split.
  - split; [by intros [? ?]|]. intros H.
    apply DictFacts.find_is_Some, DictFacts.mem_spec in H. congruence.
Qed.

(** X5. For a name of the store, the answer of the title estimator is the
    decision of lines 41-48 on the votes of the matches whose name text is
    that name, in the order of the matches: a match casts FEMALE or MALE by
    its lower-cased title and nothing for any other title. Matches for names
    outside the store are skipped, and a name of the store without a vote is
    UNKNOWN. *)
Theorem title_estimator_votes (self : GenderAnnotation.t)
    (title_name : list (string * string)) (name : string) :
  Dict.find (GenderAnnotation._annotate_gender_by_titiles self title_name) name
    = (if Dict.mem (GenderAnnotation.chars self) name
       then Some (GenderAnnotation.title_decision (votes_for name title_name))
       else None)
  /\ (Dict.mem (GenderAnnotation.chars self) name = true ->
      votes_for name title_name = [] ->
      Dict.find (GenderAnnotation._annotate_gender_by_titiles self title_name) name
      = Some (inl UNKNOWN)).
Proof.
  split; [apply annotate_by_titles_find|].
  intros Hmem Hvotes. by rewrite annotate_by_titles_find, Hmem, Hvotes.
Qed.

(** X6. The name-list estimator answers for the names of the store and for
    no other name. The whole name string is looked up: the answer is MALE when
    it is in the male list, also when it is in the female list as well;
    FEMALE when it is in the female list only; UNKNOWN otherwise. *)
Theorem names_estimator_result (male_names female_names : list string)
    (self : GenderAnnotation.t) (name : string) :
  Dict.find (GenderAnnotation._annotate_gender_by_names (male_names, female_names) self)
    name
  = if Dict.mem (GenderAnnotation.chars self) name
    then Some (if str_in name male_names then MALE
               else if str_in name female_names then FEMALE
               else UNKNOWN)
    else None.
Proof.
  unfold GenderAnnotation._annotate_gender_by_names.
  rewrite (find_foldl_set
             (fun name => if str_in name male_names then MALE
                          else if str_in name female_names then FEMALE
                          else UNKNOWN)).
  - destruct (Dict.mem (GenderAnnotation.chars self) name) eqn:Hmem.
    + apply DictFacts.mem_spec in Hmem. by rewrite decide_True.
    + rewrite decide_False; [done|]. intros H. apply DictFacts.mem_spec in H.
      congruence.
  - intros d n. by destruct (str_in n male_names), (str_in n female_names).
Qed.

(** X7. When the subscript [c[1]] of an entity is its occurrence list and
    every entity has an occurrence, the pronoun estimator answers for the
    names of the store and for no other name, and its answer for a name with
    a single occurrence is UNKNOWN, whatever the document says. *)
Theorem pronoun_estimator_result
    (subscript : Character.t -> Z -> result (list Z)) (self : GenderAnnotation.t) :
  (forall name c, (name, c) ∈ GenderAnnotation.chars self ->
                  subscript c 1 = Ok (Character.occurences c)) ->
  all_sighted (GenderAnnotation.chars self) ->
  exists name_genders,
    GenderAnnotation._annotate_gender_by_pronouns subscript self = Ok name_genders
    /\ (forall name, name ∈ Dict.keys name_genders
                     <-> name ∈ Dict.keys (GenderAnnotation.chars self))
    /\ forall name c t,
         Dict.find (GenderAnnotation.chars self) name = Some c ->
         Character.occurences c = [t] ->
         Dict.find name_genders name = Some UNKNOWN.
Proof.
  intros Hsub Hocc. unfold GenderAnnotation._annotate_gender_by_pronouns.
  match goal with |- context [for_each ?f _ _] => set (body := f) end.
  assert (Hloop : forall names (acc : Dict.t Gender),
    (forall n, n ∈ names -> n ∈ Dict.keys (GenderAnnotation.chars self)) ->
    exists name_genders,
      for_each body names acc = Ok name_genders
      /\ (forall k, k ∈ Dict.keys name_genders <-> k ∈ Dict.keys acc \/ k ∈ names)
      /\ (forall k c t, k ∈ names ->
            Dict.find (GenderAnnotation.chars self) k = Some c ->
            Character.occurences c = [t] ->
            Dict.find name_genders k = Some UNKNOWN)
      /\ (forall k, k ∉ names -> Dict.find name_genders k = Dict.find acc k)).
  { induction names as [|n names IH]; intros acc Hnames.
    { exists acc. split_and!; [done | | |done].
      - intros k. split; [by left|]. intros [?|H]; [done | inversion H].
      - intros k c t H. inversion H. }
    destruct (DictFacts.get_total (GenderAnnotation.chars self) n) as (c & Hget & Hc);
      [apply Hnames; left|].
    destruct (find_pronouns_total self (Character.occurences c)) as (mentions & Hm).
    { eapply Hocc, DictFacts.find_Some_In, Hc. }
    destruct (IH (Dict.set acc n
                    (GenderAnnotation._assign_gender_by_pronouns mentions)))
      as (name_genders & Hrun & Hkeys & Hone & Hrest).
    { intros n' Hn'. apply Hnames. by right. }
    assert (Hstep : for_each body (n :: names) acc = Ok name_genders).
    { cbn [for_each]. eapply bind_eq; [|exact Hrun]. unfold body.
      eapply bind_eq; [exact Hget|].
      eapply bind_eq; [apply (Hsub n c); by apply DictFacts.find_Some_In|].
      eapply bind_eq; [exact Hm|]. done. }
    exists name_genders. split_and!; [exact Hstep | | |].
    - intros k. rewrite Hkeys, keys_set_iff, elem_of_cons. tauto.
    - intros k c' t Hk Hc' Ht.
      destruct (decide (k ∈ names)) as [Hin|Hnot]; [by eapply Hone|].
      apply elem_of_cons in Hk as [->|]; [|done].
      rewrite (Hrest n Hnot), DictFacts.find_set, String.eqb_refl.
      assert (c' = c) as -> by congruence.
      rewrite Ht, find_pronouns_single_occurrence in Hm. by injection Hm as <-.
    - intros k Hk. apply not_elem_of_cons in Hk as [Hne Hk].
      rewrite (Hrest k Hk), DictFacts.find_set.
      destruct (String.eqb_spec n k); [congruence | done]. }
  destruct (Hloop (Dict.keys (GenderAnnotation.chars self)) [])
    as (name_genders & Hrun & Hkeys & Hone & _); [done|].
  exists name_genders. split; [exact Hrun|]. split.
  - intros name. rewrite Hkeys. split; [|by right].
    intros [H|?]; [inversion H | done].
  - intros name c t Hc Ht. eapply Hone; [|exact Hc | exact Ht].
    apply DictFacts.find_is_Some. by rewrite Hc.
Qed.

Lemma pronoun_estimator_result_witness :
  exists name_genders,
    GenderAnnotation._annotate_gender_by_pronouns occurrences_subscript
      (GenderAnnotation.mk hudson_doc hudson_store) = Ok name_genders
    /\ (forall name, name ∈ Dict.keys name_genders
                     <-> name ∈ Dict.keys hudson_store)
    /\ forall name c t,
         Dict.find hudson_store name = Some c ->
         Character.occurences c = [t] ->
         Dict.find name_genders name = Some UNKNOWN.
Proof.
  apply (pronoun_estimator_result occurrences_subscript
           (GenderAnnotation.mk hudson_doc hudson_store)).
  - intros name c H. reflexivity.
  - intros name c H. unfold hudson_store in H. simpl in H.
    cases_in H; injection H as _ ->; discriminate.
Defined.

(** ** The store that detection builds *)

Section DetectionStore.
Import CharacterIdentification DictFacts.

Variable parse_name : string -> NameParsed.t.
Variable titles : gset string.
Variable d : Doc.t.

Lemma canonical_name_key (ent : Span.t) :
  0 <= Span.start ent <= Z.of_nat (length (Doc.tokens d)) ->
  canonical_name titles d ent = Ok (span_key titles d ent).
Proof.
  intros Hstart. unfold span_key.
  destruct (Z.eqb_spec (Span.start ent) 0) as [H0|Hn0].
  - by apply canonical_name_start.
  - destruct (canonical_name_later titles d ent) as (prev & -> & ->); [lia | done].
Qed.

Lemma sightings_cons (ent : Span.t) (ents : list Span.t) (name : string) :
  sightings titles d (ent :: ents) name
  = if String.eqb (Span.label_ ent) "PERSON"
       && String.eqb (span_key titles d ent) name
    then Span.start ent :: sightings titles d ents name
    else sightings titles d ents name.
Proof.
  unfold sightings. cbn [List.filter].
  by destruct (String.eqb (Span.label_ ent) "PERSON"
               && String.eqb (span_key titles d ent) name).
Qed.

Lemma detect_loop (ents : list Span.t) (chars : Dict.t Character.t) :
  (forall ent, ent ∈ ents ->
     0 <= Span.start ent <= Z.of_nat (length (Doc.tokens d))) ->
  NoDup (Dict.keys chars) ->
  exists chars',
    for_each (detect_step parse_name titles d) ents chars = Ok chars'
    /\ NoDup (Dict.keys chars')
    /\ forall name,
         Dict.find chars' name
         = sighted parse_name (Dict.find chars name) name
             (sightings titles d ents name).
Proof.
  revert chars. induction ents as [|ent ents IH]; intros chars Hin Hnd.
  { exists chars. split_and!; [done | done |]. intros name. simpl.
    destruct (Dict.find chars name) as [[]|]; simpl; by rewrite ?app_nil_r. }
  assert (Hents : forall e, e ∈ ents ->
            0 <= Span.start e <= Z.of_nat (length (Doc.tokens d))).
  { intros e He. apply Hin. by right. }
  cbn [for_each]. unfold detect_step at 1.
  destruct (String.eqb (Span.label_ ent) "PERSON") eqn:Hlabel.
  2:{ cbn [bind]. destruct (IH chars Hents Hnd) as (chars' & Hrun & Hnd' & Hfind).
      exists chars'. split_and!; [done | done |]. intros name.
      by rewrite Hfind, sightings_cons, Hlabel. }
  rewrite canonical_name_key by (apply Hin; left). cbn [bind].
  set (key := span_key titles d ent).
  set (chars1 := if negb (Dict.mem chars key)
                 then Dict.set chars key (Character.init parse_name key)
                 else chars).
  assert (H1 : key ∈ Dict.keys chars1 /\ NoDup (Dict.keys chars1)
               /\ forall name, Dict.find chars1 name
                    = if String.eqb key name
                      then Some (default (Character.init parse_name key)
                                   (Dict.find chars key))
                      else Dict.find chars name).
  { unfold chars1. destruct (Dict.mem chars key) eqn:Hmem; cbn [negb].
    - pose proof Hmem as Hkey. apply mem_spec in Hkey. split_and!; [done | done |].
      intros name. destruct (String.eqb_spec key name) as [<-|]; [|done].
      apply find_is_Some in Hkey as [c Hc]. by rewrite Hc.
    - assert (Hnot : key ∉ Dict.keys chars).
      { intros H. apply mem_spec in H. congruence. }
      split_and!.
      + apply keys_set.
      + rewrite keys_set_new by done. unfold Dict.keys. rewrite map_app.
        apply NoDup_app. split_and!; [done | | apply NoDup_singleton].
        intros k Hk Hk'. apply list_elem_of_singleton in Hk'. simpl in Hk'.
        by subst.
      + intros name. rewrite find_set.
        destruct (String.eqb_spec key name) as [<-|]; [|done].
        apply find_None in Hnot. by rewrite Hnot. }
  destruct H1 as (Hkey & Hnd1 & Hfind1).
  rewrite update_Ok by done. cbn [bind].
  destruct (IH (Dict.modify (Character.append_occurences (Span.start ent)) chars1 key))
    as (chars' & Hrun & Hnd' & Hfind); [done | by rewrite keys_modify |].
  exists chars'. split_and!; [done | done |]. intros name.
  rewrite Hfind, find_modify, Hfind1, sightings_cons, Hlabel. cbn [andb].
  fold key. destruct (String.eqb_spec key name) as [<-|Hne]; [|done].
  destruct (Dict.find chars key) as [c|]; simpl.
  - by rewrite <- app_assoc.
  - done.
Qed.

End DetectionStore.

(** X8. On a document whose spans lie inside it, [detect_characters] returns
    a store without a repeated key in which a name is bound exactly when a
    PERSON span has that name as its key, and then to the entity of that name,
    with its parsed name, no gender, and as occurrences the starts of the
    PERSON spans with that key, in document order. Spans with another label
    leave no trace. *)
Theorem detect_characters_store (parse_name : string -> NameParsed.t)
    (get_titles : gset string * gset string) (self : CharacterIdentification.t) :
  spans_in_doc (CharacterIdentification.doc self) ->
  exists self' chars,
    CharacterIdentification.detect_characters parse_name get_titles self
      = Ok (self', chars)
    /\ NoDup (Dict.keys chars)
    /\ forall name,
         Dict.find chars name
         = match sightings (get_titles.1 ∪ get_titles.2)
                   (CharacterIdentification.doc self)
                   (Doc.ents (CharacterIdentification.doc self)) name with
           | [] => None
           | occ => Some (Character.mk name (parse_name name) None occ)
           end.
Proof.
  intros Hspans. unfold CharacterIdentification.detect_characters.
  destruct get_titles as [female_titles male_titles]. cbn [fst snd].
  destruct (detect_loop parse_name (female_titles ∪ male_titles)
              (CharacterIdentification.doc self)
              (Doc.ents (CharacterIdentification.doc self)) [])
    as (chars & -> & Hnd & Hfind); [exact Hspans | apply NoDup_nil_2 |].
  cbn [bind]. eexists _, chars. split_and!; [reflexivity | done |].
  intros name. rewrite Hfind. unfold sighted. simpl.
  by destruct (sightings _ _ _ _).
Qed.

Lemma detect_characters_store_witness :
  exists self' chars,
    CharacterIdentification.detect_characters example_parse hudson_titles
      (CharacterIdentification.mk hudson_doc None) = Ok (self', chars)
    /\ NoDup (Dict.keys chars)
    /\ forall name,
         Dict.find chars name
         = match sightings (hudson_titles.1 ∪ hudson_titles.2) hudson_doc
                   (Doc.ents hudson_doc) name with
           | [] => None
           | occ => Some (Character.mk name (example_parse name) None occ)
           end.
Proof.
  apply (detect_characters_store example_parse hudson_titles
           (CharacterIdentification.mk hudson_doc None)).
  intros ent Hent. simpl in Hent.
  repeat (apply elem_of_cons in Hent as [->|Hent]; [simpl; lia|]).
  inversion Hent.
Defined.

(** ** What the fusion loop changes, and when it returns *)

Section FusionOutcome.
Import CharacterIdentification DictFacts.

Variables t n p : Dict.t Gender.

Lemma fuse_step_raises (chars : Dict.t Character.t) (name : string) :
  raises_within (eq KeyError) (fuse_step t n p chars name).
Proof.
  unfold fuse_step.
  apply raises_within_bind; [apply get_raises|]. intros gt _.
  apply raises_within_bind; [apply get_raises|]. intros gn _.
  apply raises_within_bind; [apply get_raises|]. intros gp _.
  assert (H : forall g, raises_within (eq KeyError)
                          (Dict.update (Character.update_gender g) chars name)).
  { intros g. unfold Dict.update. by destruct (Dict.find chars name). }
  repeat case_match; apply H.
Qed.

Lemma fuse_step_missing (chars : Dict.t Character.t) (name : string) :
  name ∉ Dict.keys t \/ name ∉ Dict.keys n \/ name ∉ Dict.keys p ->
  exists e, fuse_step t n p chars name = Raise e.
Proof.
  intros H. unfold fuse_step, Dict.get.
  destruct (Dict.find t name) eqn:Ht; [|by eexists]. cbn [bind].
  destruct (Dict.find n name) eqn:Hn; [|by eexists]. cbn [bind].
  destruct (Dict.find p name) eqn:Hp; [|by eexists].
  exfalso. destruct H as [H|[H|H]]; apply H, find_is_Some; eauto.
Qed.

(** One step of the loop is one call of [update_gender], on the entity
    under the name. *)
Lemma fuse_step_call (chars chars1 : Dict.t Character.t) (k : string) :
  fuse_step t n p chars k = Ok chars1 ->
  exists g, k ∈ Dict.keys chars
            /\ chars1 = Dict.modify (Character.update_gender g) chars k.
Proof.
  intros Hstep. unfold fuse_step in Hstep.
  destruct (Dict.get t k); [|done]. destruct (Dict.get n k); [|done].
  destruct (Dict.get p k); [|done]. cbn [bind] in Hstep.
  unfold Dict.update in Hstep.
  destruct (Dict.find chars k) eqn:Hfind; [|by repeat case_match].
  assert (Hk : k ∈ Dict.keys chars) by (apply find_is_Some; eauto).
  repeat case_match; injection Hstep as <-; eauto.
Qed.

Lemma fuse_loop_calls (names : list string) (chars chars' : Dict.t Character.t) :
  NoDup names ->
  for_each (fuse_step t n p) names chars = Ok chars' ->
  Dict.keys chars' = Dict.keys chars
  /\ (forall k, k ∈ names ->
        exists c g, Dict.find chars k = Some c
                    /\ Dict.find chars' k = Some (Character.update_gender g c))
  /\ (forall k, k ∉ names -> Dict.find chars' k = Dict.find chars k).
Proof.
  revert chars. induction names as [|k names IH]; intros chars Hnd Hrun.
  { injection Hrun as <-. split_and!; [done | | done]. intros k Hk. inversion Hk. }
  apply NoDup_cons in Hnd as [Hk Hnd]. cbn [for_each] in Hrun.
  destruct (fuse_step t n p chars k) as [chars1|] eqn:Hstep; [|done].
  cbn [bind] in Hrun. apply fuse_step_call in Hstep as (g & Hin & ->).
  destruct (IH _ Hnd Hrun) as (Hkeys & Hcalled & Hrest).
  split_and!.
  - by rewrite Hkeys, keys_modify.
  - intros k' Hk'. apply elem_of_cons in Hk' as [->|Hk'].
    + apply find_is_Some in Hin as [c Hc]. exists c, g. split; [done|].
      by rewrite (Hrest k Hk), find_modify, String.eqb_refl, Hc.
    + destruct (Hcalled k' Hk') as (c & g' & Hc & Hc'). exists c, g'.
      split; [|done]. rewrite find_modify in Hc.
      destruct (String.eqb_spec k k') as [->|]; [done | done].
  - intros k' Hk'. apply not_elem_of_cons in Hk' as [Hne Hk'].
    rewrite (Hrest k' Hk'), find_modify.
    destruct (String.eqb_spec k k'); [congruence | done].
Qed.

End FusionOutcome.

(** X9. The fusion loop returns exactly when every name of the store has
    a result from each of the three estimators; when a name lacks one, the
    loop raises KeyError, and it raises no other exception. *)
Theorem fuse_genders_outcome (t n p : Dict.t Gender) (chars : Dict.t Character.t) :
  ((exists chars', CharacterIdentification.fuse_genders t n p chars = Ok chars')
   <-> estimated t n p chars)
  /\ forall e, CharacterIdentification.fuse_genders t n p chars = Raise e ->
               e = KeyError.
Proof.
  split.
  - split.
    + intros [chars' Hrun] k Hk.
      destruct (decide (k ∈ Dict.keys t)) as [Ht|Ht];
        [destruct (decide (k ∈ Dict.keys n)) as [Hn|Hn];
           [destruct (decide (k ∈ Dict.keys p)) as [Hp|Hp]; [done|]|]|].
      all: exfalso;
        destruct (for_each_raises (eq KeyError)
                    (CharacterIdentification.fuse_step t n p) (Dict.keys chars) chars)
          as (e & He & _);
        [intros s x _; apply fuse_step_raises
        |exists k; split; [done|]; intros s; apply fuse_step_missing; tauto
        |unfold CharacterIdentification.fuse_genders in Hrun; congruence].
    + intros Hcov. destruct (fuse_genders_populates t n p chars Hcov) as (chars' & H & _).
      eauto.
  - intros e He.
    pose proof (raises_within_for_each (eq KeyError)
                  (CharacterIdentification.fuse_step t n p) (Dict.keys chars) chars
                  (fun s x _ => fuse_step_raises t n p s x)) as H.
    unfold CharacterIdentification.fuse_genders in He. rewrite He in H. done.
Qed.

(** X10. On a store without a repeated key, a run of the fusion loop that
    returns has called [update_gender] once on every entity and has done
    nothing else to the store: the keys and their order are those of the
    store it was given, and every entity keeps its name, its parsed name and
    its occurrences. *)
Theorem fuse_genders_frame (t n p : Dict.t Gender) (chars chars' : Dict.t Character.t) :
  NoDup (Dict.keys chars) ->
  CharacterIdentification.fuse_genders t n p chars = Ok chars' ->
  Dict.keys chars' = Dict.keys chars
  /\ forall k c,
       Dict.find chars k = Some c ->
       exists g c',
         Dict.find chars' k = Some c'
         /\ c' = Character.update_gender g c
         /\ Character.name c' = Character.name c
         /\ Character.name_parsed c' = Character.name_parsed c
         /\ Character.occurences c' = Character.occurences c.
Proof.
  intros Hnd Hrun.
  destruct (fuse_loop_calls t n p (Dict.keys chars) chars chars' Hnd Hrun)
    as (Hkeys & Hcalled & _).
  split; [done|]. intros k c Hc.
  destruct (Hcalled k) as (c0 & g & Hc0 & Hc'); [apply DictFacts.find_is_Some; eauto|].
  assert (c0 = c) as -> by congruence.
  exists g, (Character.update_gender g c). by split_and!.
Qed.

Lemma fuse_genders_frame_witness :
  Dict.keys (Dict.modify (Character.update_gender FEMALE) [("Mary", mary)] "Mary")
    = Dict.keys [("Mary", mary)]
  /\ forall k c,
       Dict.find [("Mary", mary)] k = Some c ->
       exists g c',
         Dict.find (Dict.modify (Character.update_gender FEMALE) [("Mary", mary)] "Mary")
           k = Some c'
         /\ c' = Character.update_gender g c
         /\ Character.name c' = Character.name c
         /\ Character.name_parsed c' = Character.name_parsed c
         /\ Character.occurences c' = Character.occurences c.
Proof.
  apply (fuse_genders_frame [("Mary", FEMALE)] [("Mary", UNKNOWN)] [("Mary", MALE)]).
  - apply (bool_decide_unpack _). vm_compute. exact I.
  - reflexivity.
Defined.

(** ** The candidate map and the constraint filter *)

Section FilterFacts.
Import CharacterIdentification DictFacts AppendFacts.

Lemma gender_unmatch_sym (g1 g2 : option Gender) :
  _gender_unmatch g1 g2 = _gender_unmatch g2 g1.
Proof. by destruct g1 as [[]|], g2 as [[]|]. Qed.

Lemma title_unmatch_sym (title1 title2 : string) :
  title_unmatch title1 title2 = title_unmatch title2 title1.
Proof.
  unfold title_unmatch. rewrite (String.eqb_sym title1 title2).
  by destruct (String.eqb title1 ""), (String.eqb title2 "").
Qed.

Lemma inconsistent_sym (c1 c2 : Character.t) : inconsistent c1 c2 = inconsistent c2 c1.
Proof. unfold inconsistent. by rewrite gender_unmatch_sym, title_unmatch_sym. Qed.

(** The pairs that survive lines 196-213, for genders of any value. *)
Lemma filter_keeps (chars : Dict.t Character.t) (same_chars : Dict.t (gset string)) :
  (forall name, name ∈ Dict.keys same_chars -> name ∈ Dict.keys chars) ->
  (forall name refs ref, (name, refs) ∈ same_chars -> ref ∈ refs ->
                         ref ∈ Dict.keys chars) ->
  exists to_remove,
    inconsistent_pairs chars same_chars = Ok to_remove
    /\ forall name ref c1 c2,
         Dict.find chars name = Some c1 -> Dict.find chars ref = Some c2 ->
         (claims (discard_pairs same_chars to_remove) name ref
          <-> claims same_chars name ref /\ inconsistent c1 c2 = false).
Proof.
  intros Hnames Hrefs.
  destruct (inconsistent_pairs_spec chars same_chars Hnames Hrefs)
    as (to_remove & Hrun & Hrem).
  exists to_remove. split; [done|]. intros name ref c1 c2 Hc1 Hc2.
  pose proof (discard_pairs_find to_remove same_chars name) as Hfind.
  unfold claims. destruct (Dict.find same_chars name) as [refs|] eqn:Hsc.
  - destruct Hfind as (refs' & -> & Hrefs'). split.
    + intros (? & [= <-] & Href). apply Hrefs' in Href as [Href Hkeep].
      split; [eauto|]. destruct (inconsistent c1 c2) eqn:Hbad; [|done].
      exfalso. apply Hkeep, Hrem. exists refs, c1, c2. simpl.
      split_and!; try done. by apply find_Some_In.
    + intros [(? & [= <-] & Href) Hok]. exists refs'. split; [done|].
      apply Hrefs'. split; [done|]. intros Hbad. apply Hrem in Hbad.
      destruct Hbad as (? & c1' & c2' & _ & _ & Hc1' & Hc2' & Hbad).
      simpl in *. congruence.
  - rewrite Hfind. split; [by intros (? & ? & _) | by intros [(? & ? & _) _]].
Qed.

Lemma claims_known (chars : Dict.t Character.t) (same_chars : Dict.t (gset string))
    (name ref : string) :
  (forall name, name ∈ Dict.keys same_chars -> name ∈ Dict.keys chars) ->
  (forall name refs ref, (name, refs) ∈ same_chars -> ref ∈ refs ->
                         ref ∈ Dict.keys chars) ->
  claims same_chars name ref ->
  exists c1 c2, Dict.find chars name = Some c1 /\ Dict.find chars ref = Some c2.
Proof.
  intros Hnames Hrefs (refs & Hfind & Href).
  assert (H1 : name ∈ Dict.keys chars).
  { apply Hnames, find_is_Some. eauto. }
  assert (H2 : ref ∈ Dict.keys chars).
  { eapply Hrefs; [|exact Href]. by apply find_Some_In. }
  apply find_is_Some in H1 as [c1 ?], H2 as [c2 ?]. eauto.
Qed.

(** Binding distinct keys one after the other appends the bindings. *)
Lemma foldl_set_fresh {V W : Type} (f : string * V -> W) (d : Dict.t V)
    (acc : Dict.t W) :
  NoDup (Dict.keys acc ++ Dict.keys d) ->
  foldl (fun acc e => Dict.set acc e.1 (f e)) acc d
  = acc ++ map (fun e => (e.1, f e)) d.
Proof.
  revert acc. induction d as [|[k v] d IH]; intros acc Hnd; simpl.
  { by rewrite app_nil_r. }
  simpl in Hnd. apply NoDup_app in Hnd as (Hacc & Hdis & Hd).
  apply NoDup_cons in Hd as [Hk Hd].
  assert (Hfresh : k ∉ Dict.keys acc).
  { intros Hin. apply (Hdis k Hin). left. }
  rewrite IH.
  - rewrite keys_set_new by done. by rewrite <- app_assoc.
  - rewrite keys_set_new by done. unfold Dict.keys. rewrite map_app. simpl.
    apply NoDup_app. split_and!; [|  |done].
    + apply NoDup_app. split_and!; [done | | apply NoDup_singleton].
      intros x Hx Hx'. apply list_elem_of_singleton in Hx'. by subst.
    + intros x Hx Hx'. apply elem_of_app in Hx as [Hx|Hx].
      * apply (Hdis x Hx). by right.
      * apply list_elem_of_singleton in Hx. by subst.
Qed.

Lemma present_referents_eq (chars : Dict.t Character.t)
    (referents : Dict.t (list string)) :
  NoDup (Dict.keys referents) ->
  present_referents chars referents
  = map (fun e => (e.1, list_to_set (Dict.keys chars) ∩ list_to_set e.2)) referents.
Proof.
  intros Hnd. unfold present_referents.
  transitivity ([] ++ map (fun e : string * list string =>
                             (e.1, (list_to_set (Dict.keys chars) : gset string)
                                     ∩ list_to_set e.2)) referents); [|done].
  rewrite <- (foldl_set_fresh
                (fun e : string * list string =>
                   (list_to_set (Dict.keys chars) : gset string) ∩ list_to_set e.2)
                referents []) by done.
  generalize ([] : Dict.t (gset string)). clear Hnd.
  induction referents as [|[k l] referents IH]; intros acc; [done|].
  simpl. apply IH.
Qed.

End FilterFacts.

(** X11. When no key of the referent map is repeated, the candidate map has
    the keys of the referent map in the same order, and a name keeps as
    candidates exactly its proposed referents that are names of the store:
    a proposed referent outside the store is dropped, and nothing else is. *)
Theorem present_referents_candidates (chars : Dict.t Character.t)
    (referents : Dict.t (list string)) :
  NoDup (Dict.keys referents) ->
  Dict.keys (CharacterIdentification.present_referents chars referents)
    = Dict.keys referents
  /\ forall name ref,
       claims (CharacterIdentification.present_referents chars referents) name ref
       <-> exists refs, Dict.find referents name = Some refs
                        /\ ref ∈ refs /\ ref ∈ Dict.keys chars.
Proof.
  intros Hnd. rewrite present_referents_eq by done. split.
  - unfold Dict.keys. rewrite map_map. by apply map_ext.
  - intros name ref. unfold claims.
    rewrite (find_map_values
               (fun l : list string =>
                  (list_to_set (Dict.keys chars) : gset string) ∩ list_to_set l)).
    destruct (Dict.find referents name) as [l|]; simpl.
    + split.
      * intros (refs & [= <-] & Href). exists l. set_solver.
      * intros (refs & [= <-] & ? & ?). eexists. split; [done|]. set_solver.
    + split; [by intros (? & ? & _) | by intros (? & ? & _)].
Qed.

Lemma present_referents_candidates_witness :
  Dict.keys (CharacterIdentification.present_referents hudson_store
               (example_referents hudson_store))
    = Dict.keys (example_referents hudson_store)
  /\ forall name ref,
       claims (CharacterIdentification.present_referents hudson_store
                 (example_referents hudson_store)) name ref
       <-> exists refs, Dict.find (example_referents hudson_store) name = Some refs
                        /\ ref ∈ refs /\ ref ∈ Dict.keys hudson_store.
Proof.
  apply (present_referents_candidates hudson_store (example_referents hudson_store)).
  apply (bool_decide_unpack _). vm_compute. exact I.
Defined.

(** X12. The constraint filter treats a pair and its reverse alike: when
    each of two names is a candidate referent of the other, the filter keeps
    both pairs or drops both. *)
Theorem constraint_filter_symmetric (chars : Dict.t Character.t)
    (same_chars : Dict.t (gset string)) :
  (forall name, name ∈ Dict.keys same_chars -> name ∈ Dict.keys chars) ->
  (forall name refs ref, (name, refs) ∈ same_chars -> ref ∈ refs ->
                         ref ∈ Dict.keys chars) ->
  exists to_remove,
    CharacterIdentification.inconsistent_pairs chars same_chars = Ok to_remove
    /\ forall a b,
         claims same_chars a b -> claims same_chars b a ->
         let filtered := CharacterIdentification.discard_pairs same_chars to_remove in
         claims filtered a b <-> claims filtered b a.
Proof.
  intros Hnames Hrefs.
  destruct (filter_keeps chars same_chars Hnames Hrefs) as (to_remove & Hrun & Hkeep).
  exists to_remove. split; [done|]. intros a b Hab Hba filtered.
  destruct (claims_known chars same_chars a b Hnames Hrefs Hab)
    as (c1 & c2 & Hc1 & Hc2).
  unfold filtered. rewrite (Hkeep a b c1 c2), (Hkeep b a c2 c1) by done.
  rewrite (inconsistent_sym c2 c1). tauto.
Qed.

Lemma constraint_filter_symmetric_witness :
  (claims mutual_candidates "Sherlock Holmes" "Holmes"
   /\ claims mutual_candidates "Holmes" "Sherlock Holmes"
   /\ claims mutual_candidates "Sherlock Holmes" "Mrs. Hudson"
   /\ claims mutual_candidates "Mrs. Hudson" "Sherlock Holmes")
  /\ exists to_remove,
       CharacterIdentification.inconsistent_pairs holmes_store mutual_candidates
         = Ok to_remove
       /\ forall a b,
            claims mutual_candidates a b -> claims mutual_candidates b a ->
            let filtered :=
              CharacterIdentification.discard_pairs mutual_candidates to_remove in
            claims filtered a b <-> claims filtered b a.
Proof.
  split.
  - split_and!; (eexists; split; [reflexivity | set_solver]).
  - apply (constraint_filter_symmetric holmes_store mutual_candidates).
    + intros name H. unfold mutual_candidates in H. simpl in H.
      cases_in H; subst; in_list.
    + intros name refs ref H Href. unfold mutual_candidates in H.
      cases_in H; injection H as -> ->; set_unfold in Href;
        destruct_or?; subst; in_list.
Defined.

(** On the Holmes store: a male name and a name of unknown gender that are
    candidates of each other are kept in both directions, a male and a female
    name that are candidates of each other are dropped in both. *)
Example constraint_filter_mutual :
  CharacterIdentification.inconsistent_pairs holmes_store mutual_candidates
  = Ok [("Sherlock Holmes", "Mrs. Hudson"); ("Mrs. Hudson", "Sherlock Holmes")]
  /\ map (fun e => (e.1, elements e.2))
       (CharacterIdentification.discard_pairs mutual_candidates
          [("Sherlock Holmes", "Mrs. Hudson"); ("Mrs. Hudson", "Sherlock Holmes")])
     = [("Sherlock Holmes", ["Holmes"]); ("Holmes", ["Sherlock Holmes"]);
        ("Mrs. Hudson", [])].
Proof. by vm_compute. Qed.

(** X13. An entity whose gender is none of the three values, as before
    annotation, is a gender mismatch for the constraint filter unless the
    other entity is UNKNOWN: the filter drops every candidate pair with such
    an entity on one side and an entity that is not UNKNOWN on the other,
    also when neither gender is set. *)
Theorem constraint_filter_unset (chars : Dict.t Character.t)
    (same_chars : Dict.t (gset string)) :
  (forall name, name ∈ Dict.keys same_chars -> name ∈ Dict.keys chars) ->
  (forall name refs ref, (name, refs) ∈ same_chars -> ref ∈ refs ->
                         ref ∈ Dict.keys chars) ->
  exists to_remove,
    CharacterIdentification.inconsistent_pairs chars same_chars = Ok to_remove
    /\ forall name ref c1 c2,
         Dict.find chars name = Some c1 -> Dict.find chars ref = Some c2 ->
         Character.gender c1 = None \/ Character.gender c2 = None ->
         Character.gender c1 <> Some UNKNOWN ->
         Character.gender c2 <> Some UNKNOWN ->
         ~ claims (CharacterIdentification.discard_pairs same_chars to_remove)
             name ref.
Proof.
  intros Hnames Hrefs.
  destruct (filter_keeps chars same_chars Hnames Hrefs) as (to_remove & Hrun & Hkeep).
  exists to_remove. split; [done|]. intros name ref c1 c2 Hc1 Hc2 Hunset Hu1 Hu2 Hin.
  apply (Hkeep name ref c1 c2 Hc1 Hc2) in Hin as [_ Hok].
  unfold inconsistent in Hok. apply orb_false_iff in Hok as [Hok _].
  destruct (Character.gender c1) as [[]|], (Character.gender c2) as [[]|];
    try done; by destruct Hunset.
Qed.

Lemma constraint_filter_unset_witness :
  exists to_remove,
    CharacterIdentification.inconsistent_pairs hudson_store hudson_candidates
      = Ok to_remove
    /\ forall name ref c1 c2,
         Dict.find hudson_store name = Some c1 ->
         Dict.find hudson_store ref = Some c2 ->
         Character.gender c1 = None \/ Character.gender c2 = None ->
         Character.gender c1 <> Some UNKNOWN ->
         Character.gender c2 <> Some UNKNOWN ->
         ~ claims (CharacterIdentification.discard_pairs hudson_candidates to_remove)
             name ref.
Proof.
  apply (constraint_filter_unset hudson_store hudson_candidates).
  - intros name H. unfold hudson_candidates in H. simpl in H.
    cases_in H. subst. in_list.
  - intros name refs ref H Href. unfold hudson_candidates in H.
    cases_in H. injection H as -> ->. apply elem_of_singleton in Href as ->.
    in_list.
Defined.

(** X14. After lines 218-229 the map of contested referents binds exactly
    the referents that two names or more claim, each to its claimants in the
    order of the candidate map; a referent with a single claimant has no
    entry. *)
Theorem repeated_referents_entries (same_chars : Dict.t (gset string)) (ref : string) :
  Dict.find (CharacterIdentification.drop_unrepeated
               (CharacterIdentification.claimants_by_referent same_chars)) ref
  = if (2 <=? length (claimants same_chars ref))%nat
    then Some (claimants same_chars ref)
    else None.
Proof.
  destruct (claimants_by_referent_spec same_chars) as [[Hnd _] _].
  apply drop_unrepeated_spec in Hnd as [Hnd _].
  destruct (Nat.leb_spec 2 (length (claimants same_chars ref))) as [Hle|Hlt].
  - apply AppendFacts.In_find; [done|]. by apply repeated_entry.
  - destruct (Dict.find _ ref) as [names|] eqn:Hfind; [|done].
    apply DictFacts.find_Some_In, repeated_entry in Hfind as [-> Hlen]. lia.
Qed.

(** ** Cross-name correspondences *)

Section CorrespondenceFacts.
Import CharacterIdentification DictFacts AppendFacts.

Lemma ordered_pairs_NoDup {A : Type} (l : list A) (a b : A) :
  NoDup l -> (a, b) ∈ ordered_pairs l -> a <> b.
Proof.
  induction l as [|x l IH]; intros Hnd Hin; [inversion Hin|].
  apply NoDup_cons in Hnd as [Hx Hnd]. simpl in Hin.
  apply elem_of_app in Hin as [Hin|Hin]; [|by apply IH].
  apply list_elem_of_fmap in Hin as (y & [= -> ->] & Hy). by intros ->.
Qed.

Lemma correspondences_irreflexive (chars : Dict.t Character.t) (a : string) :
  NoDup (Dict.keys chars) ->
  a ∉ Dict.get_list (foldl (record_pair chars) [] (ordered_pairs (Dict.keys chars))) a.
Proof.
  intros Hnd Hin.
  apply record_pairs_spec in Hin as [Hin|(p & Hp & _ & Hxy)]; [inversion Hin|].
  assert (Hp' : (a, a) ∈ ordered_pairs (Dict.keys chars)).
  { by destruct Hxy as [-> | ->]. }
  by apply (ordered_pairs_NoDup _ _ _ Hnd) in Hp'.
Qed.

End CorrespondenceFacts.

(** X15. Two names of the store that are a title and a last name, with no
    first name, are recorded as corresponding to each other as soon as their
    titles and their genders are equal, whatever their last names: the two
    empty first names compare equal. *)
Theorem empty_first_names_correspond (chars : Dict.t Character.t) (a b : string)
    (c1 c2 : Character.t) :
  a <> b ->
  Dict.find chars a = Some c1 -> Dict.find chars b = Some c2 ->
  NameParsed.first (Character.name_parsed c1) = "" ->
  NameParsed.first (Character.name_parsed c2) = "" ->
  NameParsed.last (Character.name_parsed c1) <> "" ->
  NameParsed.last (Character.name_parsed c2) <> "" ->
  NameParsed.title (Character.name_parsed c1) <> "" ->
  NameParsed.title (Character.name_parsed c1)
    = NameParsed.title (Character.name_parsed c2) ->
  Character.gender c1 = Character.gender c2 ->
  exists correnspondence,
    CharacterIdentification.correspondences chars = Ok correnspondence
    /\ b ∈ Dict.get_list correnspondence a
    /\ a ∈ Dict.get_list correnspondence b.
Proof.
  intros Hne Hc1 Hc2 Hf1 Hf2 Hl1 Hl2 Ht Htt Hg.
  destruct (correspondences_spec chars) as (correnspondence & Hrun & _ & _ & Hiff).
  assert (Ha : a ∈ Dict.keys chars) by (apply DictFacts.find_is_Some; eauto).
  assert (Hb : b ∈ Dict.keys chars) by (apply DictFacts.find_is_Some; eauto).
  assert (Hcount : forall c, NameParsed.first (Character.name_parsed c) = "" ->
                     NameParsed.last (Character.name_parsed c) <> "" ->
                     NameParsed.title (Character.name_parsed c) <> "" ->
                     empty_fields c < 2).
  { intros c Hf Hl Htl. unfold empty_fields, count. rewrite Hf.
    rewrite filter_cons_True by done. rewrite filter_cons_False by done.
    rewrite filter_cons_False by done. simpl. lia. }
  assert (Hab : corresponds chars a b).
  { exists c1, c2. split_and!; try done.
    - by apply Hcount.
    - apply Hcount; [done | done | congruence].
    - intros (_ & _ & Hbad). done.
    - left. congruence. }
  exists correnspondence. split; [done|]. split.
  - by apply Hiff.
  - apply Hiff; [done | done | done |]. by apply corresponds_sym.
Qed.

Lemma empty_first_names_correspond_witness :
  exists correnspondence,
    CharacterIdentification.correspondences two_misters = Ok correnspondence
    /\ "Mr. Watson" ∈ Dict.get_list correnspondence "Mr. Holmes"
    /\ "Mr. Holmes" ∈ Dict.get_list correnspondence "Mr. Watson".
Proof.
  apply (empty_first_names_correspond two_misters "Mr. Holmes" "Mr. Watson"
           (Character.mk "Mr. Holmes" (NameParsed.mk "Mr." "" "Holmes")
              (Some MALE) [0; 9])
           (Character.mk "Mr. Watson" (NameParsed.mk "Mr." "" "Watson")
              (Some MALE) [4]));
    simpl; (reflexivity || discriminate).
Defined.

(** X16. In a store without a repeated key, no name is recorded as
    corresponding to itself, and every union that the last loop asks for
    joins a name with another name of the store that corresponds to it. *)
Theorem cross_name_unions_sound (chars : Dict.t Character.t) :
  NoDup (Dict.keys chars) ->
  exists correnspondence calls,
    CharacterIdentification.correspondences chars = Ok correnspondence
    /\ CharacterIdentification.unite_most_frequent CharacterIdentification.record_unite
         chars correnspondence [] = Ok calls
    /\ (forall a, a ∉ Dict.get_list correnspondence a)
    /\ forall a m, (a, m) ∈ calls -> a <> m /\ corresponds chars a m.
Proof.
  intros Hnd.
  destruct (correspondences_spec chars)
    as (correnspondence & Hrun & Hproper & Hknown & Hiff).
  assert (Hirr : forall a, a ∉ Dict.get_list correnspondence a).
  { intros a. pose proof (correspondences_eq chars) as Heq.
    rewrite Hrun in Heq. injection Heq as ->.
    by apply correspondences_irreflexive. }
  assert (Hentry : forall k names, (k, names) ∈ correnspondence ->
                     names = Dict.get_list correnspondence k).
  { intros k names Hin. apply (AppendFacts.In_find _ _ _ (proj1 Hproper)) in Hin.
    unfold Dict.get_list. by rewrite Hin. }
  assert (Hlists : forall k names, (k, names) ∈ correnspondence ->
            names <> [] /\ forall n, n ∈ names -> n ∈ Dict.keys chars).
  { intros k names Hin. split; [by eapply (proj2 Hproper)|].
    intros n Hn. apply (Hknown k). by rewrite <- (Hentry k names). }
  destruct (unite_most_frequent_calls chars correnspondence Hlists)
    as (calls & Hrun2 & Hcalls).
  exists correnspondence, calls. split_and!; [done | done | done |].
  intros a m Hin. apply Hcalls in Hin as (names & Hin & Hm). simpl in Hin, Hm.
  destruct (Hlists a names Hin) as [Hne Hkn].
  destruct (most_frequent_spec chars names Hne Hkn) as (m' & Hm' & Hmax).
  assert (m' = m) as -> by congruence.
  apply first_max_in in Hmax.
  assert (Hma : m ∈ Dict.get_list correnspondence a) by (by rewrite <- (Hentry a names)).
  assert (Hdiff : a <> m) by (intros ->; by apply (Hirr m)).
  split; [done|]. apply Hiff; [done | | by apply Hkn | done].
  assert (Hkey : a ∈ Dict.keys correnspondence) by (by eapply DictFacts.In_keys).
  pose proof (correspondences_eq chars) as Heq. rewrite Hrun in Heq.
  injection Heq as ->. by apply correspondences_keys.
Qed.

Lemma cross_name_unions_sound_witness :
  exists correnspondence calls,
    CharacterIdentification.correspondences holmes_store = Ok correnspondence
    /\ CharacterIdentification.unite_most_frequent CharacterIdentification.record_unite
         holmes_store correnspondence [] = Ok calls
    /\ (forall a, a ∉ Dict.get_list correnspondence a)
    /\ forall a m, (a, m) ∈ calls -> a <> m /\ corresponds holmes_store a m.
Proof.
  apply (cross_name_unions_sound holmes_store).
  apply (bool_decide_unpack _). vm_compute. exact I.
Defined.

(** ** Unification of a store without genders *)

Section Unset.
Import CharacterIdentification DictFacts AppendFacts.

Lemma empty_list {A : Type} (l : list A) : (forall x, x ∉ l) -> l = [].
Proof. destruct l as [|x l]; [done|]. intros H. exfalso. apply (H x). left. Qed.

End Unset.

(** X17. On a store in which no gender has been set, as after detection
    alone, the constraint filter empties the candidate map: no referent is
    contested, and the two loops of lines 233-250 ask for no union at all,
    whatever the referent generator proposed. *)
Theorem unset_genders_no_referent_union (chars : Dict.t Character.t)
    (same_chars : Dict.t (gset string)) :
  NoDup (Dict.keys same_chars) ->
  (forall name, name ∈ Dict.keys same_chars -> name ∈ Dict.keys chars) ->
  (forall name refs ref, (name, refs) ∈ same_chars -> ref ∈ refs ->
                         ref ∈ Dict.keys chars) ->
  (forall name c, (name, c) ∈ chars -> Character.gender c = None) ->
  exists to_remove,
    CharacterIdentification.inconsistent_pairs chars same_chars = Ok to_remove
    /\ let filtered := CharacterIdentification.discard_pairs same_chars to_remove in
       let repeated_referents :=
         CharacterIdentification.drop_unrepeated
           (CharacterIdentification.claimants_by_referent filtered) in
       (forall name refs, (name, refs) ∈ filtered -> refs = ∅)
       /\ repeated_referents = []
       /\ CharacterIdentification.unite_uncontested
            CharacterIdentification.record_unite filtered repeated_referents []
          = Ok []
       /\ CharacterIdentification.unite_most_frequent
            CharacterIdentification.record_unite chars repeated_referents []
          = Ok [].
Proof.
  intros Hnd Hnames Hrefs Hunset.
  destruct (filter_keeps chars same_chars Hnames Hrefs) as (to_remove & Hrun & Hkeep).
  exists to_remove. split; [done|]. intros filtered repeated_referents.
  destruct (discard_pairs_entries to_remove same_chars) as [Hkeys Hsub].
  fold filtered in Hkeys, Hsub.
  assert (Hempty : forall name refs, (name, refs) ∈ filtered -> refs = ∅).
  { intros name refs' Hin. apply set_eq. intros ref. split; [|set_solver].
    intros Href. exfalso.
    assert (Hclaim : claims filtered name ref).
    { exists refs'. split; [|done]. apply AppendFacts.In_find; [|done].
      by rewrite Hkeys. }
    destruct (Hsub name refs' Hin) as (refs & Hin0 & Hincl).
    assert (Hc : exists c1 c2, Dict.find chars name = Some c1
                               /\ Dict.find chars ref = Some c2).
    { apply (claims_known chars same_chars name ref Hnames Hrefs).
      exists refs. split; [by apply AppendFacts.In_find | set_solver]. }
    destruct Hc as (c1 & c2 & Hc1 & Hc2).
    apply (Hkeep name ref c1 c2 Hc1 Hc2) in Hclaim as [_ Hok].
    unfold inconsistent in Hok.
    rewrite (Hunset name c1), (Hunset ref c2) in Hok
      by (by apply DictFacts.find_Some_In).
    done. }
  assert (Hnone : forall ref, claimants filtered ref = []).
  { intros ref. apply empty_list. intros name Hin.
    apply elem_of_claimants in Hin as (refs & Hin & Href).
    apply Hempty in Hin as ->. set_solver. }
  assert (Hrep : repeated_referents = []).
  { apply empty_list. intros [ref names] Hin.
    apply repeated_entry in Hin as [-> Hlen]. rewrite Hnone in Hlen.
    simpl in Hlen. lia. }
  split; [exact Hempty|]. split; [exact Hrep|]. split.
  - destruct (unite_uncontested_calls filtered repeated_referents)
      as (calls & -> & Hcalls).
    f_equal. apply empty_list. intros pair Hin.
    apply Hcalls in Hin as (refs & Hin & Href & _).
    apply Hempty in Hin as ->. set_solver.
  - by rewrite Hrep.
Qed.

Lemma unset_genders_no_referent_union_witness :
  exists to_remove,
    CharacterIdentification.inconsistent_pairs hudson_store hudson_candidates
      = Ok to_remove
    /\ let filtered :=
         CharacterIdentification.discard_pairs hudson_candidates to_remove in
       let repeated_referents :=
         CharacterIdentification.drop_unrepeated
           (CharacterIdentification.claimants_by_referent filtered) in
       (forall name refs, (name, refs) ∈ filtered -> refs = ∅)
       /\ repeated_referents = []
       /\ CharacterIdentification.unite_uncontested
            CharacterIdentification.record_unite filtered repeated_referents []
          = Ok []
       /\ CharacterIdentification.unite_most_frequent
            CharacterIdentification.record_unite hudson_store repeated_referents []
          = Ok [].
Proof.
  apply (unset_genders_no_referent_union hudson_store hudson_candidates).
  - apply (bool_decide_unpack _). vm_compute. exact I.
  - intros name H. unfold hudson_candidates in H. simpl in H.
    cases_in H. subst. in_list.
  - intros name refs ref H Href. unfold hudson_candidates in H.
    cases_in H. injection H as -> ->. apply elem_of_singleton in Href as ->.
    in_list.
  - intros name c H. unfold hudson_store in H. cases_in H; by injection H as _ ->.
Defined.

(** ** Title votes and the keys of titled names *)

Lemma length_append (s1 s2 : string) :
  String.length (s1 +:+ s2) = (String.length s1 + String.length s2)%nat.
Proof. induction s1 as [|a s1 IH]; simpl; [done | by rewrite IH]. Qed.

Lemma titled_key_differs (title name : string) : name <> title +:+ " " +:+ name.
Proof.
  intros H. apply (f_equal String.length) in H.
  rewrite !length_append in H. simpl in H. lia.
Qed.

(** X18. A match of a title and a name votes under the name text alone. It
    gives nothing to the key made of the title, a space and the name, under
    which [detect_characters] stores a name that follows a title: with or
    without that match the title estimator answers the same for that key, and
    when no other match is found the answer is UNKNOWN. *)
Theorem title_vote_misses_titled_key (self : GenderAnnotation.t)
    (title name : string) (title_name : list (string * string)) :
  let key := title +:+ " " +:+ name in
  Dict.find (GenderAnnotation._annotate_gender_by_titiles self
               ((title, name) :: title_name)) key
    = Dict.find (GenderAnnotation._annotate_gender_by_titiles self title_name) key
  /\ (Dict.mem (GenderAnnotation.chars self) key = true ->
      Dict.find (GenderAnnotation._annotate_gender_by_titiles self [(title, name)]) key
      = Some (inl UNKNOWN)).
Proof.
  intros key.
  assert (Hvotes : forall rest, votes_for key ((title, name) :: rest)
                                = votes_for key rest).
  { intros rest. unfold votes_for. cbn [flat_map snd].
    destruct (String.eqb_spec name key) as [Heq|_]; [|done].
    by apply titled_key_differs in Heq. }
  rewrite !annotate_by_titles_find, !Hvotes. split; [done|].
  by intros ->.
Qed.
